(** * Marabou: the decision stack (SmtCore) and the row bound tightener

    A shallow embedding of [SmtCore.cpp] and [RowBoundTightener.cpp].

    - A C++ [double] is a primitive binary64 float; [+ - * /] and [abs] are
      the IEEE operations of [PrimFloat].
    - An [unsigned] is an [N] below [2^32]; increments, decrements and sums
      are written with their wrap-around.
    - Pointers to constraints and variables' indices are natural numbers.
    - The lists of the code ([List<T>], appended at the back) are lists whose
      last element is [back()].
    - The collaborators the two classes talk to (the engine, the context,
      the certificate tree, the constraints, the tableau) are not part of
      these sources.  What the code tells them is recorded in a log of
      calls; what they answer is a function of that log.
    - [ASSERT] is compiled out in release builds and is recorded in comments
      only.  Statistics and timing are a write-only sink and are left out. *)

From Stdlib Require Import PrimFloat.
From stdpp Require Import base numbers list option gmap.

Set Default Proof Using "Type".
Local Open Scope N_scope.

(** ** Machine data *)

Definition double : Type := float.

Definition UINT_RANGE : N := 2 ^ 32.

(** [++x] on an [unsigned]. *)
Definition uinc (x : N) : N := (x + 1) mod UINT_RANGE.

(** [--x] on an [unsigned]: zero wraps to [UINT_MAX]. *)
Definition udec (x : N) : N := (x + (UINT_RANGE - 1)) mod UINT_RANGE.

(** [x += y] on an [unsigned]. *)
Definition uadd (x y : N) : N := (x + y) mod UINT_RANGE.

(** [FloatUtils.h] is not among the sources: its tolerant comparisons are
    an interface that every development below is parametric in. *)
Class FloatUtils : Type := {
  isZero : double -> bool;
  isPositive : double -> bool;
  gt : double -> double -> bool;
  lt : double -> double -> bool;
}.

(** The constants of [GlobalConfiguration] that the two classes read.
    [GlobalConfiguration.cpp] is not among the sources, so their values are
    parameters. *)
Record GlobalConfiguration : Type := {
  USE_LEAST_FIX : bool;
  ROW_BOUND_TIGHTENER_SATURATION_ITERATIONS : N;
  MINIMAL_COEFFICIENT_FOR_TIGHTENING : double;
  EXPLICIT_BASIS_BOUND_TIGHTENING_ROUNDING_CONSTANT : double;
}.

(** [Tightening]: a bound on one variable. *)
Inductive BoundType : Type := LB | UB.

Record Tightening : Type := mkTightening {
  _variable : nat;
  _value : double;
  _type : BoundType;
}.

(** Equations are carried by a case split but never inspected here. *)
Definition Equation : Type := nat.

Record PiecewiseLinearCaseSplit : Type := mkSplit {
  getBoundTightenings : list Tightening;
  getEquations : list Equation;
}.

(** Exceptions: a call either returns a value or throws, and leaves a state
    behind in both cases. *)
Inductive Outcome (E S A : Type) : Type :=
| Returned (a : A) (s : S)
| Thrown (e : E) (s : S).
Arguments Returned {E S A} a s.
Arguments Thrown {E S A} e s.

Definition stateOf {E S A} (o : Outcome E S A) : S :=
  match o with Returned _ s => s | Thrown _ s => s end.

(** [List::back()] and [List::popBack()]. *)
Definition back {A} (l : list A) : option A := last l.
Definition popBack {A} (l : list A) : list A := removelast l.

(** [l.back() = x] written in place. *)
Definition setBack {A} (x : A) (l : list A) : list A := popBack l ++ [x].

Lemma back_snoc {A} (l : list A) x : back (l ++ [x]) = Some x.
Proof. apply last_snoc. Qed.

Lemma popBack_snoc {A} (l : list A) x : popBack (l ++ [x]) = l.
Proof. apply removelast_last. Qed.

Lemma back_Some_snoc {A} (l : list A) x : back l = Some x -> l = popBack l ++ [x].
Proof.
  intros [l' ->]%last_Some. by rewrite popBack_snoc.
Qed.

Lemma back_None_nil {A} (l : list A) : back l = None -> l = [].
Proof. apply last_None. Qed.

Lemma nil_or_not {A} (l : list A) : l = [] \/ l <> [].
Proof. destruct l; [by left|by right]. Qed.

Lemma length_popBack {A} (l : list A) : length (popBack l) = pred (length l).
Proof.
  destruct (back l) as [x|] eqn:Hb.
  - rewrite (back_Some_snoc l x Hb) at 2. rewrite length_app. simpl. lia.
  - by rewrite (back_None_nil l Hb).
Qed.

(** ** SmtCore: the decision stack *)

Module SmtCore.

Definition ConstraintId : Type := nat.

Inductive TableauStateStorageLevel : Type :=
| STORE_BOUNDS_ONLY
| STORE_ENTIRE_TABLEAU_STATE.

(** [EngineState]: the snapshot object.  The core sets its identifier; the
    engine fills the rest when told to store into it. *)
Record EngineState : Type := mkEngineState { _stateId : N }.

(** Every call the core makes on a collaborator, in program order. *)
Inductive Call : Type :=
| context_push
| context_pop
| context_popto (level : nat)
| engine_storeState (s : EngineState) (level : TableauStateStorageLevel)
| engine_restoreState (s : EngineState)
| engine_preContextPushHook
| engine_postContextPopHook
| engine_applySplit (split : PiecewiseLinearCaseSplit)
| engine_explainSimplexFailure
| constraint_setActiveConstraint (c : ConstraintId) (active : bool)
(* [new UnsatCertificateNode( certificateNode, childSplit )] for each split *)
| certificate_addChildren (splits : list PiecewiseLinearCaseSplit)
(* [setUNSATCertificateCurrentPointer( certificateNode->getChildBySplit( split ) )] *)
| certificate_setToChild (split : PiecewiseLinearCaseSplit)
(* the same after climbing to the nearest ancestor that has such a child *)
| certificate_setToNearestChild (split : PiecewiseLinearCaseSplit)
(* [setUNSATCertificateCurrentPointer( certificateNode->getParent() )] *)
| certificate_setToParent.

(** What the collaborators answer, given everything done to them so far. *)
Class IEngine : Type := {
  consistentBounds : list Call -> bool;
  shouldProduceProofs : list Call -> bool;
  (* [getUNSATCertificateRoot()] is not null *)
  hasUNSATCertificateRoot : list Call -> bool;
  (* [getUNSATCertificateCurrentPointer()] is not null *)
  hasUNSATCertificateCurrentPointer : list Call -> bool;
  (* [constraint->isActive()] and [constraint->getCaseSplits()] *)
  isActive : list Call -> ConstraintId -> bool;
  getCaseSplits : list Call -> ConstraintId -> list PiecewiseLinearCaseSplit;
}.

Record SmtStackEntry : Type := mkEntry {
  _activeSplit : PiecewiseLinearCaseSplit;
  _impliedValidSplits : list PiecewiseLinearCaseSplit;
  _alternativeSplits : list PiecewiseLinearCaseSplit;
  _engineState : EngineState;
}.

(** The fields of [SmtCore], the level of [_context], and the log of calls
    made through [_engine], [_context] and the constraint pointers.
    [_nextStateId] is the member [_stateId] of the class, which shares its
    name with the one of [EngineState]. *)
Record State : Type := mkState {
  _stack : list SmtStackEntry;
  _impliedValidSplitsAtRoot : list PiecewiseLinearCaseSplit;
  _needToSplit : bool;
  _constraintForSplitting : option ConstraintId;
  _nextStateId : N;
  _constraintToViolationCount : gmap ConstraintId N;
  _numRejectedPhasePatternProposal : N;
  _debuggingSolution : gmap nat double;
  _contextLevel : nat;
  _calls : list Call;
}.

Inductive MarabouError : Type := DEBUGGING_ERROR.

Definition Result (A : Type) : Type := Outcome MarabouError State A.

(** *** Field updates *)

Definition with_stack (stack : list SmtStackEntry) (st : State) : State :=
  mkState stack (_impliedValidSplitsAtRoot st) (_needToSplit st)
    (_constraintForSplitting st) (_nextStateId st) (_constraintToViolationCount st)
    (_numRejectedPhasePatternProposal st) (_debuggingSolution st)
    (_contextLevel st) (_calls st).

Definition with_impliedValidSplitsAtRoot (l : list PiecewiseLinearCaseSplit) (st : State) : State :=
  mkState (_stack st) l (_needToSplit st)
    (_constraintForSplitting st) (_nextStateId st) (_constraintToViolationCount st)
    (_numRejectedPhasePatternProposal st) (_debuggingSolution st)
    (_contextLevel st) (_calls st).

Definition with_needToSplit (b : bool) (st : State) : State :=
  mkState (_stack st) (_impliedValidSplitsAtRoot st) b
    (_constraintForSplitting st) (_nextStateId st) (_constraintToViolationCount st)
    (_numRejectedPhasePatternProposal st) (_debuggingSolution st)
    (_contextLevel st) (_calls st).

Definition with_constraintForSplitting (c : option ConstraintId) (st : State) : State :=
  mkState (_stack st) (_impliedValidSplitsAtRoot st) (_needToSplit st)
    c (_nextStateId st) (_constraintToViolationCount st)
    (_numRejectedPhasePatternProposal st) (_debuggingSolution st)
    (_contextLevel st) (_calls st).

Definition with_nextStateId (n : N) (st : State) : State :=
  mkState (_stack st) (_impliedValidSplitsAtRoot st) (_needToSplit st)
    (_constraintForSplitting st) n (_constraintToViolationCount st)
    (_numRejectedPhasePatternProposal st) (_debuggingSolution st)
    (_contextLevel st) (_calls st).

Definition with_constraintToViolationCount (m : gmap ConstraintId N) (st : State) : State :=
  mkState (_stack st) (_impliedValidSplitsAtRoot st) (_needToSplit st)
    (_constraintForSplitting st) (_nextStateId st) m
    (_numRejectedPhasePatternProposal st) (_debuggingSolution st)
    (_contextLevel st) (_calls st).

Definition with_numRejectedPhasePatternProposal (n : N) (st : State) : State :=
  mkState (_stack st) (_impliedValidSplitsAtRoot st) (_needToSplit st)
    (_constraintForSplitting st) (_nextStateId st) (_constraintToViolationCount st)
    n (_debuggingSolution st)
    (_contextLevel st) (_calls st).

Definition with_contextLevel (n : nat) (st : State) : State :=
  mkState (_stack st) (_impliedValidSplitsAtRoot st) (_needToSplit st)
    (_constraintForSplitting st) (_nextStateId st) (_constraintToViolationCount st)
    (_numRejectedPhasePatternProposal st) (_debuggingSolution st)
    n (_calls st).

(** One more call on a collaborator. *)
Definition call (c : Call) (st : State) : State :=
  mkState (_stack st) (_impliedValidSplitsAtRoot st) (_needToSplit st)
    (_constraintForSplitting st) (_nextStateId st) (_constraintToViolationCount st)
    (_numRejectedPhasePatternProposal st) (_debuggingSolution st)
    (_contextLevel st) (_calls st ++ [c]).

(** [call] guarded by a condition, as in [if ( cond ) _engine->...]. *)
Definition callIf (b : bool) (c : Call) (st : State) : State :=
  if b then call c st else st.

Section WithCollaborators.
Context {FU : FloatUtils} {engine : IEngine} (cfg : GlobalConfiguration).

(** *** Violation counts and the least-fix heuristic *)

Definition getViolationCounts (st : State) (constraint : ConstraintId) : N :=
  match _constraintToViolationCount st !! constraint with
  | None => 0
  | Some n => n
  end.

(** The [while] loop of [chooseViolatedConstraintForFixing]: the pair is
    [(candidate, minFixes)]. *)
Definition leastFixStep (st : State) (acc : ConstraintId * N) (contender : ConstraintId)
  : ConstraintId * N :=
  let contenderFixes := getViolationCounts st contender in
  if contenderFixes <? snd acc then (contender, contenderFixes) else acc.

(** [None] stands for dereferencing [begin()] of an empty list, which the
    code excludes by [ASSERT( !_violatedPlConstraints.empty() )]. *)
Definition chooseViolatedConstraintForFixing (st : State)
  (_violatedPlConstraints : list ConstraintId) : option ConstraintId :=
  match _violatedPlConstraints with
  | [] => None
  | first :: _ =>
      if negb (USE_LEAST_FIX cfg) then Some first
      else
        let candidate := first in
        let minFixes := getViolationCounts st candidate in
        Some (fst (fold_left (leastFixStep st) _violatedPlConstraints (candidate, minFixes)))
  end.

(** *** The splits applied so far *)

Definition recordedSplits (it : SmtStackEntry) (result : list PiecewiseLinearCaseSplit)
  : list PiecewiseLinearCaseSplit :=
  fold_left (fun result impliedSplit => result ++ [impliedSplit])
    (_impliedValidSplits it) (result ++ [_activeSplit it]).

Definition allSplitsSoFar (st : State) : list PiecewiseLinearCaseSplit :=
  let result := [] in
  let result := fold_left (fun result it => result ++ [it]) (_impliedValidSplitsAtRoot st) result in
  fold_left (fun result it => recordedSplits it result) (_stack st) result.

(** *** The debugging solution *)

Definition boundAllowsStoredSolution (st : State) (bound : Tightening) : bool :=
  match _debuggingSolution st !! _variable bound with
  | None => true
  | Some solutionValue =>
      let boundValue := _value bound in
      match _type bound with
      | LB => negb (gt boundValue solutionValue)
      | UB => negb (lt boundValue solutionValue)
      end
  end.

Definition splitAllowsStoredSolution (st : State) (split : PiecewiseLinearCaseSplit) : bool :=
  if decide (_debuggingSolution st = ∅) then true
  else forallb (boundAllowsStoredSolution st) (getBoundTightenings split).

(** The loop over the stack in [checkSkewFromDebuggingSolution], oldest
    entry first. *)
Fixpoint checkSkewOfStack (st : State) (stack : list SmtStackEntry) : MarabouError + bool :=
  match stack with
  | [] => inr true
  | stackEntry :: rest =>
      if negb (splitAllowsStoredSolution st (_activeSplit stackEntry)) then
        match _alternativeSplits stackEntry with
        | [] => inl DEBUGGING_ERROR
        | _ => inr false
        end
      else if negb (forallb (splitAllowsStoredSolution st) (_impliedValidSplits stackEntry))
      then inl DEBUGGING_ERROR
      else checkSkewOfStack st rest
  end.

Definition checkSkewFromDebuggingSolution (st : State) : MarabouError + bool :=
  if decide (_debuggingSolution st = ∅) then inr false
  else if negb (forallb (splitAllowsStoredSolution st) (_impliedValidSplitsAtRoot st))
  then inl DEBUGGING_ERROR
  else checkSkewOfStack st (_stack st).

Definition recordImpliedValidSplit (validSplit : PiecewiseLinearCaseSplit) (st : State)
  : Result unit :=
  let st :=
    match back (_stack st) with
    | None => with_impliedValidSplitsAtRoot (_impliedValidSplitsAtRoot st ++ [validSplit]) st
    | Some top =>
        let top := mkEntry (_activeSplit top) (_impliedValidSplits top ++ [validSplit])
                     (_alternativeSplits top) (_engineState top) in
        with_stack (setBack top (_stack st)) st
    end in
  match checkSkewFromDebuggingSolution st with
  | inl e => Thrown e st
  | inr _ => Returned tt st
  end.

(** *** Context pushes and pops *)

Definition pushContext (st : State) : State :=
  call context_push (with_contextLevel (S (_contextLevel st)) st).

(** A pop at level zero is outside what the context allows; the level
    stays at zero here. *)
Definition popContext (st : State) : State :=
  call context_pop (with_contextLevel (pred (_contextLevel st)) st).

Definition getStackDepth (st : State) : nat := length (_stack st).

(** *** performSplit *)

(** [_engine->shouldProduceProofs() && _engine->getUNSATCertificateRoot()] *)
Definition proofsWithRoot (st : State) : bool :=
  shouldProduceProofs (_calls st) && hasUNSATCertificateRoot (_calls st).

(** [_engine->shouldProduceProofs() && _engine->getUNSATCertificateCurrentPointer()] *)
Definition proofsWithCurrentPointer (st : State) : bool :=
  shouldProduceProofs (_calls st) && hasUNSATCertificateCurrentPointer (_calls st).

(** [None] stands for the two dereferences the code guards by assertions
    only: of [_constraintForSplitting] when it is null, and of
    [splits.begin()] when the constraint has no case split.
    [ASSERT( _needToSplit )], [ASSERT( splits.size() >= 2 )] and
    [ASSERT( split->getEquations().size() == 0 )] have no effect. *)
Definition performSplit (st : State) : option State :=
  let st := with_numRejectedPhasePatternProposal 0 st in
  match _constraintForSplitting st with
  | None => None
  | Some c =>
      (* Maybe the constraint has already become inactive - if so, ignore *)
      if negb (isActive (_calls st) c) then
        let st := with_needToSplit false st in
        let st := with_constraintToViolationCount (<[c := 0]> (_constraintToViolationCount st)) st in
        let st := with_constraintForSplitting None st in
        Some st
      else
        let st := with_needToSplit false st in
        let splits := getCaseSplits (_calls st) c in
        let st := call (constraint_setActiveConstraint c false) st in
        (* Obtain the current state of the engine *)
        let stateBeforeSplits := mkEngineState (_nextStateId st) in
        let st := with_nextStateId (uinc (_nextStateId st)) st in
        let st := call (engine_storeState stateBeforeSplits STORE_BOUNDS_ONLY) st in
        let st := call engine_preContextPushHook st in
        let st := pushContext st in
        let st := callIf (proofsWithRoot st) (certificate_addChildren splits) st in
        match splits with
        | [] => None
        | split :: remaining =>
            let st := callIf (proofsWithRoot st) (certificate_setToChild split) st in
            let st := call (engine_applySplit split) st in
            let stackEntry := mkEntry split [] remaining stateBeforeSplits in
            let st := with_stack (_stack st ++ [stackEntry]) st in
            Some (with_constraintForSplitting None st)
        end
  end.

(** *** popSplit *)

(** The body of the inner [while]: the entry at the back has no alternative
    left and is removed. *)
Definition popExhaustedEntry (st : State) : State :=
  let st := with_stack (popBack (_stack st)) st in
  let st := popContext st in
  callIf (proofsWithCurrentPointer st) certificate_setToParent st.

(** The rest of the body of the outer [while]: the entry at the back moves
    on to its next alternative [split]. *)
Definition advanceEntry (stackEntry : SmtStackEntry) (split : PiecewiseLinearCaseSplit)
  (remaining : list PiecewiseLinearCaseSplit) (st : State) : State :=
  let st := popContext st in
  let st := call engine_postContextPopHook st in
  (* Restore the state of the engine *)
  let st := call (engine_restoreState (_engineState stackEntry)) st in
  let st := callIf (proofsWithCurrentPointer st) (certificate_setToNearestChild split) st in
  let st := call engine_preContextPushHook st in
  let st := pushContext st in
  let st := call (engine_applySplit split) st in
  (* [_impliedValidSplits.clear()], [_activeSplit = *split], [erase( split )] *)
  let stackEntry := mkEntry split [] remaining (_engineState stackEntry) in
  with_stack (setBack stackEntry (_stack st)) st.

(** The two nested loops of [popSplit], one iteration of either per unit of
    [fuel].  The inner loop is re-entered at the top of every iteration of
    the outer one, so the two run as one loop that looks at the back of the
    stack: an entry without alternatives is removed, an entry with one
    advances.  [None]: out of fuel, or [back()] of an empty stack (which the
    guards before the loop and inside it exclude). *)
Fixpoint popSplitLoop (fuel : nat) (st : State) : option (Result bool) :=
  match fuel with
  | O => None
  | S fuel =>
      match back (_stack st) with
      | None => None
      | Some stackEntry =>
          match checkSkewFromDebuggingSolution st with
          | inl e => Some (Thrown e st)
          | inr true =>
              (* Pops should not occur from a compliant stack! *)
              Some (Thrown DEBUGGING_ERROR st)
          | inr false =>
              match _alternativeSplits stackEntry with
              | [] =>
                  let st := popExhaustedEntry st in
                  match _stack st with
                  | [] => Some (Returned false st)
                  | _ => popSplitLoop fuel st
                  end
              | split :: remaining =>
                  let st := advanceEntry stackEntry split remaining st in
                  let inconsistent := negb (consistentBounds (_calls st)) in
                  let st := callIf (shouldProduceProofs (_calls st) && inconsistent)
                              engine_explainSimplexFailure st in
                  if inconsistent then popSplitLoop fuel st
                  else
                    match checkSkewFromDebuggingSolution st with
                    | inl e => Some (Thrown e st)
                    | inr _ => Some (Returned true st)
                    end
              end
          end
      end
  end.

(** Every iteration removes an entry or an alternative: the number of both
    bounds the number of iterations. *)
Definition stackWork (stack : list SmtStackEntry) : nat :=
  foldr (fun entry n => (S (length (_alternativeSplits entry)) + n)%nat) O stack.

Definition popSplit (st : State) : option (Result bool) :=
  match _stack st with
  | [] => Some (Returned false st)
  | _ => popSplitLoop (stackWork (_stack st)) st
  end.

(** [replaySmtStackEntry]: an entry is put back on the stack and its splits
    are applied again; the context is not pushed. *)
Definition replaySmtStackEntry (stackEntry : SmtStackEntry) (st : State) : State :=
  let stateBeforeSplits := mkEngineState (_nextStateId st) in
  let st := with_nextStateId (uinc (_nextStateId st)) st in
  let st := call (engine_storeState stateBeforeSplits STORE_ENTIRE_TABLEAU_STATE) st in
  let stackEntry := mkEntry (_activeSplit stackEntry) (_impliedValidSplits stackEntry)
                      (_alternativeSplits stackEntry) stateBeforeSplits in
  let st := call (engine_applySplit (_activeSplit stackEntry)) st in
  let st := fold_left (fun st impliedSplit => call (engine_applySplit impliedSplit) st)
              (_impliedValidSplits stackEntry) st in
  with_stack (_stack st ++ [stackEntry]) st.

(** [reset]: back to level zero, with an empty stack. *)
Definition reset (st : State) : State :=
  let st := call (context_popto 0) (with_contextLevel 0 st) in
  let st := call engine_postContextPopHook st in
  mkState [] [] false None 0 ∅ 0 (_debuggingSolution st) (_contextLevel st) (_calls st).

(** *** Properties: the least-fix heuristic *)

Lemma leastFix_fold (st : State) (l : list ConstraintId) :
  forall acc : ConstraintId * N,
    snd acc = getViolationCounts st (fst acc) ->
    let r := fold_left (leastFixStep st) l acc in
    snd r = getViolationCounts st (fst r) /\
    ((r = acc /\ forall c, c ∈ l -> snd acc <= getViolationCounts st c) \/
     (exists pre post,
        l = pre ++ fst r :: post /\
        snd r < snd acc /\
        (forall c, c ∈ pre -> snd r < getViolationCounts st c) /\
        (forall c, c ∈ post -> snd r <= getViolationCounts st c))).
Proof.
  induction l as [|x l IH]; intros acc Hacc; simpl.
  - split; [done|]. left. split; [done|]. intros c Hc. by apply elem_of_nil in Hc.
  - assert (Hstep : snd (leastFixStep st acc x) = getViolationCounts st (fst (leastFixStep st acc x))).
    { unfold leastFixStep. by destruct (_ <? _). }
    destruct (IH _ Hstep) as [Hr Hcases]. split; [exact Hr|].
    unfold leastFixStep in Hcases |- *.
    destruct (N.ltb_spec (getViolationCounts st x) (snd acc)) as [Hlt|Hge].
    + right. destruct Hcases as [[Heq Hall]|(pre & post & Hl & Hlt' & Hpre & Hpost)].
      * exists [], l. rewrite Heq. simpl. repeat split; [done| |done].
        intros c Hc. by apply elem_of_nil in Hc.
      * exists (x :: pre), post. simpl in *. repeat split.
        -- simpl. f_equal. exact Hl.
        -- lia.
        -- intros c [->|Hc]%elem_of_cons; [done|by apply Hpre].
        -- done.
    + destruct Hcases as [[Heq Hall]|(pre & post & Hl & Hlt' & Hpre & Hpost)].
      * left. split; [done|]. intros c [->|Hc]%elem_of_cons; [done|by apply Hall].
      * right. exists (x :: pre), post. repeat split.
        -- simpl. f_equal. exact Hl.
        -- done.
        -- intros c [->|Hc]%elem_of_cons; [lia|by apply Hpre].
        -- done.
Qed.

(** C8. For a non-empty list of violated constraints,
    [chooseViolatedConstraintForFixing] returns a constraint of the list:
    with [USE_LEAST_FIX] the first one whose violation count is the least
    of the list, and without it the first one of the list. *)
Theorem chooseViolatedConstraintForFixing_spec (st : State) (violated : list ConstraintId) :
  violated <> [] ->
  exists c,
    chooseViolatedConstraintForFixing st violated = Some c /\
    c ∈ violated /\
    (USE_LEAST_FIX cfg = true ->
       (forall c', c' ∈ violated -> getViolationCounts st c <= getViolationCounts st c') /\
       exists pre post,
         violated = pre ++ c :: post /\
         forall c', c' ∈ pre -> getViolationCounts st c < getViolationCounts st c') /\
    (USE_LEAST_FIX cfg = false -> head violated = Some c).
Proof.
  destruct violated as [|first rest]; [done|]. intros _.
  unfold chooseViolatedConstraintForFixing.
  destruct (USE_LEAST_FIX cfg) eqn:Hfix; simpl negb; cbv iota.
  - pose proof (leastFix_fold st (first :: rest) (first, getViolationCounts st first) eq_refl)
      as [Hr Hcases].
    set (r := fold_left (leastFixStep st) (first :: rest) (first, getViolationCounts st first)) in *.
    exists (fst r). split; [done|].
    destruct Hcases as [[Heq Hall]|(pre & post & Hl & Hlt & Hpre & Hpost)].
    + rewrite Heq. simpl. split; [apply elem_of_cons; by left|]. split; [|done].
      intros _. split; [exact Hall|]. exists [], rest. split; [done|].
      intros c' Hc'. by apply elem_of_nil in Hc'.
    + split; [rewrite Hl; apply elem_of_app; right; apply elem_of_cons; by left|].
      split; [|done]. intros _. rewrite <- Hr. split.
      * intros c'. rewrite Hl. intros [Hin|[->|Hin]%elem_of_cons]%elem_of_app.
        -- apply N.lt_le_incl. by apply Hpre.
        -- by rewrite Hr.
        -- by apply Hpost.
      * exists pre, post. split; [done|]. exact Hpre.
  - exists first. split; [done|]. split; [apply elem_of_cons; by left|].
    split; [done|]. by intros _.
Qed.

(** *** Properties: the splits applied so far *)

Lemma fold_left_append {A} (l r : list A) :
  fold_left (fun result it => result ++ [it]) l r = r ++ l.
Proof.
  revert r. induction l as [|x l IH]; intros r; simpl.
  - by rewrite app_nil_r.
  - rewrite IH. by rewrite <- app_assoc.
Qed.

Lemma recordedSplits_app (it : SmtStackEntry) (result : list PiecewiseLinearCaseSplit) :
  recordedSplits it result = result ++ _activeSplit it :: _impliedValidSplits it.
Proof.
  unfold recordedSplits. rewrite fold_left_append. by rewrite <- app_assoc.
Qed.

Lemma fold_left_recordedSplits (stack : list SmtStackEntry) (result : list PiecewiseLinearCaseSplit) :
  fold_left (fun result it => recordedSplits it result) stack result =
  result ++ concat (map (fun it => _activeSplit it :: _impliedValidSplits it) stack).
Proof.
  revert result. induction stack as [|it stack IH]; intros result; simpl.
  - by rewrite app_nil_r.
  - rewrite IH, recordedSplits_app. by rewrite <- app_assoc.
Qed.

(** C9. [allSplitsSoFar] is the root-level implied valid splits in order,
    followed, for each entry of the stack from the oldest to the newest, by
    its active split and then its implied valid splits. *)
Theorem allSplitsSoFar_spec (st : State) :
  allSplitsSoFar st =
  _impliedValidSplitsAtRoot st ++
  concat (map (fun it => _activeSplit it :: _impliedValidSplits it) (_stack st)).
Proof.
  unfold allSplitsSoFar.
  rewrite fold_left_recordedSplits.
  rewrite fold_left_append.
  reflexivity.
Qed.

(** A split recorded as implied valid becomes the last of [allSplitsSoFar]:
    it lands in the newest entry, or in the root list when there is none. *)
Lemma recordImpliedValidSplit_allSplitsSoFar (validSplit : PiecewiseLinearCaseSplit) (st : State) :
  allSplitsSoFar (stateOf (recordImpliedValidSplit validSplit st)) =
  allSplitsSoFar st ++ [validSplit].
Proof.
  unfold recordImpliedValidSplit.
  set (st1 := match back (_stack st) with None => _ | Some top => _ end).
  assert (Hst1 : allSplitsSoFar st1 = allSplitsSoFar st ++ [validSplit]).
  { subst st1. unfold allSplitsSoFar. rewrite !fold_left_recordedSplits, !fold_left_append.
    destruct (back (_stack st)) as [top|] eqn:Hb.
    - apply back_Some_snoc in Hb. simpl. unfold setBack. rewrite Hb at 2.
      rewrite !map_app, !concat_app. simpl. rewrite !app_nil_r.
      by rewrite <- !app_assoc.
    - apply back_None_nil in Hb. simpl. rewrite Hb. simpl. by rewrite !app_nil_r. }
  by destruct (checkSkewFromDebuggingSolution st1).
Qed.

(** *** Properties: performSplit on an inactive candidate *)

(** C4. When the candidate chosen for splitting has become inactive,
    [performSplit] only clears state: [_needToSplit] becomes false, the
    candidate pointer is cleared (its violation count and the rejection
    counter are reset), and the stack, the context level and the log of
    calls are what they were: no entry is created, no context is pushed, no
    split is applied. *)
Theorem performSplit_inactive (st : State) (c : ConstraintId) :
  _constraintForSplitting st = Some c ->
  isActive (_calls st) c = false ->
  exists st',
    performSplit st = Some st' /\
    _needToSplit st' = false /\
    _constraintForSplitting st' = None /\
    _stack st' = _stack st /\
    _contextLevel st' = _contextLevel st /\
    _calls st' = _calls st /\
    _impliedValidSplitsAtRoot st' = _impliedValidSplitsAtRoot st /\
    _nextStateId st' = _nextStateId st /\
    _constraintToViolationCount st' = <[c := 0]> (_constraintToViolationCount st) /\
    _numRejectedPhasePatternProposal st' = 0.
Proof.
  intros Hc Hinactive. unfold performSplit. simpl. rewrite Hc, Hinactive. simpl.
  eexists. split; [reflexivity|]. simpl. by repeat split.
Qed.

(** *** Properties: stack depth and context level *)

Fixpoint countCalls (p : Call -> bool) (calls : list Call) : nat :=
  match calls with
  | [] => O
  | c :: calls => ((if p c then 1 else 0) + countCalls p calls)%nat
  end.

Definition isPush (c : Call) : bool :=
  match c with context_push => true | _ => false end.

Definition isPop (c : Call) : bool :=
  match c with context_pop => true | _ => false end.

Definition isApplySplit (c : Call) : bool :=
  match c with engine_applySplit _ => true | _ => false end.

Definition pushes (st : State) : nat := countCalls isPush (_calls st).
Definition pops (st : State) : nat := countCalls isPop (_calls st).
Definition applications (st : State) : nat := countCalls isApplySplit (_calls st).

Lemma countCalls_app (p : Call -> bool) (l1 l2 : list Call) :
  countCalls p (l1 ++ l2) = (countCalls p l1 + countCalls p l2)%nat.
Proof. induction l1 as [|c l1 IH]; simpl; [done|]. rewrite IH. lia. Qed.

Lemma countCalls_call (p : Call -> bool) (c : Call) (st : State) :
  countCalls p (_calls (call c st)) = (countCalls p (_calls st) + (if p c then 1 else 0))%nat.
Proof. unfold call. simpl. rewrite countCalls_app. simpl. lia. Qed.

Lemma countCalls_callIf (p : Call -> bool) (b : bool) (c : Call) (st : State) :
  p c = false -> countCalls p (_calls (callIf b c st)) = countCalls p (_calls st).
Proof.
  intros Hp. destruct b; [|done]. unfold callIf. rewrite countCalls_call, Hp. lia.
Qed.

(** What is left untouched by the calls on collaborators. *)
Lemma callIf_fields (b : bool) (c : Call) (st : State) :
  _stack (callIf b c st) = _stack st /\
  _contextLevel (callIf b c st) = _contextLevel st /\
  _debuggingSolution (callIf b c st) = _debuggingSolution st /\
  _impliedValidSplitsAtRoot (callIf b c st) = _impliedValidSplitsAtRoot st.
Proof. by destruct b. Qed.

Lemma length_setBack {A} (x : A) (l : list A) :
  l <> [] -> length (setBack x l) = length l.
Proof.
  intros Hl. unfold setBack. rewrite length_app, length_popBack. simpl.
  destruct l; [done|]. simpl. lia.
Qed.

Lemma popExhaustedEntry_effect (st : State) :
  let st1 := popExhaustedEntry st in
  _stack st1 = popBack (_stack st) /\
  _contextLevel st1 = pred (_contextLevel st) /\
  pushes st1 = pushes st /\
  pops st1 = S (pops st) /\
  applications st1 = applications st.
Proof.
  cbv zeta. unfold popExhaustedEntry, pushes, pops, applications.
  set (b := proofsWithCurrentPointer _). clearbody b.
  destruct b; simpl; rewrite ?countCalls_app; simpl; repeat split; lia.
Qed.

Lemma advanceEntry_effect (stackEntry : SmtStackEntry) (split : PiecewiseLinearCaseSplit)
  (remaining : list PiecewiseLinearCaseSplit) (st : State) :
  let st1 := advanceEntry stackEntry split remaining st in
  _stack st1 = setBack (mkEntry split [] remaining (_engineState stackEntry)) (_stack st) /\
  _contextLevel st1 = S (pred (_contextLevel st)) /\
  pushes st1 = S (pushes st) /\
  pops st1 = S (pops st) /\
  applications st1 = S (applications st).
Proof.
  cbv zeta. unfold advanceEntry, pushes, pops, applications.
  set (b := proofsWithCurrentPointer _). clearbody b.
  destruct b; simpl; rewrite ?countCalls_app; simpl; repeat split; lia.
Qed.

Lemma popSplitLoop_S (fuel : nat) (st : State) :
  popSplitLoop (S fuel) st =
  match back (_stack st) with
  | None => None
  | Some stackEntry =>
      match checkSkewFromDebuggingSolution st with
      | inl e => Some (Thrown e st)
      | inr true => Some (Thrown DEBUGGING_ERROR st)
      | inr false =>
          match _alternativeSplits stackEntry with
          | [] =>
              match _stack (popExhaustedEntry st) with
              | [] => Some (Returned false (popExhaustedEntry st))
              | _ => popSplitLoop fuel (popExhaustedEntry st)
              end
          | split :: remaining =>
              let st1 := advanceEntry stackEntry split remaining st in
              let inconsistent := negb (consistentBounds (_calls st1)) in
              let st2 := callIf (shouldProduceProofs (_calls st1) && inconsistent)
                           engine_explainSimplexFailure st1 in
              if inconsistent then popSplitLoop fuel st2
              else
                match checkSkewFromDebuggingSolution st2 with
                | inl e => Some (Thrown e st2)
                | inr _ => Some (Returned true st2)
                end
          end
      end
  end.
Proof. reflexivity. Qed.

Lemma popSplit_empty (st : State) :
  _stack st = [] -> popSplit st = Some (Returned false st).
Proof. intros H. unfold popSplit. by rewrite H. Qed.

Lemma popSplit_nonempty (st : State) :
  _stack st <> [] -> popSplit st = popSplitLoop (stackWork (_stack st)) st.
Proof. intros H. unfold popSplit. by destruct (_stack st). Qed.

Lemma popSplitLoop_balance (fuel : nat) :
  forall (st : State) (out : Result bool),
    popSplitLoop fuel st = Some out ->
    length (_stack st) = _contextLevel st ->
    let st' := stateOf out in
    length (_stack st') = _contextLevel st' /\
    (pushes st' + applications st = pushes st + applications st')%nat /\
    (pops st' + length (_stack st') + applications st =
     pops st + length (_stack st) + applications st')%nat /\
    (length (_stack st') <= length (_stack st))%nat.
Proof.
  induction fuel as [|fuel IH]; intros st out Hloop Hinv; [done|].
  rewrite popSplitLoop_S in Hloop.
  destruct (back (_stack st)) as [stackEntry|] eqn:Hback; [|done].
  assert (Hne : _stack st <> []).
  { intros Hnil. by rewrite Hnil in Hback. }
  assert (Hlen : (1 <= length (_stack st))%nat).
  { destruct (_stack st); [done|simpl; lia]. }
  destruct (checkSkewFromDebuggingSolution st) as [e|[|]].
  { inversion Hloop; subst. simpl. repeat split; [done|lia..]. }
  { inversion Hloop; subst. simpl. repeat split; [done|lia..]. }
  destruct (_alternativeSplits stackEntry) as [|split remaining].
  - destruct (popExhaustedEntry_effect st) as (Hs & Hl & Hpu & Hpo & Hap).
    assert (Hinv1 : length (_stack (popExhaustedEntry st)) = _contextLevel (popExhaustedEntry st)).
    { rewrite Hs, Hl, length_popBack. by rewrite Hinv. }
    assert (Hlen1 : S (length (_stack (popExhaustedEntry st))) = length (_stack st)).
    { rewrite Hs, length_popBack. lia. }
    assert (Hcase : (_stack (popExhaustedEntry st) = [] /\ out = Returned false (popExhaustedEntry st))
                    \/ popSplitLoop fuel (popExhaustedEntry st) = Some out).
    { destruct (_stack (popExhaustedEntry st)); [left; split; [done|by inversion Hloop]|by right]. }
    destruct Hcase as [[Hst1 ->]|Hrec].
    + simpl. rewrite Hst1 in Hinv1, Hlen1 |- *. simpl in *. repeat split; [done|lia..].
    + destruct (IH _ _ Hrec Hinv1) as (H1 & H2 & H3 & H4). simpl.
      repeat split; [done|lia..].
  - cbv zeta in Hloop.
    set (st1 := advanceEntry stackEntry split remaining st) in *.
    destruct (advanceEntry_effect stackEntry split remaining st) as (Hs & Hl & Hpu & Hpo & Hap).
    fold st1 in Hs, Hl, Hpu, Hpo, Hap.
    set (st2 := callIf _ engine_explainSimplexFailure st1) in *.
    destruct (callIf_fields
      (shouldProduceProofs (_calls st1) && negb (consistentBounds (_calls st1)))
      engine_explainSimplexFailure st1) as (Hs2 & Hl2 & _).
    fold st2 in Hs2, Hl2.
    assert (Hc2 : pushes st2 = pushes st1 /\ pops st2 = pops st1 /\
                  applications st2 = applications st1).
    { unfold pushes, pops, applications, st2. by rewrite !countCalls_callIf. }
    destruct Hc2 as (Hpu2 & Hpo2 & Hap2).
    assert (Hlen2 : length (_stack st2) = length (_stack st)).
    { rewrite Hs2, Hs. by apply length_setBack. }
    assert (Hinv2 : length (_stack st2) = _contextLevel st2).
    { rewrite Hlen2, Hl2, Hl. lia. }
    destruct (negb (consistentBounds (_calls st1))).
    + destruct (IH _ _ Hloop Hinv2) as (H1 & H2 & H3 & H4). simpl.
      repeat split; [done|lia..].
    + destruct (checkSkewFromDebuggingSolution st2); inversion Hloop; subst; simpl;
        repeat split; try done; lia.
Qed.

Lemma recordImpliedValidSplit_depth (validSplit : PiecewiseLinearCaseSplit) (st : State) :
  let st' := stateOf (recordImpliedValidSplit validSplit st) in
  length (_stack st') = length (_stack st) /\ _contextLevel st' = _contextLevel st.
Proof.
  cbv zeta. unfold recordImpliedValidSplit.
  set (st1 := match back (_stack st) with None => _ | Some top => _ end).
  assert (H1 : length (_stack st1) = length (_stack st) /\ _contextLevel st1 = _contextLevel st).
  { subst st1. destruct (back (_stack st)) as [top|] eqn:Hb; simpl; [|done].
    split; [|done]. apply length_setBack. intros Hnil. by rewrite Hnil in Hb. }
  by destruct (checkSkewFromDebuggingSolution st1).
Qed.

(** C7. When the stack has as many entries as the context has levels, it
    still has after [performSplit], after [popSplit] (returning or
    throwing) and after [recordImpliedValidSplit]; [reset] brings both to
    zero.  [performSplit] pushes one level for the entry it creates and
    pops none; [popSplit] pops one level for each entry it removes and one
    for each split it applies, and pushes one for each split it applies. *)
Theorem stack_depth_is_context_level (st : State) :
  length (_stack st) = _contextLevel st ->
  (forall st', performSplit st = Some st' ->
     getStackDepth st' = _contextLevel st' /\
     (pushes st' + length (_stack st) = pushes st + length (_stack st'))%nat /\
     pops st' = pops st /\
     (length (_stack st) <= length (_stack st') <= S (length (_stack st)))%nat) /\
  (forall out, popSplit st = Some out ->
     let st' := stateOf out in
     getStackDepth st' = _contextLevel st' /\
     (pushes st' + applications st = pushes st + applications st')%nat /\
     (pops st' + length (_stack st') + applications st =
      pops st + length (_stack st) + applications st')%nat /\
     (length (_stack st') <= length (_stack st))%nat) /\
  (forall validSplit,
     let st' := stateOf (recordImpliedValidSplit validSplit st) in
     getStackDepth st' = _contextLevel st') /\
  getStackDepth (reset st) = _contextLevel (reset st).
Proof.
  intros Hinv. split; [|split; [|split]].
  - intros st' Hsplit. unfold performSplit in Hsplit. simpl in Hsplit.
    destruct (_constraintForSplitting st) as [c|]; [|done].
    destruct (isActive (_calls st) c); simpl in Hsplit.
    + set (b1 := proofsWithRoot _) in Hsplit. clearbody b1.
      destruct (getCaseSplits (_calls st) c) as [|split remaining].
      { by destruct b1. }
      set (b2 := proofsWithRoot _) in Hsplit. clearbody b2.
      inversion Hsplit; subst; clear Hsplit.
      unfold getStackDepth, pushes, pops.
      destruct b1, b2; simpl; rewrite ?length_app, ?countCalls_app; simpl;
        rewrite ?countCalls_app; simpl; repeat split; lia.
    + inversion Hsplit; subst; clear Hsplit.
      unfold getStackDepth, pushes, pops. simpl. repeat split; lia.
  - intros out Hpop. destruct (_stack st) as [|e0 s0] eqn:Hstack.
    + rewrite (popSplit_empty st Hstack) in Hpop. inversion Hpop; subst. simpl.
      unfold getStackDepth. rewrite Hstack. simpl. repeat split; [done|lia..].
    + rewrite popSplit_nonempty in Hpop by (by rewrite Hstack).
      assert (Hinv' : length (_stack st) = _contextLevel st) by (by rewrite Hstack).
      destruct (popSplitLoop_balance _ _ _ Hpop Hinv') as (H1 & H2 & H3 & H4).
      rewrite Hstack in H3, H4. unfold getStackDepth. simpl in *. repeat split; [done|lia..].
  - intros validSplit. cbv zeta. unfold getStackDepth.
    destruct (recordImpliedValidSplit_depth validSplit st) as [-> ->]. exact Hinv.
  - reflexivity.
Qed.

(** [replaySmtStackEntry] is the operation the invariant does not survive:
    it adds an entry and pushes no level. *)
Lemma replaySmtStackEntry_no_push (stackEntry : SmtStackEntry) (st : State) :
  let st' := replaySmtStackEntry stackEntry st in
  length (_stack st') = S (length (_stack st)) /\
  _contextLevel st' = _contextLevel st.
Proof.
  unfold replaySmtStackEntry. simpl.
  set (st1 := call _ (call _ _)).
  assert (Hfold : forall l s,
    _stack (fold_left (fun st impliedSplit => call (engine_applySplit impliedSplit) st) l s)
      = _stack s /\
    _contextLevel (fold_left (fun st impliedSplit => call (engine_applySplit impliedSplit) st) l s)
      = _contextLevel s).
  { induction l as [|x l IHl]; intros s0; simpl; [done|].
    by destruct (IHl (call (engine_applySplit x) s0)) as [-> ->]. }
  destruct (Hfold (_impliedValidSplits stackEntry) st1) as [-> ->].
  rewrite length_app. simpl. split; lia.
Qed.

(** *** Properties: popSplit *)

(** The fields of the core that a pop leaves alone. *)
Definition sameSplitConditions (st st1 : State) : Prop :=
  _impliedValidSplitsAtRoot st1 = _impliedValidSplitsAtRoot st /\
  _needToSplit st1 = _needToSplit st /\
  _constraintForSplitting st1 = _constraintForSplitting st /\
  _nextStateId st1 = _nextStateId st /\
  _constraintToViolationCount st1 = _constraintToViolationCount st /\
  _numRejectedPhasePatternProposal st1 = _numRejectedPhasePatternProposal st /\
  _debuggingSolution st1 = _debuggingSolution st.

Definition isCertificateCall (c : Call) : bool :=
  match c with
  | certificate_addChildren _ | certificate_setToChild _
  | certificate_setToNearestChild _ | certificate_setToParent => true
  | _ => false
  end.

(** What the description of [popSplit] says of a frame whose remaining
    alternatives are exhausted: it is removed, with one context pop (and, in
    proof mode, a move of the certificate pointer). *)
Definition removesExhaustedFrame (st st1 : State) : Prop :=
  exists frame certificate,
    back (_stack st) = Some frame /\
    _alternativeSplits frame = [] /\
    _stack st1 = popBack (_stack st) /\
    _contextLevel st1 = pred (_contextLevel st) /\
    _calls st1 = _calls st ++ context_pop :: certificate /\
    forallb isCertificateCall certificate = true /\
    sameSplitConditions st st1.

(** What it says of a frame that still has an alternative: the context is
    popped, the engine is told to restore the frame's snapshot, the implied
    valid splits of the frame are cleared, the head of its alternatives is
    removed, becomes the active split and is applied under a fresh context
    push.  [consistent] is the engine's answer right after the application;
    in proof mode an explanation is requested when it is negative. *)
Definition advancesFrame (st st1 : State) (consistent : bool) : Prop :=
  exists frame split remaining certificate explanation,
    back (_stack st) = Some frame /\
    _alternativeSplits frame = split :: remaining /\
    _stack st1 = popBack (_stack st) ++ [mkEntry split [] remaining (_engineState frame)] /\
    _contextLevel st1 = S (pred (_contextLevel st)) /\
    _calls st1 =
      (_calls st ++
       [context_pop; engine_postContextPopHook; engine_restoreState (_engineState frame)] ++
       certificate ++
       [engine_preContextPushHook; context_push; engine_applySplit split]) ++ explanation /\
    consistent =
      consistentBounds
        (_calls st ++
         [context_pop; engine_postContextPopHook; engine_restoreState (_engineState frame)] ++
         certificate ++
         [engine_preContextPushHook; context_push; engine_applySplit split]) /\
    forallb isCertificateCall certificate = true /\
    (explanation = [] \/
     (consistent = false /\ explanation = [engine_explainSimplexFailure])) /\
    sameSplitConditions st st1.

(** A whole call, in the words of the description: exhausted frames go,
    the first frame with an alternative advances, and this repeats while the
    engine reports inconsistent bounds; the result is [false] when no frame
    is left. *)
Inductive popSplitSpec : State -> bool -> State -> Prop :=
| popSplit_no_frame st :
    _stack st = [] -> popSplitSpec st false st
| popSplit_exhausted st st1 b st' :
    removesExhaustedFrame st st1 -> popSplitSpec st1 b st' -> popSplitSpec st b st'
| popSplit_consistent st st1 :
    advancesFrame st st1 true -> popSplitSpec st true st1
| popSplit_inconsistent st st1 b st' :
    advancesFrame st st1 false -> popSplitSpec st1 b st' -> popSplitSpec st b st'.

Lemma sameSplitConditions_refl (st : State) : sameSplitConditions st st.
Proof. by repeat split. Qed.

Lemma popExhaustedEntry_removes (st : State) (stackEntry : SmtStackEntry) :
  back (_stack st) = Some stackEntry ->
  _alternativeSplits stackEntry = [] ->
  removesExhaustedFrame st (popExhaustedEntry st).
Proof.
  intros Hback Halts. unfold removesExhaustedFrame, popExhaustedEntry.
  set (b := proofsWithCurrentPointer _). clearbody b.
  exists stackEntry, (if b then [certificate_setToParent] else []).
  destruct b; simpl; rewrite <- ?app_assoc; simpl; by repeat split.
Qed.

Lemma advanceEntry_advances (st : State) (stackEntry : SmtStackEntry)
  (split : PiecewiseLinearCaseSplit) (remaining : list PiecewiseLinearCaseSplit) :
  back (_stack st) = Some stackEntry ->
  _alternativeSplits stackEntry = split :: remaining ->
  let st1 := advanceEntry stackEntry split remaining st in
  let inconsistent := negb (consistentBounds (_calls st1)) in
  let st2 := callIf (shouldProduceProofs (_calls st1) && inconsistent)
               engine_explainSimplexFailure st1 in
  advancesFrame st st2 (consistentBounds (_calls st1)).
Proof.
  intros Hback Halts. cbv zeta. unfold advancesFrame, advanceEntry.
  set (b := proofsWithCurrentPointer _). clearbody b.
  exists stackEntry, split, remaining, (if b then [certificate_setToNearestChild split] else []).
  set (st1 := with_stack _ _).
  assert (Hcalls : _calls st1 =
    _calls st ++
    [context_pop; engine_postContextPopHook; engine_restoreState (_engineState stackEntry)] ++
    (if b then [certificate_setToNearestChild split] else []) ++
    [engine_preContextPushHook; context_push; engine_applySplit split]).
  { subst st1. destruct b; simpl; by rewrite <- !app_assoc. }
  assert (Hrest : _stack st1 = setBack (mkEntry split [] remaining (_engineState stackEntry)) (_stack st)
                  /\ _contextLevel st1 = S (pred (_contextLevel st))
                  /\ sameSplitConditions st st1).
  { subst st1. by destruct b. }
  destruct Hrest as (Hstack & Hlevel & Hsame).
  rewrite <- Hcalls.
  exists (if shouldProduceProofs (_calls st1) && negb (consistentBounds (_calls st1))
          then [engine_explainSimplexFailure] else []).
  split; [done|]. split; [done|].
  destruct (shouldProduceProofs (_calls st1)), (consistentBounds (_calls st1)); simpl;
    rewrite ?app_nil_r; repeat split; try done; try tauto; try apply Hsame.
  all: by destruct b.
Qed.

Lemma popSplitSpec_false_iff (st st' : State) (b : bool) :
  popSplitSpec st b st' -> (b = false <-> _stack st' = []).
Proof.
  induction 1 as [st Hnil|st st1 b st' _ _ IH|st st1 Hadv|st st1 b st' _ _ IH]; try done.
  destruct Hadv as (frame & split & remaining & certificate & explanation & _ & _ & Hstack & _).
  rewrite Hstack. split; [done|]. intros Hnil. by apply app_eq_nil in Hnil as [_ ?].
Qed.

Lemma stackWork_snoc (stack : list SmtStackEntry) (entry : SmtStackEntry) :
  stackWork (stack ++ [entry]) = (stackWork stack + S (length (_alternativeSplits entry)))%nat.
Proof.
  induction stack as [|e stack IH]; [unfold stackWork; simpl; lia|].
  change (stackWork ((e :: stack) ++ [entry]))
    with (S (length (_alternativeSplits e)) + stackWork (stack ++ [entry]))%nat.
  rewrite IH. unfold stackWork. simpl. lia.
Qed.

Lemma checkSkew_needs_solution (st : State) :
  checkSkewFromDebuggingSolution st <> inr false -> _debuggingSolution st <> ∅.
Proof.
  unfold checkSkewFromDebuggingSolution. by destruct (decide (_debuggingSolution st = ∅)).
Qed.

(** What a call of [popSplit] may come to: it returns as described, or it
    throws the debugging error, which takes a stored debugging solution. *)
Definition popSplitOutcome (st : State) (out : Result bool) : Prop :=
  match out with
  | Returned b st' => popSplitSpec st b st' /\ (b = false <-> _stack st' = [])
  | Thrown e st' => e = DEBUGGING_ERROR /\ _debuggingSolution st <> ∅
  end.

Lemma popSplitOutcome_step (st st1 : State) (out : Result bool) :
  (forall b st', popSplitSpec st1 b st' -> popSplitSpec st b st') ->
  _debuggingSolution st1 = _debuggingSolution st ->
  popSplitOutcome st1 out -> popSplitOutcome st out.
Proof.
  intros Hspec Hdebug. destruct out as [b st'|e st']; simpl.
  - intros [H1 H2]. split; [by apply Hspec|done].
  - by rewrite Hdebug.
Qed.

Lemma popSplitLoop_outcome (fuel : nat) :
  forall st : State,
    _stack st <> [] ->
    (stackWork (_stack st) <= fuel)%nat ->
    exists out, popSplitLoop fuel st = Some out /\ popSplitOutcome st out.
Proof.
  induction fuel as [|fuel IH]; intros st Hne Hfuel.
  { destruct (back (_stack st)) as [entry|] eqn:Hback.
    - apply back_Some_snoc in Hback. rewrite Hback, stackWork_snoc in Hfuel. lia.
    - by apply back_None_nil in Hback. }
  rewrite popSplitLoop_S.
  destruct (back (_stack st)) as [stackEntry|] eqn:Hback;
    [|by apply back_None_nil in Hback].
  pose proof (back_Some_snoc _ _ Hback) as Hsnoc.
  rewrite Hsnoc, stackWork_snoc in Hfuel.
  destruct (checkSkewFromDebuggingSolution st) as [e|[|]] eqn:Hskew.
  { eexists. split; [done|]. simpl. split; [by destruct e|].
    apply checkSkew_needs_solution. by rewrite Hskew. }
  { eexists. split; [done|]. simpl. split; [done|].
    apply checkSkew_needs_solution. by rewrite Hskew. }
  destruct (_alternativeSplits stackEntry) as [|split remaining] eqn:Halts.
  - pose proof (popExhaustedEntry_removes st stackEntry Hback Halts) as Hrem.
    destruct (popExhaustedEntry_effect st) as (Hs & _).
    destruct (nil_or_not (_stack (popExhaustedEntry st))) as [Hst1|Hst1].
    + rewrite Hst1. eexists. split; [done|]. simpl. split; [|by rewrite Hst1].
      eapply popSplit_exhausted; [exact Hrem|]. by apply popSplit_no_frame.
    + destruct (IH (popExhaustedEntry st)) as (out & Hout & Hspec).
      { done. }
      { rewrite Hs. simpl in Hfuel. lia. }
      exists out. split.
      { by destruct (_stack (popExhaustedEntry st)). }
      eapply popSplitOutcome_step; [| |exact Hspec].
      * intros b st' Hb. by eapply popSplit_exhausted.
      * destruct Hrem as (? & ? & _ & _ & _ & _ & _ & _ & Hsame). apply Hsame.
  - pose proof (advanceEntry_advances st stackEntry split remaining Hback Halts) as Hadv.
    cbv zeta in Hadv |- *.
    set (st1 := advanceEntry stackEntry split remaining st) in *.
    set (st2 := callIf _ engine_explainSimplexFailure st1) in *.
    assert (Hst2 : _stack st2 =
      popBack (_stack st) ++ [mkEntry split [] remaining (_engineState stackEntry)]).
    { destruct Hadv as (f & s1 & r1 & ce & ex & Hb' & Ha' & Hs' & _).
      rewrite Hback in Hb'. inversion Hb'; subst f. rewrite Halts in Ha'.
      by inversion Ha'; subst. }
    assert (Hdebug : _debuggingSolution st2 = _debuggingSolution st).
    { destruct Hadv as (? & ? & ? & ? & ? & _ & _ & _ & _ & _ & _ & _ & _ & Hsame).
      apply Hsame. }
    destruct (consistentBounds (_calls st1)) eqn:Hcons; simpl.
    + destruct (checkSkewFromDebuggingSolution st2) as [e|b] eqn:Hskew2.
      * eexists. split; [done|]. simpl. split; [by destruct e|].
        rewrite <- Hdebug. apply checkSkew_needs_solution. by rewrite Hskew2.
      * eexists. split; [done|]. simpl. split; [by apply popSplit_consistent|].
        split; [done|]. rewrite Hst2. intros Hnil. by apply app_eq_nil in Hnil as [_ ?].
    + destruct (IH st2) as (out & Hout & Hspec).
      { rewrite Hst2. intros Hnil. by apply app_eq_nil in Hnil as [_ ?]. }
      { rewrite Hst2, stackWork_snoc. simpl in *. lia. }
      exists out. split; [done|]. eapply popSplitOutcome_step; [| |exact Hspec].
      * intros b st' Hb. by eapply popSplit_inconsistent.
      * done.
Qed.

(** C1 (as amended).  Every call of [popSplit] comes to an end.  Unless it
    throws the debugging error, which it does only when a debugging solution
    is stored, it removes the frames whose alternatives are exhausted (one
    context pop each), advances the first frame that has an alternative
    (context pop, restore of the snapshot, implied valid splits cleared,
    head of the alternatives applied under a fresh context push), repeats
    while the engine reports inconsistent bounds, and returns [false]
    exactly when no frame is left. *)
Theorem popSplit_spec (st : State) :
  exists out, popSplit st = Some out /\ popSplitOutcome st out.
Proof.
  destruct (_stack st) as [|e0 s0] eqn:Hstack.
  - exists (Returned false st). split; [by apply popSplit_empty|].
    simpl. split; [by apply popSplit_no_frame|done].
  - rewrite popSplit_nonempty by (by rewrite Hstack).
    apply popSplitLoop_outcome; [by rewrite Hstack|done].
Qed.

End WithCollaborators.

(** ** More of SmtCore: reporting violations *)

Section Reporting.
Context {engine : IEngine}.

(** [_constraintViolationThreshold], an [unsigned] read from the options
    when the core is built, and the constraint the engine picks for the
    configured branching heuristic, if it picks one
    ([_engine->pickSplitPLConstraint( _branchingHeuristic )]). *)
Variable _constraintViolationThreshold : N.
Variable enginePickSplitPLConstraint : list Call -> option ConstraintId.

(** [pickSplitPLConstraint]: the engine is asked only when a split is
    needed; the result tells whether a candidate is set. *)
Definition pickSplitPLConstraint (st : State) : bool * State :=
  let st :=
    if _needToSplit st
    then with_constraintForSplitting (enginePickSplitPLConstraint (_calls st)) st
    else st in
  (match _constraintForSplitting st with Some _ => true | None => false end, st).

Definition reportViolatedConstraint (constraint : ConstraintId) (st : State) : State :=
  let counts := _constraintToViolationCount st in
  let counts :=
    match counts !! constraint with
    | None => <[constraint := 0]> counts
    | Some _ => counts
    end in
  let counts := <[constraint := uinc (default 0 (counts !! constraint))]> counts in
  let st := with_constraintToViolationCount counts st in
  if _constraintViolationThreshold <=? default 0 (counts !! constraint) then
    let st := with_needToSplit true st in
    let '(picked, st) := pickSplitPLConstraint st in
    if negb picked
    then
      (* If pickSplitConstraint failed to pick one, use the native
         relu-violation based splitting heuristic. *)
      with_constraintForSplitting (Some constraint) st
    else st
  else st.

Definition needToSplit (st : State) : bool := _needToSplit st.

Definition resetSplitConditions (st : State) : State :=
  let st := with_constraintToViolationCount ∅ st in
  let st := with_numRejectedPhasePatternProposal 0 st in
  with_needToSplit false st.

(** The count a report leaves for the reported constraint. *)
Lemma reportViolatedConstraint_counts (constraint : ConstraintId) (st : State) :
  _constraintToViolationCount (reportViolatedConstraint constraint st) =
  <[constraint := uinc (getViolationCounts st constraint)]> (_constraintToViolationCount st).
Proof.
  unfold reportViolatedConstraint, getViolationCounts, pickSplitPLConstraint.
  destruct (_constraintToViolationCount st !! constraint) as [n|] eqn:Hn; simpl.
  - rewrite Hn. simpl. rewrite lookup_insert_eq. simpl.
    destruct (_ <=? _); simpl; [|done].
    by destruct (enginePickSplitPLConstraint (_calls st)).
  - rewrite !lookup_insert_eq. simpl. rewrite insert_insert_eq.
    destruct (_ <=? _); simpl; [|done].
    by destruct (enginePickSplitPLConstraint (_calls st)).
Qed.

Lemma reportViolatedConstraint_needToSplit (constraint : ConstraintId) (st : State) :
  _needToSplit (reportViolatedConstraint constraint st) =
  _needToSplit st ||
  (_constraintViolationThreshold <=? uinc (getViolationCounts st constraint)).
Proof.
  unfold reportViolatedConstraint, getViolationCounts, pickSplitPLConstraint.
  destruct (_constraintToViolationCount st !! constraint) as [n|] eqn:Hn; simpl.
  - rewrite Hn. simpl. rewrite lookup_insert_eq. simpl.
    destruct (_ <=? _); simpl; [|by rewrite orb_false_r].
    rewrite orb_true_r. by destruct (enginePickSplitPLConstraint (_calls st)).
  - rewrite !lookup_insert_eq. simpl.
    destruct (_ <=? _); simpl; [|by rewrite orb_false_r].
    rewrite orb_true_r. by destruct (enginePickSplitPLConstraint (_calls st)).
Qed.

(** What a report leaves alone. *)
Lemma reportViolatedConstraint_frame (constraint : ConstraintId) (st : State) :
  let st' := reportViolatedConstraint constraint st in
  _stack st' = _stack st /\
  _impliedValidSplitsAtRoot st' = _impliedValidSplitsAtRoot st /\
  _contextLevel st' = _contextLevel st /\
  _calls st' = _calls st /\
  _nextStateId st' = _nextStateId st /\
  _debuggingSolution st' = _debuggingSolution st.
Proof.
  cbv zeta. unfold reportViolatedConstraint, pickSplitPLConstraint.
  destruct (_ <=? _); simpl; [|done].
  by destruct (enginePickSplitPLConstraint (_calls st)).
Qed.

(** X1.  A report of a violated constraint raises the violation count of
    that constraint by one (an [unsigned] increment, from zero when the
    constraint was not counted yet) and no other count; it changes neither
    the stack, nor the context, nor what the engine has been told. *)
Theorem reportViolatedConstraint_increments (constraint other : ConstraintId) (st : State) :
  let st' := reportViolatedConstraint constraint st in
  getViolationCounts st' constraint = uinc (getViolationCounts st constraint) /\
  (other <> constraint -> getViolationCounts st' other = getViolationCounts st other) /\
  _stack st' = _stack st /\
  _impliedValidSplitsAtRoot st' = _impliedValidSplitsAtRoot st /\
  _contextLevel st' = _contextLevel st /\
  _calls st' = _calls st.
Proof.
  cbv zeta.
  destruct (reportViolatedConstraint_frame constraint st) as (Hs & Hr & Hl & Hc & _).
  split; [|split; [|by repeat split]].
  - unfold getViolationCounts at 1. rewrite reportViolatedConstraint_counts.
    by rewrite lookup_insert_eq.
  - intros Hne. unfold getViolationCounts at 1. rewrite reportViolatedConstraint_counts.
    by rewrite lookup_insert_ne.
Qed.

(** X2.  A report whose count reaches the threshold asks for a split and
    leaves a candidate to split on: the constraint the engine picks, and
    the reported constraint when the engine picks none.  A report that
    stays below the threshold leaves the request and the candidate as they
    were. *)
Theorem reportViolatedConstraint_threshold (constraint : ConstraintId) (st : State) :
  let st' := reportViolatedConstraint constraint st in
  let count := uinc (getViolationCounts st constraint) in
  (_constraintViolationThreshold <= count ->
     _needToSplit st' = true /\
     _constraintForSplitting st' =
       Some (default constraint (enginePickSplitPLConstraint (_calls st)))) /\
  (count < _constraintViolationThreshold ->
     _needToSplit st' = _needToSplit st /\
     _constraintForSplitting st' = _constraintForSplitting st).
Proof.
  cbv zeta.
  assert (Hcount : default 0
            (_constraintToViolationCount
               (with_constraintToViolationCount
                  (<[constraint := uinc (getViolationCounts st constraint)]>
                     (_constraintToViolationCount st)) st) !! constraint)
          = uinc (getViolationCounts st constraint)).
  { simpl. by rewrite lookup_insert_eq. }
  assert (Hunfold : reportViolatedConstraint constraint st =
    let st1 := with_constraintToViolationCount
                 (<[constraint := uinc (getViolationCounts st constraint)]>
                    (_constraintToViolationCount st)) st in
    if _constraintViolationThreshold <=? uinc (getViolationCounts st constraint) then
      let '(picked, st2) := pickSplitPLConstraint (with_needToSplit true st1) in
      if negb picked then with_constraintForSplitting (Some constraint) st2 else st2
    else st1).
  { unfold reportViolatedConstraint, getViolationCounts.
    destruct (_constraintToViolationCount st !! constraint) as [n|] eqn:Hn; simpl.
    - rewrite Hn. simpl. by rewrite lookup_insert_eq.
    - rewrite !lookup_insert_eq. simpl. by rewrite insert_insert_eq. }
  rewrite Hunfold. cbv zeta. split.
  - intros Hreach. apply N.leb_le in Hreach. rewrite Hreach.
    unfold pickSplitPLConstraint. simpl.
    by destruct (enginePickSplitPLConstraint (_calls st)).
  - intros Hbelow. apply N.leb_gt in Hbelow. by rewrite Hbelow.
Qed.

(** [k] reports of the same constraint in a row. *)
Definition reportRepeatedly (k : nat) (constraint : ConstraintId) (st : State) : State :=
  Nat.iter k (reportViolatedConstraint constraint) st.

(** X3.  Starting without a request to split, [k] reports of one
    constraint in a row (with a count that stays an [unsigned]) bring its
    count to the old count plus [k], and a split is asked for exactly when
    there was a report and that count has reached the threshold: below the
    threshold no number of reports asks for a split. *)
Theorem reportViolatedConstraint_repeated (k : nat) (constraint : ConstraintId) (st : State) :
  _needToSplit st = false ->
  getViolationCounts st constraint + N.of_nat k < UINT_RANGE ->
  let st' := reportRepeatedly k constraint st in
  getViolationCounts st' constraint = getViolationCounts st constraint + N.of_nat k /\
  _needToSplit st' =
    negb (Nat.eqb k 0) &&
    (_constraintViolationThreshold <=? getViolationCounts st constraint + N.of_nat k).
Proof.
  intros Hno. cbv zeta. induction k as [|k IH]; intros Hrange.
  { simpl. split; [by rewrite N.add_0_r|done]. }
  destruct (IH ltac:(lia)) as [Hcount Hneed].
  unfold reportRepeatedly in *. simpl.
  set (stk := Nat.iter k (reportViolatedConstraint constraint) st) in *.
  assert (Hinc : uinc (getViolationCounts stk constraint)
                 = getViolationCounts st constraint + N.of_nat (S k)).
  { rewrite Hcount. unfold uinc. rewrite N.mod_small by lia. lia. }
  split.
  - unfold getViolationCounts at 1. rewrite reportViolatedConstraint_counts.
    by rewrite lookup_insert_eq.
  - rewrite reportViolatedConstraint_needToSplit, Hinc, Hneed. simpl.
    destruct (N.leb_spec _constraintViolationThreshold
                (getViolationCounts st constraint + N.of_nat (S k))) as [Hle|Hgt].
    + by rewrite orb_true_r.
    + rewrite orb_false_r. destruct (Nat.eqb k 0); [done|]. simpl.
      apply N.leb_gt. lia.
Qed.

(** X4.  After a report that reaches the threshold, [performSplit] finds a
    candidate: it never dereferences a null pointer, and it goes through
    unless the candidate is active and has no case split at all. *)
Theorem performSplit_after_report (constraint : ConstraintId) (st : State) :
  _constraintViolationThreshold <= uinc (getViolationCounts st constraint) ->
  let st' := reportViolatedConstraint constraint st in
  exists candidate,
    _constraintForSplitting st' = Some candidate /\
    (performSplit st' = None ->
       isActive (_calls st') candidate = true /\ getCaseSplits (_calls st') candidate = []).
Proof.
  intros Hreach. cbv zeta.
  destruct (reportViolatedConstraint_frame constraint st) as (_ & _ & _ & Hcalls & _).
  assert (Hcand : exists candidate,
            _constraintForSplitting (reportViolatedConstraint constraint st) = Some candidate).
  { unfold reportViolatedConstraint, pickSplitPLConstraint.
    assert (Hc : default 0
              ((<[constraint := uinc (default 0
                   (match _constraintToViolationCount st !! constraint with
                    | Some _ => _constraintToViolationCount st
                    | None => <[constraint := 0]> (_constraintToViolationCount st)
                    end !! constraint))]>
                 (match _constraintToViolationCount st !! constraint with
                  | Some _ => _constraintToViolationCount st
                  | None => <[constraint := 0]> (_constraintToViolationCount st)
                  end)) !! constraint)
            = uinc (getViolationCounts st constraint)).
    { rewrite lookup_insert_eq. simpl. unfold getViolationCounts.
      destruct (_constraintToViolationCount st !! constraint) as [n|] eqn:Hn.
      - by rewrite Hn.
      - by rewrite lookup_insert_eq. }
    simpl. rewrite Hc. apply N.leb_le in Hreach. rewrite Hreach. simpl.
    destruct (enginePickSplitPLConstraint (_calls st)) as [c|]; simpl; by eexists. }
  destruct Hcand as [candidate Hcand]. exists candidate. split; [done|].
  unfold performSplit. simpl. rewrite Hcand.
  destruct (isActive _ candidate) eqn:Hactive; simpl; [|done].
  destruct (getCaseSplits _ candidate) eqn:Hsplits; [done|].
  by destruct (proofsWithRoot _).
Qed.

End Reporting.

(** ** More of SmtCore: what a pop does to the stack *)

Section Backtracking.
Context {FU : FloatUtils} {engine : IEngine}.

Lemma popSplit_outcome (st : State) :
  exists out, popSplit st = Some out /\ popSplitOutcome st out.
Proof.
  destruct (nil_or_not (_stack st)) as [Hnil|Hne].
  - exists (Returned false st). split; [by apply popSplit_empty|].
    simpl. split; [by apply popSplit_no_frame|done].
  - rewrite popSplit_nonempty by done. by apply popSplitLoop_outcome.
Qed.

Lemma popSplit_returns_spec (st : State) (b : bool) (st' : State) :
  popSplit st = Some (Returned b st') -> popSplitSpec st b st'.
Proof.
  intros Hpop. destruct (popSplit_outcome st) as (out & Hout & Hspec).
  rewrite Hpop in Hout. inversion Hout; subst. apply Hspec.
Qed.

Lemma removesExhaustedFrame_stack (st st1 : State) :
  removesExhaustedFrame st st1 ->
  exists frame, _alternativeSplits frame = [] /\ _stack st = _stack st1 ++ [frame].
Proof.
  intros (frame & certificate & Hback & Halts & Hstack & _).
  exists frame. split; [done|]. rewrite Hstack. by apply back_Some_snoc.
Qed.

Lemma advancesFrame_stack (st st1 : State) (consistent : bool) :
  advancesFrame st st1 consistent ->
  exists below frame split remaining,
    _stack st = below ++ [frame] /\
    _alternativeSplits frame = split :: remaining /\
    _stack st1 = below ++ [mkEntry split [] remaining (_engineState frame)].
Proof.
  intros (frame & split & remaining & certificate & explanation & Hback & Halts & Hstack & _).
  exists (popBack (_stack st)), frame, split, remaining.
  split; [by apply back_Some_snoc|by split].
Qed.

Lemma popSplitSpec_work (st : State) (b : bool) (st' : State) :
  popSplitSpec st b st' ->
  (stackWork (_stack st') <= stackWork (_stack st))%nat /\
  (_stack st <> [] -> (stackWork (_stack st') < stackWork (_stack st))%nat).
Proof.
  induction 1 as [st Hnil|st st1 b st' Hrem _ IH|st st1 Hadv|st st1 b st' Hadv _ IH].
  - split; [done|]. by intros Hne.
  - destruct (removesExhaustedFrame_stack st st1 Hrem) as (frame & Halts & ->).
    rewrite stackWork_snoc. destruct IH as [IH _]. split; [lia|]. intros _. lia.
  - destruct (advancesFrame_stack st st1 true Hadv)
      as (below & frame & split & remaining & -> & Halts & ->).
    rewrite !stackWork_snoc, Halts. simpl. split; [lia|]. intros _. lia.
  - destruct (advancesFrame_stack st st1 false Hadv)
      as (below & frame & split & remaining & -> & Halts & Hst1).
    rewrite Hst1 in IH. rewrite !stackWork_snoc in *. rewrite Halts. simpl in *.
    destruct IH as [IH _]. split; [lia|]. intros _. lia.
Qed.

(** X5.  A pop that returns has used something up: the frames left on the
    stack, counted with their remaining alternatives, are strictly fewer
    than before whenever there was a frame.  So the pops of a search are
    bounded by the frames and alternatives that splits put on the stack. *)
Theorem popSplit_progress (st : State) (b : bool) (st' : State) :
  _stack st <> [] ->
  popSplit st = Some (Returned b st') ->
  (stackWork (_stack st') < stackWork (_stack st))%nat.
Proof.
  intros Hne Hpop.
  apply popSplit_returns_spec in Hpop.
  destruct (popSplitSpec_work st b st' Hpop) as [_ Hlt].
  by apply Hlt.
Qed.

Lemma snoc_eq_middle {A} (l below above : list A) (x f : A) :
  l ++ [x] = below ++ f :: above ->
  (above = [] /\ l = below /\ x = f) \/
  (exists above', above = above' ++ [x] /\ l = below ++ f :: above').
Proof.
  intros Heq. destruct above as [|a above] using rev_ind.
  - left. apply app_inj_tail in Heq as [-> ->]. done.
  - right. exists above. clear IHabove.
    replace (below ++ f :: above ++ [a]) with ((below ++ f :: above) ++ [a]) in Heq
      by (by rewrite <- app_assoc).
    apply app_inj_tail in Heq as [-> ->]. done.
Qed.

(** Where a pop that returns [true] leaves the stack: the frames [below]
    stay, the frame above them has moved from its earlier alternatives
    [tried] to [split], and everything above it is gone. *)
Definition backtrackedTo (st st' : State) (below : list SmtStackEntry) (frame : SmtStackEntry)
  (above : list SmtStackEntry) (tried : list PiecewiseLinearCaseSplit)
  (split : PiecewiseLinearCaseSplit) (remaining : list PiecewiseLinearCaseSplit) : Prop :=
  _stack st = below ++ frame :: above /\
  _alternativeSplits frame = tried ++ split :: remaining /\
  _stack st' = below ++ [mkEntry split [] remaining (_engineState frame)] /\
  (exists before certificate,
     _calls st' =
       before ++
       [context_pop; engine_postContextPopHook; engine_restoreState (_engineState frame)] ++
       certificate ++
       [engine_preContextPushHook; context_push; engine_applySplit split] /\
     forallb isCertificateCall certificate = true) /\
  consistentBounds (_calls st') = true.

Lemma popSplitSpec_backtrackedTo (st : State) (b : bool) (st' : State) :
  popSplitSpec st b st' ->
  b = true ->
  exists below frame above tried split remaining,
    backtrackedTo st st' below frame above tried split remaining.
Proof.
  induction 1 as [st Hnil|st st1 b st' Hrem _ IH|st st1 Hadv|st st1 b st' Hadv _ IH];
    intros Htrue; [done| | |].
  - destruct (removesExhaustedFrame_stack st st1 Hrem) as (top & _ & Hstack).
    destruct (IH Htrue) as (below & frame & above & tried & split & remaining &
                            Hs & Ha & Hs' & Hlast & Hcons).
    exists below, frame, (above ++ [top]), tried, split, remaining.
    split; [|done]. rewrite Hstack, Hs. by rewrite <- app_assoc.
  - destruct Hadv as (frame & split & remaining & certificate & explanation &
                      Hback & Halts & Hstack & _ & Hcalls & Hcons & Hcert & Hexpl & _).
    assert (explanation = []) as -> by (by destruct Hexpl as [?|[? _]]).
    rewrite app_nil_r in Hcalls.
    exists (popBack (_stack st)), frame, [], [], split, remaining.
    split; [by apply back_Some_snoc|]. split; [done|]. split; [done|].
    rewrite Hcalls. split; [|by rewrite <- Hcons].
    by exists (_calls st), certificate.
  - destruct (advancesFrame_stack st st1 false Hadv)
      as (below0 & frame0 & s & rem & Hst & Halts0 & Hst1).
    destruct (IH Htrue) as (below & frame & above & tried & split & remaining &
                            Hs & Ha & Hs' & Hlast & Hcons).
    rewrite Hst1 in Hs.
    destruct (snoc_eq_middle _ _ _ _ _ Hs) as [(-> & -> & <-)|(above' & -> & ->)].
    + simpl in Ha, Hs'. subst rem.
      exists below, frame0, [], (s :: tried), split, remaining.
      by repeat split.
    + exists below, frame, (above' ++ [frame0]), tried, split, remaining.
      split; [|done]. rewrite Hst. by rewrite <- app_assoc.
Qed.

(** X6.  When a pop returns [true], the stack is the old one cut above one
    of its frames: the frames below that frame are untouched, the frame
    keeps its snapshot, has lost its implied valid splits, and has moved on,
    in the order of its alternatives, to a later one.  The last things done
    were to pop the context, restore that frame's snapshot, push the context
    and apply the new active split, and the engine reports consistent bounds
    under it. *)
Theorem popSplit_backtracks (st st' : State) :
  popSplit st = Some (Returned true st') ->
  exists below frame above tried split remaining,
    _stack st = below ++ frame :: above /\
    _alternativeSplits frame = tried ++ split :: remaining /\
    _stack st' = below ++ [mkEntry split [] remaining (_engineState frame)] /\
    (exists before certificate,
       _calls st' =
         before ++
         [context_pop; engine_postContextPopHook; engine_restoreState (_engineState frame)] ++
         certificate ++
         [engine_preContextPushHook; context_push; engine_applySplit split] /\
       forallb isCertificateCall certificate = true) /\
    consistentBounds (_calls st') = true.
Proof.
  intros Hpop. apply popSplit_returns_spec in Hpop.
  destruct (popSplitSpec_backtrackedTo st true st' Hpop eq_refl)
    as (below & frame & above & tried & split & remaining & Hback).
  exists below, frame, above, tried, split, remaining. exact Hback.
Qed.

Lemma countCalls_certificate (p : Call -> bool) (certificate : list Call) :
  (forall c, isCertificateCall c = true -> p c = false) ->
  forallb isCertificateCall certificate = true ->
  countCalls p certificate = O.
Proof.
  intros Hp. induction certificate as [|c l IH]; simpl; [done|].
  intros [Hc Hl]%andb_true_iff. rewrite (Hp c Hc). by rewrite IH.
Qed.

Definition isRestore (c : Call) : bool :=
  match c with engine_restoreState _ => true | _ => false end.

Definition restores (st : State) : nat := countCalls isRestore (_calls st).

Lemma popSplitSpec_exhausted (st : State) (b : bool) (st' : State) :
  popSplitSpec st b st' ->
  (forall frame, frame ∈ _stack st -> _alternativeSplits frame = []) ->
  b = false /\
  _stack st' = [] /\
  applications st' = applications st /\
  pushes st' = pushes st /\
  restores st' = restores st /\
  pops st' = (pops st + length (_stack st))%nat /\
  _contextLevel st' = (_contextLevel st - length (_stack st))%nat.
Proof.
  induction 1 as [st Hnil|st st1 b st' Hrem _ IH|st st1 Hadv|st st1 b st' Hadv _ IH];
    intros Hall.
  - rewrite Hnil. simpl. repeat split; try done; lia.
  - destruct (removesExhaustedFrame_stack st st1 Hrem) as (top & _ & Hstack).
    destruct Hrem as (frame & certificate & _ & _ & _ & Hlevel & Hcalls & Hcert & _).
    destruct IH as (-> & Hnil & Happ & Hpush & Hrest & Hpop & Hlev).
    { intros f Hf. apply Hall. rewrite Hstack. apply elem_of_app. by left. }
    assert (Hcount : forall p, (forall c, isCertificateCall c = true -> p c = false) ->
              countCalls p (_calls st1) =
              (countCalls p (_calls st) + (if p context_pop then 1 else 0))%nat).
    { intros p Hp. rewrite Hcalls, countCalls_app. simpl.
      rewrite (countCalls_certificate p certificate Hp Hcert). lia. }
    unfold applications, pushes, pops, restores in *.
    rewrite (Hcount isApplySplit) in Happ by (by intros []).
    rewrite (Hcount isPush) in Hpush by (by intros []).
    rewrite (Hcount isRestore) in Hrest by (by intros []).
    rewrite (Hcount isPop) in Hpop by (by intros []).
    simpl in *. rewrite Hstack, length_app. simpl.
    repeat split; try done; lia.
  - destruct (advancesFrame_stack st st1 true Hadv)
      as (below & frame & split & remaining & Hst & Halts & _).
    rewrite (Hall frame) in Halts; [done|]. rewrite Hst. apply elem_of_app. right. by left.
  - destruct (advancesFrame_stack st st1 false Hadv)
      as (below & frame & split & remaining & Hst & Halts & _).
    rewrite (Hall frame) in Halts; [done|]. rewrite Hst. apply elem_of_app. right. by left.
Qed.

(** With no debugging solution stored the check never objects. *)
Lemma checkSkew_without_solution (st : State) :
  _debuggingSolution st = ∅ -> checkSkewFromDebuggingSolution st = inr false.
Proof.
  intros Hnone. unfold checkSkewFromDebuggingSolution.
  by destruct (decide (_debuggingSolution st = ∅)).
Qed.

Lemma popSplit_returns_without_solution (st : State) :
  _debuggingSolution st = ∅ ->
  exists b st', popSplit st = Some (Returned b st') /\ popSplitSpec st b st'.
Proof.
  intros Hnone. destruct (popSplit_outcome st) as ([b st'|e st'] & Hout & Hspec).
  - exists b, st'. split; [done|]. apply Hspec.
  - by destruct Hspec as [_ Hsol].
Qed.

(** X7.  With no debugging solution stored, neither [popSplit] nor
    [recordImpliedValidSplit] ever throws: both return. *)
Theorem no_debugging_error_without_solution (st : State) :
  _debuggingSolution st = ∅ ->
  (exists b st', popSplit st = Some (Returned b st')) /\
  (forall validSplit, exists st', recordImpliedValidSplit validSplit st = Returned tt st').
Proof.
  intros Hnone. split.
  - destruct (popSplit_returns_without_solution st Hnone) as (b & st' & Hpop & _).
    by exists b, st'.
  - intros validSplit. unfold recordImpliedValidSplit.
    set (st1 := match back (_stack st) with None => _ | Some top => _ end).
    assert (Hnone1 : _debuggingSolution st1 = ∅).
    { subst st1. by destruct (back (_stack st)). }
    rewrite (checkSkew_without_solution st1 Hnone1). by eexists.
Qed.

(** X8.  When no frame on the stack has an alternative left (and no
    debugging solution is stored), [popSplit] reports that the search is
    over: it returns [false] with an empty stack, having popped the context
    once per frame and applied, pushed and restored nothing. *)
Theorem popSplit_exhausted_stack (st : State) :
  _debuggingSolution st = ∅ ->
  (forall frame, frame ∈ _stack st -> _alternativeSplits frame = []) ->
  exists st',
    popSplit st = Some (Returned false st') /\
    _stack st' = [] /\
    applications st' = applications st /\
    pushes st' = pushes st /\
    restores st' = restores st /\
    pops st' = (pops st + length (_stack st))%nat /\
    _contextLevel st' = (_contextLevel st - length (_stack st))%nat.
Proof.
  intros Hnone Hall.
  destruct (popSplit_returns_without_solution st Hnone) as (b & st' & Hpop & Hspec).
  destruct (popSplitSpec_exhausted st b st' Hspec Hall) as (-> & Hrest).
  by exists st'.
Qed.

End Backtracking.

(** ** More of SmtCore: splitting, replaying and the debugging solution *)

Section Bookkeeping.
Context {FU : FloatUtils} {engine : IEngine}.

(** The splits the engine was told to apply, in order. *)
Definition appliedSplits (calls : list Call) : list PiecewiseLinearCaseSplit :=
  omap (fun c => match c with engine_applySplit split => Some split | _ => None end) calls.

Lemma appliedSplits_app (l1 l2 : list Call) :
  appliedSplits (l1 ++ l2) = appliedSplits l1 ++ appliedSplits l2.
Proof. apply omap_app. Qed.

Lemma appliedSplits_call (c : Call) (st : State) :
  appliedSplits (_calls (call c st)) = appliedSplits (_calls st) ++ appliedSplits [c].
Proof. unfold call. simpl. apply appliedSplits_app. Qed.

Lemma fold_left_applySplit (l : list PiecewiseLinearCaseSplit) (st : State) :
  let st' := fold_left (fun st impliedSplit => call (engine_applySplit impliedSplit) st) l st in
  _calls st' = _calls st ++ map engine_applySplit l /\
  _stack st' = _stack st /\
  _impliedValidSplitsAtRoot st' = _impliedValidSplitsAtRoot st /\
  _contextLevel st' = _contextLevel st /\
  _nextStateId st' = _nextStateId st /\
  _debuggingSolution st' = _debuggingSolution st.
Proof.
  revert st. induction l as [|x l IH]; intros st; simpl.
  - by rewrite app_nil_r.
  - destruct (IH (call (engine_applySplit x) st)) as (Hc & Hs & Hr & Hl & Hn & Hd).
    cbv zeta in *. rewrite Hc, Hs, Hr, Hl, Hn, Hd. unfold call. simpl.
    by rewrite <- app_assoc.
Qed.

Lemma appliedSplits_map (l : list PiecewiseLinearCaseSplit) :
  appliedSplits (map engine_applySplit l) = l.
Proof. induction l as [|x l IH]; simpl; [done|]. unfold appliedSplits in *. simpl. by rewrite IH. Qed.

Lemma replaySmtStackEntry_effect (stackEntry : SmtStackEntry) (st : State) :
  let st' := replaySmtStackEntry stackEntry st in
  _stack st' =
    _stack st ++ [mkEntry (_activeSplit stackEntry) (_impliedValidSplits stackEntry)
                    (_alternativeSplits stackEntry) (mkEngineState (_nextStateId st))] /\
  _impliedValidSplitsAtRoot st' = _impliedValidSplitsAtRoot st /\
  _calls st' =
    _calls st ++
    engine_storeState (mkEngineState (_nextStateId st)) STORE_ENTIRE_TABLEAU_STATE ::
    map engine_applySplit (_activeSplit stackEntry :: _impliedValidSplits stackEntry) /\
  _contextLevel st' = _contextLevel st /\
  _nextStateId st' = uinc (_nextStateId st).
Proof.
  unfold replaySmtStackEntry. cbv zeta. simpl.
  set (st1 := call _ (call _ _)).
  destruct (fold_left_applySplit (_impliedValidSplits stackEntry) st1) as (Hc & Hs & Hr & Hl & Hn & _).
  cbv zeta in *. rewrite Hc, Hs, Hr, Hl, Hn. subst st1. unfold call. simpl.
  repeat split; try done. by rewrite <- !app_assoc.
Qed.

(** Entries replayed one after the other, oldest first. *)
Definition replayEntries (entries : list SmtStackEntry) (st : State) : State :=
  fold_left (fun st stackEntry => replaySmtStackEntry stackEntry st) entries st.

(** X9.  Replaying stack entries rebuilds the record of splits: after it
    [allSplitsSoFar] has grown by the active split and the implied valid
    splits of every replayed entry, in order, and these are exactly the
    splits the engine was told to apply meanwhile.  The entries keep their
    alternatives, the stack grows by one frame per entry, and the context is
    not pushed. *)
Theorem replayEntries_rebuilds (entries : list SmtStackEntry) (st : State) :
  let st' := replayEntries entries st in
  let replayed := concat (map (fun it => _activeSplit it :: _impliedValidSplits it) entries) in
  allSplitsSoFar st' = allSplitsSoFar st ++ replayed /\
  appliedSplits (_calls st') = appliedSplits (_calls st) ++ replayed /\
  (exists frames,
     _stack st' = _stack st ++ frames /\
     map _activeSplit frames = map _activeSplit entries /\
     map _impliedValidSplits frames = map _impliedValidSplits entries /\
     map _alternativeSplits frames = map _alternativeSplits entries) /\
  _contextLevel st' = _contextLevel st /\
  pushes st' = pushes st.
Proof.
  revert st. induction entries as [|stackEntry entries IH]; intros st; cbv zeta.
  - simpl. rewrite !app_nil_r. repeat split; try done. exists []. by rewrite app_nil_r.
  - unfold replayEntries in *. simpl fold_left.
    destruct (IH (replaySmtStackEntry stackEntry st))
      as (Hall & Happlied & (frames & Hstack & Hact & Himp & Halt) & Hlevel & Hpush).
    destruct (replaySmtStackEntry_effect stackEntry st) as (Hs & Hr & Hc & Hl & _).
    cbv zeta in *.
    rewrite Hall, Happlied, Hlevel, Hpush, Hl.
    split; [|split; [|split; [|split]]].
    + unfold allSplitsSoFar. rewrite !fold_left_recordedSplits, !fold_left_append.
      rewrite Hs, Hr, map_app, concat_app. simpl. rewrite app_nil_r.
      by rewrite <- !app_assoc.
    + rewrite Hc, appliedSplits_app.
      change (engine_storeState ?e ?l :: ?rest) with ([engine_storeState e l] ++ rest).
      rewrite appliedSplits_app, appliedSplits_map. simpl.
      by rewrite <- !app_assoc.
    + eexists (_ :: frames). rewrite Hstack, Hs. split; [by rewrite <- app_assoc|].
      simpl. by rewrite Hact, Himp, Halt.
    + done.
    + unfold pushes. rewrite Hc, countCalls_app. simpl.
      assert (Hno : forall l, countCalls isPush (map engine_applySplit l) = O).
      { induction l as [|x l IHl]; simpl; [done|exact IHl]. }
      rewrite Hno. lia.
Qed.

Lemma checkSkewOfStack_compliant (st : State) (stack : list SmtStackEntry) :
  checkSkewOfStack st stack = inr true <->
  forallb (splitAllowsStoredSolution st)
    (concat (map (fun it => _activeSplit it :: _impliedValidSplits it) stack)) = true.
Proof.
  induction stack as [|it stack IH]; simpl; [done|].
  rewrite forallb_app.
  destruct (splitAllowsStoredSolution st (_activeSplit it)); simpl.
  - destruct (forallb (splitAllowsStoredSolution st) (_impliedValidSplits it)); simpl; [done|].
    split; intros; done.
  - destruct (_alternativeSplits it); split; intros; done.
Qed.

Lemma checkSkew_compliant (st : State) :
  checkSkewFromDebuggingSolution st = inr true <->
  _debuggingSolution st <> ∅ /\
  forallb (splitAllowsStoredSolution st) (allSplitsSoFar st) = true.
Proof.
  unfold checkSkewFromDebuggingSolution, allSplitsSoFar.
  rewrite fold_left_recordedSplits, fold_left_append. simpl.
  rewrite forallb_app.
  destruct (decide (_debuggingSolution st = ∅)) as [Hnone|Hsome].
  - split; [done|]. by intros [Hne _].
  - destruct (forallb (splitAllowsStoredSolution st) (_impliedValidSplitsAtRoot st)); simpl.
    + rewrite checkSkewOfStack_compliant. split; [by intros ->|by intros [_ ->]].
    + split; [done|]. by intros [_ ?].
Qed.

(** X10.  The check against the stored debugging solution answers
    "compliant" exactly when a solution is stored and every split reported
    by [allSplitsSoFar] allows it. *)
Theorem checkSkewFromDebuggingSolution_compliant (st : State) :
  checkSkewFromDebuggingSolution st = inr true <->
  (_debuggingSolution st <> ∅ /\
   forall split, split ∈ allSplitsSoFar st -> splitAllowsStoredSolution st split = true).
Proof.
  rewrite checkSkew_compliant. split.
  - intros [Hne Hall]. split; [done|]. intros split Hin.
    rewrite forallb_forall in Hall. apply Hall. by apply list_elem_of_In.
  - intros [Hne Hall]. split; [done|]. apply forallb_forall. intros split Hin.
    apply Hall. by apply list_elem_of_In.
Qed.

(** X11.  A pop from a stack that agrees with the stored debugging solution
    is refused: when a solution is stored, the stack is not empty and every
    split so far allows the solution, [popSplit] throws [DEBUGGING_ERROR]
    and leaves everything as it was. *)
Theorem popSplit_refuses_compliant_stack (st : State) :
  _stack st <> [] ->
  _debuggingSolution st <> ∅ ->
  forallb (splitAllowsStoredSolution st) (allSplitsSoFar st) = true ->
  popSplit st = Some (Thrown DEBUGGING_ERROR st).
Proof.
  intros Hne Hsome Hall.
  assert (Hskew : checkSkewFromDebuggingSolution st = inr true).
  { apply checkSkew_compliant. by split. }
  rewrite popSplit_nonempty by done.
  destruct (_stack st) as [|it stack] eqn:Hstack using rev_ind; [done|].
  clear IHstack. rewrite stackWork_snoc, Nat.add_succ_r.
  rewrite popSplitLoop_S, Hstack, back_snoc, Hskew. done.
Qed.

(** X12.  A split on a constraint that is still active and has a case:
    one frame is pushed, holding the first case as active split, the other
    cases as alternatives and a fresh snapshot that the engine was asked to
    store; the context is pushed once and the first case is the last thing
    applied; [allSplitsSoFar] grows by that case.  The request to split is
    cleared, the violation counts are kept. *)
Theorem performSplit_active_spec (st : State) (c : ConstraintId)
  (split : PiecewiseLinearCaseSplit) (remaining : list PiecewiseLinearCaseSplit) :
  _constraintForSplitting st = Some c ->
  isActive (_calls st) c = true ->
  getCaseSplits (_calls st) c = split :: remaining ->
  exists st',
    performSplit st = Some st' /\
    _stack st' = _stack st ++ [mkEntry split [] remaining (mkEngineState (_nextStateId st))] /\
    _nextStateId st' = uinc (_nextStateId st) /\
    engine_storeState (mkEngineState (_nextStateId st)) STORE_BOUNDS_ONLY ∈ _calls st' /\
    last (_calls st') = Some (engine_applySplit split) /\
    appliedSplits (_calls st') = appliedSplits (_calls st) ++ [split] /\
    allSplitsSoFar st' = allSplitsSoFar st ++ [split] /\
    _contextLevel st' = S (_contextLevel st) /\
    pushes st' = S (pushes st) /\
    pops st' = pops st /\
    _needToSplit st' = false /\
    _constraintForSplitting st' = None /\
    _constraintToViolationCount st' = _constraintToViolationCount st.
Proof.
  intros Hc Hactive Hsplits.
  unfold performSplit. simpl. rewrite Hc. simpl. rewrite Hactive, Hsplits. simpl.
  eexists. split; [reflexivity|].
  set (b1 := proofsWithRoot _). clearbody b1.
  set (b2 := proofsWithRoot _). clearbody b2.
  unfold allSplitsSoFar, pushes, pops.
  destruct b1, b2; simpl;
    rewrite ?fold_left_recordedSplits, ?fold_left_append, ?map_app, ?concat_app,
            ?appliedSplits_app, ?countCalls_app; simpl; rewrite ?app_nil_r;
    (repeat split; try done; try lia;
     [ rewrite !elem_of_app, !elem_of_cons; tauto
     | rewrite ?app_assoc; apply last_snoc
     | by rewrite <- ?app_assoc ]).
Qed.

(** X16.  Recording an implied valid split only records it: the split
    becomes the last of [allSplitsSoFar], in the newest frame or at the root
    when there is no frame; the frames keep their number, their active
    splits, their alternatives and their snapshots; the context is not
    touched and the engine is not told anything, whether the check against
    the debugging solution then throws or not. *)
Theorem recordImpliedValidSplit_records (validSplit : PiecewiseLinearCaseSplit) (st : State) :
  let st' := stateOf (recordImpliedValidSplit validSplit st) in
  allSplitsSoFar st' = allSplitsSoFar st ++ [validSplit] /\
  map _activeSplit (_stack st') = map _activeSplit (_stack st) /\
  map _alternativeSplits (_stack st') = map _alternativeSplits (_stack st) /\
  map _engineState (_stack st') = map _engineState (_stack st) /\
  _contextLevel st' = _contextLevel st /\
  _calls st' = _calls st /\
  _needToSplit st' = _needToSplit st /\
  _constraintForSplitting st' = _constraintForSplitting st.
Proof.
  cbv zeta. split; [apply recordImpliedValidSplit_allSplitsSoFar|].
  unfold recordImpliedValidSplit.
  set (st1 := match back (_stack st) with None => _ | Some top => _ end).
  assert (Hst1 : map _activeSplit (_stack st1) = map _activeSplit (_stack st) /\
                 map _alternativeSplits (_stack st1) = map _alternativeSplits (_stack st) /\
                 map _engineState (_stack st1) = map _engineState (_stack st) /\
                 _contextLevel st1 = _contextLevel st /\
                 _calls st1 = _calls st /\
                 _needToSplit st1 = _needToSplit st /\
                 _constraintForSplitting st1 = _constraintForSplitting st).
  { subst st1. destruct (back (_stack st)) as [top|] eqn:Hb; [|done].
    apply back_Some_snoc in Hb. simpl. unfold setBack. rewrite Hb at 2 4 6.
    rewrite !map_app. simpl. by repeat split. }
  by destruct (checkSkewFromDebuggingSolution st1).
Qed.

(** A frame all of whose recorded splits allow the stored solution. *)
Definition frameAllowsStoredSolution (st : State) (frame : SmtStackEntry) : bool :=
  splitAllowsStoredSolution st (_activeSplit frame) &&
  forallb (splitAllowsStoredSolution st) (_impliedValidSplits frame).

(** The oldest frame that does not allow the stored solution, with what
    makes the check object to it ([justified = false]) or not: a frame whose
    active split is the offender and that has alternatives left is
    acceptable, the search may still leave it. *)
Definition firstOffender (st : State) (stack : list SmtStackEntry) (justified : bool) : Prop :=
  exists below frame above,
    stack = below ++ frame :: above /\
    forallb (frameAllowsStoredSolution st) below = true /\
    if justified
    then splitAllowsStoredSolution st (_activeSplit frame) = false /\
         _alternativeSplits frame <> []
    else (splitAllowsStoredSolution st (_activeSplit frame) = false /\
          _alternativeSplits frame = []) \/
         (splitAllowsStoredSolution st (_activeSplit frame) = true /\
          forallb (splitAllowsStoredSolution st) (_impliedValidSplits frame) = false).

Lemma firstOffender_cons (st : State) (it : SmtStackEntry) (stack : list SmtStackEntry)
  (justified : bool) :
  frameAllowsStoredSolution st it = true ->
  firstOffender st stack justified -> firstOffender st (it :: stack) justified.
Proof.
  intros Hit (below & frame & above & -> & Hbelow & Hframe).
  exists (it :: below), frame, above. simpl. by rewrite Hit, Hbelow.
Qed.

Lemma checkSkewOfStack_outcomes (st : State) (stack : list SmtStackEntry) :
  match checkSkewOfStack st stack with
  | inr true => forallb (frameAllowsStoredSolution st) stack = true
  | inr false => firstOffender st stack true
  | inl _ => firstOffender st stack false
  end.
Proof.
  induction stack as [|it stack IH]; simpl; [done|].
  unfold frameAllowsStoredSolution at 1.
  destruct (splitAllowsStoredSolution st (_activeSplit it)) eqn:Hactive; simpl.
  - destruct (forallb (splitAllowsStoredSolution st) (_impliedValidSplits it)) eqn:Himplied; simpl.
    + assert (Hit : frameAllowsStoredSolution st it = true).
      { unfold frameAllowsStoredSolution. by rewrite Hactive, Himplied. }
      destruct (checkSkewOfStack st stack) as [e|[|]]; [by apply firstOffender_cons|done|
        by apply firstOffender_cons].
    + exists [], it, stack. split; [done|]. split; [done|]. right. by split.
  - destruct (_alternativeSplits it) as [|alternative rest] eqn:Halts.
    + exists [], it, stack. split; [done|]. split; [done|]. left. by split.
    + exists [], it, stack. split; [done|]. split; [done|]. split; [done|]. by rewrite Halts.
Qed.

(** X17.  With a debugging solution stored, the three answers of
    [checkSkewFromDebuggingSolution] mean: compliant, when the implied valid
    splits at the root and every frame allow the solution; not compliant,
    when the oldest offending frame offends by its active split and still
    has an alternative; and [DEBUGGING_ERROR] otherwise, that is when an
    implied valid split at the root excludes the solution, or the oldest
    offending frame offends by an implied valid split or by an active split
    without an alternative left. *)
Theorem checkSkewFromDebuggingSolution_outcomes (st : State) :
  _debuggingSolution st <> ∅ ->
  let rootAllows :=
    forallb (splitAllowsStoredSolution st) (_impliedValidSplitsAtRoot st) in
  match checkSkewFromDebuggingSolution st with
  | inr true =>
      rootAllows = true /\ forallb (frameAllowsStoredSolution st) (_stack st) = true
  | inr false => rootAllows = true /\ firstOffender st (_stack st) true
  | inl _ => rootAllows = false \/ (rootAllows = true /\ firstOffender st (_stack st) false)
  end.
Proof.
  intros Hsome. cbv zeta. unfold checkSkewFromDebuggingSolution.
  destruct (decide (_debuggingSolution st = ∅)) as [Hnone|_]; [done|].
  destruct (forallb (splitAllowsStoredSolution st) (_impliedValidSplitsAtRoot st)); simpl.
  - pose proof (checkSkewOfStack_outcomes st (_stack st)) as Hstack.
    destruct (checkSkewOfStack st (_stack st)) as [e|[|]]; [right| |]; by split.
  - by left.
Qed.

End Bookkeeping.

End SmtCore.

(** ** RowBoundTightener *)

Module RowBoundTightener.

(** [TableauRow]: [y = sum ci xi + b], with [y] in [_lhs], [b] in [_scalar]
    and the pairs [(xi, ci)] in [_row]. *)
Record Entry : Type := mkEntry { _var : nat; _coefficient : double }.

Record TableauRow : Type := mkRow {
  _row : list Entry;
  _scalar : double;
  _lhs : nat;
}.

(** [row[i]] and [row._row[i]._var].  The rows this class allocates and the
    pivot row of the tableau have [n - m] entries, so the loops below stay
    within them; a position outside would read whatever lies there, and
    reads as zero here. *)
Definition coefficientAt (row : TableauRow) (i : nat) : double :=
  match _row row !! i with Some e => _coefficient e | None => 0%float end.

Definition varAt (row : TableauRow) (i : nat) : nat :=
  match _row row !! i with Some e => _var e | None => O end.

(** [SparseUnsortedList]: the non-zero entries of a row or column of [A]. *)
Record SparseEntry : Type := mkSparse { _index : nat; _value : double }.

(** The tableau, as far as this class reads it, with [m <= n].
    [getInverseBasisMatrix] hands over a freshly allocated array that the
    caller has to release; [forwardTransformation y] is the [x] with
    [Bx = y]. *)
Class ITableau : Type := {
  getN : nat;
  getM : nat;
  getRightHandSide : nat -> double;
  getSparseARow : nat -> list SparseEntry;
  getSparseAColumn : nat -> list SparseEntry;
  getAColumn : nat -> nat -> double;
  getInverseBasisMatrix : nat -> double;
  forwardTransformation : (nat -> double) -> nat -> double;
  basicIndexToVariable : nat -> nat;
  nonBasicIndexToVariable : nat -> nat;
  getPivotRow : TableauRow;
}.

(** Where a request to tighten comes from: the basic variable of a row, or
    the entry at a position of the row.  Kept for the statements only. *)
Record Request : Type := mkRequest {
  origin : option nat;
  requested : Tightening;
}.

(** Modelled from the spec: the bound manager ([BoundManager.cpp] is not
    among the sources).  It holds an interval per variable; a new lower
    bound is accepted only if it is greater than the current one under
    [FloatUtils::gt], a new upper bound only if it is less under
    [FloatUtils::lt]; an accepted bound is appended to the tightening
    record, anything else is ignored.  [_requests] lists every call
    received, accepted or not. *)
Record BoundManager : Type := mkBoundManager {
  _lowerBounds : nat -> double;
  _upperBounds : nat -> double;
  _tightenings : list Tightening;
  _requests : list Request;
}.

Inductive Sign : Type := ZERO | POSITIVE | NEGATIVE.

Definition isPOSITIVE (s : Sign) : bool := match s with POSITIVE => true | _ => false end.
Definition isNEGATIVE (s : Sign) : bool := match s with NEGATIVE => true | _ => false end.
Definition isZERO (s : Sign) : bool := match s with ZERO => true | _ => false end.

(** The members of the tightener that the passes use, the bound manager it
    refers to, and the number of explicit basis inverses obtained from the
    tableau and not released yet. *)
Record State : Type := mkState {
  _boundManager : BoundManager;
  _rows : list TableauRow;
  _ciTimesLb : nat -> double;
  _ciTimesUb : nat -> double;
  _ciSign : nat -> Sign;
  _unreleasedInverses : nat;
}.

Inductive InfeasibleQueryException : Type := InfeasibleQuery.

Definition Result (A : Type) : Type := Outcome InfeasibleQueryException State A.

(** [a[i] = v] *)
Definition assign {A} (a : nat -> A) (i : nat) (v : A) : nat -> A :=
  fun j => if Nat.eqb j i then v else a j.

Definition with_boundManager (bm : BoundManager) (st : State) : State :=
  mkState bm (_rows st) (_ciTimesLb st) (_ciTimesUb st) (_ciSign st) (_unreleasedInverses st).

Definition with_rows (rows : list TableauRow) (st : State) : State :=
  mkState (_boundManager st) rows (_ciTimesLb st) (_ciTimesUb st) (_ciSign st)
    (_unreleasedInverses st).

Definition with_products (lbs ubs : nat -> double) (signs : nat -> Sign) (st : State) : State :=
  mkState (_boundManager st) (_rows st) lbs ubs signs (_unreleasedInverses st).

Definition with_unreleasedInverses (k : nat) (st : State) : State :=
  mkState (_boundManager st) (_rows st) (_ciTimesLb st) (_ciTimesUb st) (_ciSign st) k.

(** A loop whose body may throw: [result] and the state go from one
    iteration to the next. *)
Fixpoint forEach {A} (body : A -> N -> State -> Result N) (items : list A)
  (result : N) (st : State) : Result N :=
  match items with
  | [] => Returned result st
  | x :: items =>
      match body x result st with
      | Returned result st => forEach body items result st
      | Thrown e st => Thrown e st
      end
  end.

Section WithTableau.
Context {FU : FloatUtils} {tableau : ITableau} (cfg : GlobalConfiguration).

(** Modelled from the spec: the bounds the tightener reads
    ([RowBoundTightener.h] is not among the sources) are the current bounds
    of the bound manager, to whose arrays [_lowerBounds] and [_upperBounds]
    point. *)
Definition getLowerBound (st : State) (var : nat) : double := _lowerBounds (_boundManager st) var.
Definition getUpperBound (st : State) (var : nat) : double := _upperBounds (_boundManager st) var.

(** Modelled from the spec: [BoundManager::tightenLowerBound] and
    [BoundManager::tightenUpperBound] ([BoundManager.cpp] is not among the
    sources) accept a bound iff it strictly improves on the current one
    under the tolerant comparison, and tell whether they did. *)
Definition tightenLowerBound (from : option nat) (variable : nat) (value : double)
  (bm : BoundManager) : bool * BoundManager :=
  let request := mkRequest from (mkTightening variable value LB) in
  if gt value (_lowerBounds bm variable) then
    (true, mkBoundManager (assign (_lowerBounds bm) variable value) (_upperBounds bm)
             (_tightenings bm ++ [mkTightening variable value LB])
             (_requests bm ++ [request]))
  else
    (false, mkBoundManager (_lowerBounds bm) (_upperBounds bm) (_tightenings bm)
              (_requests bm ++ [request])).

Definition tightenUpperBound (from : option nat) (variable : nat) (value : double)
  (bm : BoundManager) : bool * BoundManager :=
  let request := mkRequest from (mkTightening variable value UB) in
  if lt value (_upperBounds bm variable) then
    (true, mkBoundManager (_lowerBounds bm) (assign (_upperBounds bm) variable value)
             (_tightenings bm ++ [mkTightening variable value UB])
             (_requests bm ++ [request]))
  else
    (false, mkBoundManager (_lowerBounds bm) (_upperBounds bm) (_tightenings bm)
              (_requests bm ++ [request])).

(** Modelled from the spec: [registerTighterLowerBound] and
    [registerTighterUpperBound] ([RowBoundTightener.h] is not among the
    sources) hand the bound to the bound manager; what the passes add up is
    one for a bound that is accepted and zero otherwise. *)
Definition registerTighterLowerBound (from : option nat) (variable : nat)
  (newLowerBound : double) (st : State) : N * State :=
  let '(tightened, bm) := tightenLowerBound from variable newLowerBound (_boundManager st) in
  (if tightened then 1 else 0, with_boundManager bm st).

Definition registerTighterUpperBound (from : option nat) (variable : nat)
  (newUpperBound : double) (st : State) : N * State :=
  let '(tightened, bm) := tightenUpperBound from variable newUpperBound (_boundManager st) in
  (if tightened then 1 else 0, with_boundManager bm st).

(** The end of each tightening in both kinds of rows: register the two
    bounds, add what was accepted to [result], and throw when the bounds of
    the variable cross. *)
Definition registerAndCheck (from : option nat) (variable : nat)
  (newLowerBound newUpperBound : double) (result : N) (st : State) : Result N :=
  let '(tightened, st) := registerTighterLowerBound from variable newLowerBound st in
  let result := uadd result tightened in
  let '(tightened, st) := registerTighterUpperBound from variable newUpperBound st in
  let result := uadd result tightened in
  if gt (getLowerBound st variable) (getUpperBound st variable)
  then Thrown InfeasibleQuery st
  else Returned result st.

(** *** tightenOnSingleInvertedBasisRow *)

(** Compute ci * lb, ci * ub, flag signs for all entries: the body of the
    first loop. *)
Definition flagEntry (row : TableauRow) (st : State) (i : nat) : State :=
  let ci := coefficientAt row i in
  if isZero ci then
    with_products (assign (_ciTimesLb st) i 0%float) (assign (_ciTimesUb st) i 0%float)
      (assign (_ciSign st) i ZERO) st
  else
    let sign := if isPositive ci then POSITIVE else NEGATIVE in
    let xi := varAt row i in
    with_products (assign (_ciTimesLb st) i (ci * getLowerBound st xi)%float)
      (assign (_ciTimesUb st) i (ci * getUpperBound st xi)%float)
      (assign (_ciSign st) i sign) st.

(** The pass for [y]: the body of the second loop, on
    [(lowerBound, upperBound)]. *)
Definition accumulateBasic (st : State) (bounds : double * double) (i : nat) : double * double :=
  let '(lowerBound, upperBound) := bounds in
  if isPOSITIVE (_ciSign st i)
  then ((lowerBound + _ciTimesLb st i)%float, (upperBound + _ciTimesUb st i)%float)
  else ((lowerBound + _ciTimesUb st i)%float, (upperBound + _ciTimesLb st i)%float).

(** Now add ALL xi's: the body of the loop on [(auxLb, auxUb)], the same in
    both kinds of rows. *)
Definition accumulateAux (st : State) (aux : double * double) (i : nat) : double * double :=
  let '(auxLb, auxUb) := aux in
  if isNEGATIVE (_ciSign st i)
  then ((auxLb - _ciTimesLb st i)%float, (auxUb - _ciTimesUb st i)%float)
  else ((auxLb - _ciTimesUb st i)%float, (auxUb - _ciTimesLb st i)%float).

(** Adjust the aux bounds to remove xi. *)
Definition removeFromAux (st : State) (auxLb auxUb : double) (i : nat) : double * double :=
  if isNEGATIVE (_ciSign st i)
  then ((auxLb + _ciTimesLb st i)%float, (auxUb + _ciTimesUb st i)%float)
  else ((auxLb + _ciTimesUb st i)%float, (auxUb + _ciTimesLb st i)%float).

(** Now divide everything by ci, switching signs if needed. *)
Definition divideByCoefficient (st : State) (bounds : double * double) (i : nat) (ci : double)
  : double * double :=
  let '(lowerBound, upperBound) := bounds in
  let lowerBound := (lowerBound / ci)%float in
  let upperBound := (upperBound / ci)%float in
  if isNEGATIVE (_ciSign st i) then (upperBound, lowerBound) else (lowerBound, upperBound).

(** Now consider each individual xi: the body of the last loop.  [abs] is
    the absolute value of a [double]. *)
Definition tightenNonBasic (row : TableauRow) (auxLb auxUb : double) (i : nat)
  (result : N) (st : State) : Result N :=
  if isZERO (_ciSign st i) ||
     lt (PrimFloat.abs (coefficientAt row i)) (MINIMAL_COEFFICIENT_FOR_TIGHTENING cfg)
  then Returned result st
  else
    let bounds := removeFromAux st auxLb auxUb i in
    let ci := coefficientAt row i in
    let '(lowerBound, upperBound) := divideByCoefficient st bounds i ci in
    (* If a tighter bound is found, store it *)
    let xi := varAt row i in
    registerAndCheck (Some i) xi
      (lowerBound - EXPLICIT_BASIS_BOUND_TIGHTENING_ROUNDING_CONSTANT cfg)%float
      (upperBound + EXPLICIT_BASIS_BOUND_TIGHTENING_ROUNDING_CONSTANT cfg)%float
      result st.

Definition tightenOnSingleInvertedBasisRow (row : TableauRow) (st : State) : Result N :=
  let n := getN in
  let m := getM in
  let result := 0 in
  let st := fold_left (flagEntry row) (seq 0 (n - m)) st in
  (* Start with a pass for y *)
  let y := _lhs row in
  let '(lowerBound, upperBound) :=
    fold_left (accumulateBasic st) (seq 0 (n - m)) (_scalar row, _scalar row) in
  match registerAndCheck None y
          (lowerBound - EXPLICIT_BASIS_BOUND_TIGHTENING_ROUNDING_CONSTANT cfg)%float
          (upperBound + EXPLICIT_BASIS_BOUND_TIGHTENING_ROUNDING_CONSTANT cfg)%float
          result st with
  | Thrown e st => Thrown e st
  | Returned result st =>
      (* Next, do a pass for each of the rhs variables *)
      let auxLb := (getLowerBound st y - _scalar row)%float in
      let auxUb := (getUpperBound st y - _scalar row)%float in
      let '(auxLb, auxUb) := fold_left (accumulateAux st) (seq 0 (n - m)) (auxLb, auxUb) in
      forEach (tightenNonBasic row auxLb auxUb) (seq 0 (n - m)) result st
  end.

(** *** tightenOnSingleConstraintRow *)

(** [std::fill_n( a, n, v )] *)
Definition fill_n {A} (a : nat -> A) (n : nat) (v : A) : nat -> A :=
  fun j => if Nat.ltb j n then v else a j.

Definition flagSparseEntry (st : State) (entry : SparseEntry) : State :=
  let index := _index entry in
  let ci := _value entry in
  with_products (assign (_ciTimesLb st) index (ci * getLowerBound st index)%float)
    (assign (_ciTimesUb st) index (ci * getUpperBound st index)%float)
    (assign (_ciSign st) index (if isPositive ci then POSITIVE else NEGATIVE)) st.

(** Now consider each individual xi with non zero coefficient: the body of
    the last loop; [position] is the place of [entry] in the row. *)
Definition tightenSparseEntry (auxLb auxUb : double) (item : nat * SparseEntry)
  (result : N) (st : State) : Result N :=
  let '(position, entry) := item in
  let index := _index entry in
  let bounds := removeFromAux st auxLb auxUb index in
  let ci := _value entry in
  if lt (PrimFloat.abs ci) (MINIMAL_COEFFICIENT_FOR_TIGHTENING cfg)
  then Returned result st
  else
    let '(lowerBound, upperBound) := divideByCoefficient st bounds index ci in
    (* If a tighter bound is found, store it *)
    registerAndCheck (Some position) index lowerBound upperBound result st.

Definition positioned {A} (l : list A) : list (nat * A) := imap (fun k x => (k, x)) l.

Definition tightenOnSingleConstraintRow (row : nat) (st : State) : Result N :=
  let n := getN in
  let result := 0 in
  let sparseRow := getSparseARow row in
  let b := getRightHandSide in
  let st := with_products (fill_n (_ciTimesLb st) n 0%float) (fill_n (_ciTimesUb st) n 0%float)
              (fill_n (_ciSign st) n ZERO) st in
  let st := fold_left flagSparseEntry sparseRow st in
  let auxLb := b row in
  let auxUb := b row in
  let '(auxLb, auxUb) := fold_left (accumulateAux st) (seq 0 n) (auxLb, auxUb) in
  forEach (tightenSparseEntry auxLb auxUb) (positioned sparseRow) result st.

(** *** Passes *)

(** [newBounds += tightenOnSingle...( row )] *)
Definition accumulateRow (tighten : State -> Result N) (newBounds : N) (st : State) : Result N :=
  match tighten st with
  | Returned learned st => Returned (uadd newBounds learned) st
  | Thrown e st => Thrown e st
  end.

(** [*( _rows[i] )]; the array has [m] rows. *)
Definition rowAt (st : State) (i : nat) : TableauRow :=
  match _rows st !! i with Some row => row | None => mkRow [] 0%float O end.

Definition onePassOverInvertedBasisRows (st : State) : Result N :=
  forEach (fun i newBounds st =>
             accumulateRow (tightenOnSingleInvertedBasisRow (rowAt st i)) newBounds st)
    (seq 0 getM) 0 st.

Definition onePassOverConstraintMatrix (st : State) : Result N :=
  forEach (fun i result st => accumulateRow (tightenOnSingleConstraintRow i) result st)
    (seq 0 getM) 0 st.

(** The [do ... while] of the three examine routines, one iteration per
    unit of [fuel] ([None]: out of fuel).  Next to the outcome comes the
    list of the passes made, each with the number of bounds it learned, or
    [None] for a pass that threw. *)
Fixpoint saturate (onePass : State -> Result N) (fuel : nat) (maxNumberOfIterations : N)
  (st : State) : option (list (option N) * Result unit) :=
  match fuel with
  | O => None
  | S fuel =>
      match onePass st with
      | Thrown e st => Some ([None], Thrown e st)
      | Returned newBoundsLearned st =>
          let maxNumberOfIterations := udec maxNumberOfIterations in
          if negb (maxNumberOfIterations =? 0) && (0 <? newBoundsLearned) then
            match saturate onePass fuel maxNumberOfIterations st with
            | None => None
            | Some (passes, out) => Some (Some newBoundsLearned :: passes, out)
            end
          else Some ([Some newBoundsLearned], Returned tt st)
      end
  end.

(** [untilSaturation ? ROW_BOUND_TIGHTENER_SATURATION_ITERATIONS : 1], as
    an [unsigned]. *)
Definition initialIterations (untilSaturation : bool) : N :=
  if untilSaturation then ROW_BOUND_TIGHTENER_SATURATION_ITERATIONS cfg mod UINT_RANGE else 1.

(** The counter reaches zero after this many decrements. *)
Definition iterationsLeft (maxNumberOfIterations : N) : N :=
  if maxNumberOfIterations =? 0 then UINT_RANGE else maxNumberOfIterations.

Definition saturationLoop (onePass : State -> Result N) (untilSaturation : bool) (st : State)
  : option (list (option N) * Result unit) :=
  let maxNumberOfIterations := initialIterations untilSaturation in
  saturate onePass (N.to_nat (iterationsLeft maxNumberOfIterations)) maxNumberOfIterations st.

Definition examineConstraintMatrix (untilSaturation : bool) (st : State)
  : option (list (option N) * Result unit) :=
  saturationLoop onePassOverConstraintMatrix untilSaturation st.

(** [xB = inv(B)*b - inv(B)*An], one FTRAN per column. *)
Definition implicitRow (j : nat) : TableauRow :=
  let n := getN in
  let m := getM in
  mkRow
    (map (fun i =>
            let nonBasic := nonBasicIndexToVariable i in
            mkEntry nonBasic (- forwardTransformation (getAColumn nonBasic) j)%float)
       (seq 0 (n - m)))
    (forwardTransformation getRightHandSide j)
    (basicIndexToVariable j).

Definition examineImplicitInvertedBasisMatrix (untilSaturation : bool) (st : State)
  : option (list (option N) * Result unit) :=
  let st := with_rows (map implicitRow (seq 0 getM)) st in
  saturationLoop onePassOverInvertedBasisRows untilSaturation st.

(** [xB = inv(B)*b - inv(B)*An], one row at a time. *)
Definition explicitRow (invB : nat -> double) (i : nat) : TableauRow :=
  let n := getN in
  let m := getM in
  let b := getRightHandSide in
  mkRow
    (map (fun j =>
            let var := nonBasicIndexToVariable j in
            mkEntry var
              (fold_left (fun coefficient entry =>
                            (coefficient - invB (i * m + _index entry)%nat * _value entry)%float)
                 (getSparseAColumn var) 0%float))
       (seq 0 (n - m)))
    (fold_left (fun scalar j => (scalar + invB (i * m + j)%nat * b j)%float) (seq 0 m) 0%float)
    (basicIndexToVariable i).

(** [try { ... } catch ( ... ) { delete[] invB; throw; } delete[] invB;] *)
Definition examineInvertedBasisMatrix (untilSaturation : bool) (st : State)
  : option (list (option N) * Result unit) :=
  let invB := getInverseBasisMatrix in
  let st := with_unreleasedInverses (S (_unreleasedInverses st)) st in
  let st := with_rows (map (explicitRow invB) (seq 0 getM)) st in
  match saturationLoop onePassOverInvertedBasisRows untilSaturation st with
  | None => None
  | Some (passes, Thrown e st) =>
      let st := with_unreleasedInverses (pred (_unreleasedInverses st)) st in
      Some (passes, Thrown e st)
  | Some (passes, Returned _ st) =>
      let st := with_unreleasedInverses (pred (_unreleasedInverses st)) st in
      Some (passes, Returned tt st)
  end.

Definition examinePivotRow (st : State) : Result unit :=
  match tightenOnSingleInvertedBasisRow getPivotRow st with
  | Returned _ st => Returned tt st
  | Thrown e st => Thrown e st
  end.

(** *** What a registration does *)

Definition requestsOf (st : State) : list Request := _requests (_boundManager st).

(** The lower bound of [v] exceeds its upper bound, as the tightener tests it. *)
Definition crossed (st : State) (v : nat) : bool :=
  gt (getLowerBound st v) (getUpperBound st v).

(** The two requests of one tightening. *)
Definition requestPair (from : option nat) (variable : nat) (lowerBound upperBound : double)
  : list Request :=
  [mkRequest from (mkTightening variable lowerBound LB);
   mkRequest from (mkTightening variable upperBound UB)].

(** The members that only the loops over the entries write. *)
Definition sameScratch (st st' : State) : Prop :=
  _rows st' = _rows st /\
  _ciTimesLb st' = _ciTimesLb st /\
  _ciTimesUb st' = _ciTimesUb st /\
  _ciSign st' = _ciSign st /\
  _unreleasedInverses st' = _unreleasedInverses st.

Lemma sameScratch_refl (st : State) : sameScratch st st.
Proof. by repeat split. Qed.

Lemma sameScratch_trans (st1 st2 st3 : State) :
  sameScratch st1 st2 -> sameScratch st2 st3 -> sameScratch st1 st3.
Proof.
  intros (H1 & H2 & H3 & H4 & H5) (K1 & K2 & K3 & K4 & K5).
  repeat split; congruence.
Qed.

Lemma assign_other {A} (a : nat -> A) (i j : nat) (v : A) : j <> i -> assign a i v j = a j.
Proof. intros Hne. unfold assign. by destruct (Nat.eqb_spec j i). Qed.

Lemma assign_same {A} (a : nat -> A) (i : nat) (v : A) : assign a i v i = v.
Proof. unfold assign. by rewrite Nat.eqb_refl. Qed.

Lemma registerAndCheck_effect (from : option nat) (variable : nat)
  (newLowerBound newUpperBound : double) (result : N) (st : State) :
  let out := registerAndCheck from variable newLowerBound newUpperBound result st in
  requestsOf (stateOf out) =
    requestsOf st ++ requestPair from variable newLowerBound newUpperBound /\
  sameScratch st (stateOf out) /\
  (forall w, w <> variable ->
     getLowerBound (stateOf out) w = getLowerBound st w /\
     getUpperBound (stateOf out) w = getUpperBound st w) /\
  (forall r st', out = Returned r st' -> crossed st' variable = false).
Proof.
  cbv zeta.
  unfold registerAndCheck, registerTighterLowerBound, registerTighterUpperBound,
    tightenLowerBound, tightenUpperBound, requestsOf, crossed, getLowerBound, getUpperBound.
  destruct (gt newLowerBound _); simpl; destruct (lt newUpperBound _); simpl;
    match goal with |- context [if ?c then Thrown _ _ else _] => destruct c eqn:Hcross end;
    simpl; rewrite <- ?app_assoc; simpl;
    (split; [done|]); (split; [by repeat split|]);
    (split; [intros w Hw; by rewrite ?assign_other by done|]);
    intros r st' Heq; inversion Heq; subst; simpl; done.
Qed.

(** *** Loops *)

Definition isReturned {E S A} (out : Outcome E S A) : bool :=
  match out with Returned _ _ => true | Thrown _ _ => false end.

(** A property of the state that every iteration hands on, thrown or not. *)
Lemma forEach_preserves {A} (P : State -> Prop) (body : A -> N -> State -> Result N)
  (items : list A) :
  (forall x r st, x ∈ items -> P st -> P (stateOf (body x r st))) ->
  forall r st, P st -> P (stateOf (forEach body items r st)).
Proof.
  induction items as [|x items IH]; intros Hbody r st HP; simpl; [done|].
  pose proof (Hbody x r st ltac:(by left) HP) as Hx.
  destruct (body x r st) as [r' st'|e st']; simpl in *; [|done].
  apply IH; [|done]. intros y r0 s0 Hy. apply Hbody. by right.
Qed.

(** A property that holds after every iteration that returns. *)
Lemma forEach_returns {A} (P : State -> Prop) (body : A -> N -> State -> Result N)
  (items : list A) :
  (forall x r st r' st', x ∈ items -> P st -> body x r st = Returned r' st' -> P st') ->
  forall r st r' st', P st -> forEach body items r st = Returned r' st' -> P st'.
Proof.
  induction items as [|x items IH]; intros Hbody r st r' st' HP Hloop; simpl in Hloop.
  { by inversion Hloop; subst. }
  destruct (body x r st) as [r1 st1|e st1] eqn:Hx; [|done].
  eapply IH; [|eapply Hbody; [by left|exact HP|exact Hx]|exact Hloop].
  intros y r0 s0 r0' s0' Hy. apply Hbody. by right.
Qed.

(** The requests of a loop whose iterations each add [requestsFor x]: those
    of the iterations made, all of them when the loop returns. *)
Lemma forEach_requests {A} (P : State -> Prop) (requestsFor : A -> list Request)
  (body : A -> N -> State -> Result N) (items : list A) :
  (forall x r st, x ∈ items -> P st ->
     P (stateOf (body x r st)) /\
     requestsOf (stateOf (body x r st)) = requestsOf st ++ requestsFor x) ->
  forall r st, P st ->
    let out := forEach body items r st in
    exists made rest,
      items = made ++ rest /\
      requestsOf (stateOf out) = requestsOf st ++ concat (map requestsFor made) /\
      (isReturned out = true -> rest = []).
Proof.
  induction items as [|x items IH]; intros Hbody r st HP; simpl.
  { exists [], []. simpl. by rewrite app_nil_r. }
  destruct (Hbody x r st ltac:(by left) HP) as [HP' Hreq].
  destruct (body x r st) as [r' st'|e st']; simpl in *.
  - destruct (IH (fun y r0 s0 Hy => Hbody y r0 s0 ltac:(by right)) r' st' HP')
      as (made & rest & Hitems & Hreqs & Hret).
    exists (x :: made), rest. simpl. split; [by f_equal|].
    split; [|done]. by rewrite Hreqs, Hreq, <- app_assoc.
  - exists [x], items. simpl. rewrite app_nil_r. by repeat split.
Qed.

(** *** The scratch arrays after the first loop *)

Definition signOf (ci : double) : Sign :=
  if isZero ci then ZERO else if isPositive ci then POSITIVE else NEGATIVE.

Lemma flagEntry_fold (row : TableauRow) (st : State) (k : nat) :
  let st' := fold_left (flagEntry row) (seq 0 k) st in
  _boundManager st' = _boundManager st /\
  _rows st' = _rows st /\
  _unreleasedInverses st' = _unreleasedInverses st /\
  forall i, (i < k)%nat ->
    let ci := coefficientAt row i in
    _ciSign st' i = signOf ci /\
    _ciTimesLb st' i =
      (if isZero ci then 0%float else (ci * getLowerBound st (varAt row i))%float) /\
    _ciTimesUb st' i =
      (if isZero ci then 0%float else (ci * getUpperBound st (varAt row i))%float).
Proof.
  induction k as [|k IH].
  { simpl. repeat split; try done; intros; lia. }
  cbv zeta in *. rewrite seq_S, fold_left_app. simpl.
  destruct IH as (Hbm & Hrows & Hinv & Hread).
  set (st' := fold_left (flagEntry row) (seq 0 k) st) in *.
  assert (Hframe : _boundManager (flagEntry row st' k) = _boundManager st' /\
                   _rows (flagEntry row st' k) = _rows st' /\
                   _unreleasedInverses (flagEntry row st' k) = _unreleasedInverses st').
  { unfold flagEntry. by destruct (isZero _). }
  destruct Hframe as (-> & -> & ->).
  split; [done|]. split; [done|]. split; [done|]. intros i Hi.
  destruct (decide (i = k)) as [->|Hne].
  - unfold flagEntry, signOf, getLowerBound, getUpperBound. rewrite ?Hbm.
    destruct (isZero (coefficientAt row k)); simpl; by rewrite !assign_same.
  - assert (Hlt : (i < k)%nat) by lia. destruct (Hread i Hlt) as (H1 & H2 & H3).
    unfold flagEntry. destruct (isZero (coefficientAt row k)); simpl;
      by rewrite !assign_other.
Qed.

(** The state after the first loop of [tightenOnSingleInvertedBasisRow]. *)
Definition flagged (row : TableauRow) (st : State) : State :=
  fold_left (flagEntry row) (seq 0 (getN - getM)) st.

(** The bounds the second loop derives for [y]. *)
Definition boundsForBasic (row : TableauRow) (st : State) : double * double :=
  fold_left (accumulateBasic (flagged row st)) (seq 0 (getN - getM)) (_scalar row, _scalar row).

(** The state after the pass for [y]. *)
Definition afterBasic (row : TableauRow) (st : State) : Result N :=
  registerAndCheck None (_lhs row)
    (fst (boundsForBasic row st) - EXPLICIT_BASIS_BOUND_TIGHTENING_ROUNDING_CONSTANT cfg)%float
    (snd (boundsForBasic row st) + EXPLICIT_BASIS_BOUND_TIGHTENING_ROUNDING_CONSTANT cfg)%float
    0 (flagged row st).

(** [(auxLb, auxUb)] as the pass for the other variables starts. *)
Definition auxForNonBasic (row : TableauRow) (st : State) : double * double :=
  fold_left (accumulateAux st) (seq 0 (getN - getM))
    ((getLowerBound st (_lhs row) - _scalar row)%float,
     (getUpperBound st (_lhs row) - _scalar row)%float).

(** The bounds derived for the variable at position [i]. *)
Definition boundsForNonBasic (row : TableauRow) (st : State) (i : nat) : double * double :=
  let aux := auxForNonBasic row st in
  divideByCoefficient st (removeFromAux st (fst aux) (snd aux) i) i (coefficientAt row i).

Lemma tightenOnSingleInvertedBasisRow_unfold (row : TableauRow) (st : State) :
  tightenOnSingleInvertedBasisRow row st =
  match afterBasic row st with
  | Thrown e st => Thrown e st
  | Returned result st =>
      forEach (tightenNonBasic row (fst (auxForNonBasic row st)) (snd (auxForNonBasic row st)))
        (seq 0 (getN - getM)) result st
  end.
Proof.
  unfold tightenOnSingleInvertedBasisRow, afterBasic, boundsForBasic, flagged.
  destruct (fold_left (accumulateBasic _) _ _) as [lowerBound upperBound]. simpl.
  destruct (registerAndCheck _ _ _ _ _ _) as [result st'|e st']; [|done].
  unfold auxForNonBasic. by destruct (fold_left (accumulateAux _) _ _).
Qed.

(** The requests of one iteration of the last loop. *)
Definition requestsForNonBasic (row : TableauRow) (st : State) (i : nat) : list Request :=
  if isZERO (_ciSign st i) ||
     lt (PrimFloat.abs (coefficientAt row i)) (MINIMAL_COEFFICIENT_FOR_TIGHTENING cfg)
  then []
  else
    requestPair (Some i) (varAt row i)
      (fst (boundsForNonBasic row st i)
       - EXPLICIT_BASIS_BOUND_TIGHTENING_ROUNDING_CONSTANT cfg)%float
      (snd (boundsForNonBasic row st i)
       + EXPLICIT_BASIS_BOUND_TIGHTENING_ROUNDING_CONSTANT cfg)%float.

Lemma tightenNonBasic_effect (row : TableauRow) (st0 st : State) (i : nat) (result : N) :
  sameScratch st0 st ->
  let out := tightenNonBasic row (fst (auxForNonBasic row st0)) (snd (auxForNonBasic row st0))
               i result st in
  sameScratch st0 (stateOf out) /\
  requestsOf (stateOf out) = requestsOf st ++ requestsForNonBasic row st0 i.
Proof.
  intros Hsame. pose proof Hsame as (_ & Hlb & Hub & Hsign & _). cbv zeta.
  unfold tightenNonBasic, requestsForNonBasic, boundsForNonBasic,
    removeFromAux, divideByCoefficient.
  rewrite Hlb, Hub, Hsign.
  destruct (isZERO (_ciSign st0 i) || lt _ _); simpl.
  { split; [done|]. by rewrite app_nil_r. }
  destruct (isNEGATIVE (_ciSign st0 i)); simpl;
    match goal with |- context [registerAndCheck ?f ?v ?l ?u ?r ?s] =>
      destruct (registerAndCheck_effect f v l u r s) as (Hreq & Hscr & _)
    end; (split; [by eapply sameScratch_trans|done]).
Qed.

(** The requests of [tightenOnSingleInvertedBasisRow]: the pair for [y],
    then those of the positions gone through. *)
Lemma tightenOnSingleInvertedBasisRow_requests (row : TableauRow) (st : State) :
  let out := tightenOnSingleInvertedBasisRow row st in
  let sty := stateOf (afterBasic row st) in
  exists made rest,
    seq 0 (getN - getM) = made ++ rest /\
    requestsOf (stateOf out) =
      requestsOf st ++
      requestPair None (_lhs row)
        (fst (boundsForBasic row st)
         - EXPLICIT_BASIS_BOUND_TIGHTENING_ROUNDING_CONSTANT cfg)%float
        (snd (boundsForBasic row st)
         + EXPLICIT_BASIS_BOUND_TIGHTENING_ROUNDING_CONSTANT cfg)%float ++
      concat (map (requestsForNonBasic row sty) made) /\
    (isReturned out = true -> rest = []).
Proof.
  cbv zeta. rewrite tightenOnSingleInvertedBasisRow_unfold.
  destruct (registerAndCheck_effect None (_lhs row)
    (fst (boundsForBasic row st) - EXPLICIT_BASIS_BOUND_TIGHTENING_ROUNDING_CONSTANT cfg)%float
    (snd (boundsForBasic row st) + EXPLICIT_BASIS_BOUND_TIGHTENING_ROUNDING_CONSTANT cfg)%float
    0 (flagged row st)) as (Hreq & _).
  fold (afterBasic row st) in Hreq.
  assert (Hflag : requestsOf (flagged row st) = requestsOf st).
  { unfold requestsOf, flagged. by destruct (flagEntry_fold row st (getN - getM)) as (-> & _). }
  rewrite Hflag in Hreq.
  destruct (afterBasic row st) as [result sty|e sty]; simpl in *.
  - destruct (forEach_requests (sameScratch sty) (requestsForNonBasic row sty)
      (tightenNonBasic row (fst (auxForNonBasic row sty)) (snd (auxForNonBasic row sty)))
      (seq 0 (getN - getM))
      (fun x r s _ Hs => tightenNonBasic_effect row sty s x r Hs)
      result sty (sameScratch_refl sty)) as (made & rest & Hitems & Hreqs & Hret).
    exists made, rest. split; [done|]. split; [|done].
    rewrite Hreqs, Hreq. by rewrite <- app_assoc.
  - exists [], (seq 0 (getN - getM)). split; [done|]. split; [|done].
    rewrite Hreq. unfold requestPair. by simpl.
Qed.

(** *** The requests of a row of the constraint matrix *)

Lemma flagSparseEntry_fold (entries : list SparseEntry) (st : State) :
  let st' := fold_left flagSparseEntry entries st in
  _boundManager st' = _boundManager st /\
  _rows st' = _rows st /\
  _unreleasedInverses st' = _unreleasedInverses st.
Proof.
  revert st. induction entries as [|entry entries IH]; intros st; simpl; [done|].
  destruct (IH (flagSparseEntry st entry)) as (-> & -> & ->). done.
Qed.

(** The state after [std::fill_n] and the loop that flags the entries. *)
Definition flaggedSparse (row : nat) (st : State) : State :=
  fold_left flagSparseEntry (getSparseARow row)
    (with_products (fill_n (_ciTimesLb st) getN 0%float) (fill_n (_ciTimesUb st) getN 0%float)
       (fill_n (_ciSign st) getN ZERO) st).

Lemma flaggedSparse_frame (row : nat) (st : State) :
  _boundManager (flaggedSparse row st) = _boundManager st /\
  _rows (flaggedSparse row st) = _rows st /\
  _unreleasedInverses (flaggedSparse row st) = _unreleasedInverses st.
Proof.
  unfold flaggedSparse.
  destruct (flagSparseEntry_fold (getSparseARow row)
    (with_products (fill_n (_ciTimesLb st) getN 0%float) (fill_n (_ciTimesUb st) getN 0%float)
       (fill_n (_ciSign st) getN ZERO) st)) as (-> & -> & ->). done.
Qed.

Definition auxForRow (row : nat) (st : State) : double * double :=
  fold_left (accumulateAux (flaggedSparse row st)) (seq 0 getN)
    (getRightHandSide row, getRightHandSide row).

(** The bounds derived for the variable of [entry]. *)
Definition boundsForSparseEntry (row : nat) (st : State) (entry : SparseEntry) : double * double :=
  let aux := auxForRow row st in
  divideByCoefficient (flaggedSparse row st)
    (removeFromAux (flaggedSparse row st) (fst aux) (snd aux) (_index entry))
    (_index entry) (_value entry).

Definition requestsForSparseEntry (row : nat) (st : State) (item : nat * SparseEntry)
  : list Request :=
  if lt (PrimFloat.abs (_value (snd item))) (MINIMAL_COEFFICIENT_FOR_TIGHTENING cfg)
  then []
  else
    requestPair (Some (fst item)) (_index (snd item))
      (fst (boundsForSparseEntry row st (snd item)))
      (snd (boundsForSparseEntry row st (snd item))).

Lemma tightenOnSingleConstraintRow_unfold (row : nat) (st : State) :
  tightenOnSingleConstraintRow row st =
  forEach (tightenSparseEntry (fst (auxForRow row st)) (snd (auxForRow row st)))
    (positioned (getSparseARow row)) 0 (flaggedSparse row st).
Proof.
  unfold tightenOnSingleConstraintRow, auxForRow, flaggedSparse.
  by destruct (fold_left (accumulateAux _) _ _).
Qed.

Lemma tightenSparseEntry_effect (row : nat) (st0 st : State) (item : nat * SparseEntry)
  (result : N) :
  sameScratch (flaggedSparse row st0) st ->
  let out := tightenSparseEntry (fst (auxForRow row st0)) (snd (auxForRow row st0))
               item result st in
  sameScratch (flaggedSparse row st0) (stateOf out) /\
  requestsOf (stateOf out) = requestsOf st ++ requestsForSparseEntry row st0 item.
Proof.
  intros Hsame. pose proof Hsame as (_ & Hlb & Hub & Hsign & _). cbv zeta.
  destruct item as [position entry].
  unfold tightenSparseEntry, requestsForSparseEntry, boundsForSparseEntry,
    removeFromAux, divideByCoefficient. simpl.
  rewrite Hlb, Hub, Hsign.
  destruct (lt _ _); simpl.
  { split; [done|]. by rewrite app_nil_r. }
  destruct (isNEGATIVE (_ciSign (flaggedSparse row st0) (_index entry))); simpl;
    match goal with |- context [registerAndCheck ?f ?v ?l ?u ?r ?s] =>
      destruct (registerAndCheck_effect f v l u r s) as (Hreq & Hscr & _)
    end; (split; [by eapply sameScratch_trans|done]).
Qed.

Lemma tightenOnSingleConstraintRow_requests (row : nat) (st : State) :
  let out := tightenOnSingleConstraintRow row st in
  exists made rest,
    positioned (getSparseARow row) = made ++ rest /\
    requestsOf (stateOf out) =
      requestsOf st ++ concat (map (requestsForSparseEntry row st) made) /\
    (isReturned out = true -> rest = []).
Proof.
  cbv zeta. rewrite tightenOnSingleConstraintRow_unfold.
  destruct (forEach_requests (sameScratch (flaggedSparse row st))
    (requestsForSparseEntry row st)
    (tightenSparseEntry (fst (auxForRow row st)) (snd (auxForRow row st)))
    (positioned (getSparseARow row))
    (fun x r s _ Hs => tightenSparseEntry_effect row st s x r Hs)
    0 (flaggedSparse row st) (sameScratch_refl _)) as (made & rest & Hitems & Hreqs & Hret).
  exists made, rest. split; [done|]. split; [|done].
  rewrite Hreqs. unfold requestsOf.
  by destruct (flaggedSparse_frame row st) as (-> & _).
Qed.

Lemma elem_of_positioned {A} (l : list A) (k : nat) (x : A) :
  (k, x) ∈ positioned l <-> l !! k = Some x.
Proof.
  unfold positioned. rewrite elem_of_lookup_imap. split.
  - intros (i & y & Heq & Hl). by inversion Heq; subst.
  - intros Hl. by exists k, x.
Qed.

Lemma elem_of_concat_map {A B} (f : A -> list B) (l : list A) (y : B) :
  y ∈ concat (map f l) <-> exists x, x ∈ l /\ y ∈ f x.
Proof.
  induction l as [|a l IH]; simpl.
  - split; [by intros ?%elem_of_nil|by intros (x & ?%elem_of_nil & _)].
  - rewrite elem_of_app, IH. split.
    + intros [Hy|(x & Hx & Hy)]; [exists a|exists x]; split; try done;
        [by left|by right].
    + intros (x & [->|Hx]%elem_of_cons & Hy); [by left|right; by exists x].
Qed.

Lemma elem_of_requestPair (r : Request) (from : option nat) (v : nat) (lo up : double) :
  r ∈ requestPair from v lo up <->
  r = mkRequest from (mkTightening v lo LB) \/ r = mkRequest from (mkTightening v up UB).
Proof.
  unfold requestPair. rewrite !elem_of_cons, elem_of_nil. tauto.
Qed.

(** *** Properties: which entries are tightened on *)

Lemma afterBasic_scratch (row : TableauRow) (st : State) :
  sameScratch (flagged row st) (stateOf (afterBasic row st)).
Proof.
  unfold afterBasic.
  match goal with |- context [registerAndCheck ?f ?v ?l ?u ?r ?s] =>
    by destruct (registerAndCheck_effect f v l u r s) as (_ & Hscr & _)
  end.
Qed.

Lemma sign_afterBasic (row : TableauRow) (st : State) (i : nat) :
  (i < getN - getM)%nat ->
  _ciSign (stateOf (afterBasic row st)) i = signOf (coefficientAt row i).
Proof.
  intros Hi. destruct (afterBasic_scratch row st) as (_ & _ & _ & -> & _).
  unfold flagged. by destruct (flagEntry_fold row st (getN - getM)) as (_ & _ & _ & Hread);
    destruct (Hread i Hi) as (-> & _).
Qed.

Lemma isZERO_signOf (ci : double) : isZERO (signOf ci) = isZero ci.
Proof. unfold signOf. destruct (isZero ci); [done|]. by destruct (isPositive ci). Qed.

(** C2 (as amended).  In both kinds of rows, an entry is passed over
    without any request for its variable exactly when [FloatUtils::lt] finds
    the magnitude of its coefficient less than
    [MINIMAL_COEFFICIENT_FOR_TIGHTENING] (or, in a row of the inverted
    basis, when the coefficient is zero under [FloatUtils::isZero]).  Every
    other entry, hence one whose magnitude is the threshold itself as soon
    as [lt] is strict, gets its two requests in a pass that returns. *)
Theorem entries_below_threshold_are_skipped (row : TableauRow) (constraintRow : nat) (st : State) :
  let threshold := MINIMAL_COEFFICIENT_FOR_TIGHTENING cfg in
  let outBasis := tightenOnSingleInvertedBasisRow row st in
  let outMatrix := tightenOnSingleConstraintRow constraintRow st in
  exists newBasis newMatrix,
    requestsOf (stateOf outBasis) = requestsOf st ++ newBasis /\
    requestsOf (stateOf outMatrix) = requestsOf st ++ newMatrix /\
    (forall r i, r ∈ newBasis -> origin r = Some i ->
       lt (PrimFloat.abs (coefficientAt row i)) threshold = false /\
       isZero (coefficientAt row i) = false) /\
    (forall r k, r ∈ newMatrix -> origin r = Some k ->
       exists entry,
         getSparseARow constraintRow !! k = Some entry /\
         lt (PrimFloat.abs (_value entry)) threshold = false) /\
    (isReturned outBasis = true ->
     forall i, (i < getN - getM)%nat ->
       isZero (coefficientAt row i) = false ->
       lt (PrimFloat.abs (coefficientAt row i)) threshold = false ->
       exists lowerBound upperBound,
         forall r, r ∈ requestPair (Some i) (varAt row i) lowerBound upperBound -> r ∈ newBasis) /\
    (isReturned outMatrix = true ->
     forall k entry, getSparseARow constraintRow !! k = Some entry ->
       lt (PrimFloat.abs (_value entry)) threshold = false ->
       exists lowerBound upperBound,
         forall r, r ∈ requestPair (Some k) (_index entry) lowerBound upperBound -> r ∈ newMatrix).
Proof.
  cbv zeta.
  destruct (tightenOnSingleInvertedBasisRow_requests row st)
    as (madeB & restB & HitemsB & HreqB & HretB).
  destruct (tightenOnSingleConstraintRow_requests constraintRow st)
    as (madeM & restM & HitemsM & HreqM & HretM).
  eexists _, _. split; [exact HreqB|]. split; [exact HreqM|].
  split; [|split; [|split]].
  - intros r i [Hr|Hr]%elem_of_app Horigin.
    { apply elem_of_requestPair in Hr as [->| ->]; by simpl in Horigin. }
    apply elem_of_concat_map in Hr as (j & Hj & Hr).
    assert (Hlt : (j < getN - getM)%nat).
    { assert (Hin : j ∈ seq 0 (getN - getM)).
      { rewrite HitemsB. apply elem_of_app. by left. }
      apply elem_of_seq in Hin. lia. }
    unfold requestsForNonBasic in Hr. rewrite (sign_afterBasic row st j Hlt), isZERO_signOf in Hr.
    destruct (isZero (coefficientAt row j)) eqn:Hzero; simpl in Hr;
      [by apply elem_of_nil in Hr|].
    destruct (lt _ _) eqn:Hskip; [by apply elem_of_nil in Hr|].
    apply elem_of_requestPair in Hr as [->| ->]; simpl in Horigin;
      inversion Horigin; subst; by split.
  - intros r k Hr Horigin.
    apply elem_of_concat_map in Hr as ([j entry] & Hj & Hr).
    assert (Hin : (j, entry) ∈ positioned (getSparseARow constraintRow)).
    { rewrite HitemsM. apply elem_of_app. by left. }
    apply elem_of_positioned in Hin.
    unfold requestsForSparseEntry in Hr. simpl in Hr.
    destruct (lt _ _) eqn:Hskip; [by apply elem_of_nil in Hr|].
    apply elem_of_requestPair in Hr as [->| ->]; simpl in Horigin;
      inversion Horigin; subst; by exists entry.
  - intros Hret i Hi Hzero Hskip.
    rewrite (HretB Hret), app_nil_r in HitemsB.
    eexists _, _. intros r Hr. apply elem_of_app. right.
    apply elem_of_concat_map. exists i. split.
    { rewrite <- HitemsB. apply elem_of_seq. lia. }
    unfold requestsForNonBasic. rewrite (sign_afterBasic row st i Hi), isZERO_signOf.
    rewrite Hzero, Hskip. simpl. exact Hr.
  - intros Hret k entry Hentry Hskip.
    rewrite (HretM Hret), app_nil_r in HitemsM.
    eexists _, _. intros r Hr.
    apply elem_of_concat_map. exists (k, entry). split.
    { rewrite <- HitemsM. by apply elem_of_positioned. }
    unfold requestsForSparseEntry. simpl. rewrite Hskip. exact Hr.
Qed.

(** *** Properties: the rounding constant *)

(** C3 (as amended).  In a row of the inverted basis every value handed
    over as a lower bound is the bound derived minus
    [EXPLICIT_BASIS_BOUND_TIGHTENING_ROUNDING_CONSTANT], and every value
    handed over as an upper bound the bound derived plus that constant, for
    the basic variable and for the others alike.  In a row of the constraint
    matrix the values handed over are the derived bounds themselves. *)
Theorem rounding_constant_in_inverted_basis_rows (row : TableauRow) (constraintRow : nat)
  (st : State) :
  let rounding := EXPLICIT_BASIS_BOUND_TIGHTENING_ROUNDING_CONSTANT cfg in
  let sty := stateOf (afterBasic row st) in
  exists newBasis newMatrix,
    requestsOf (stateOf (tightenOnSingleInvertedBasisRow row st)) = requestsOf st ++ newBasis /\
    requestsOf (stateOf (tightenOnSingleConstraintRow constraintRow st))
      = requestsOf st ++ newMatrix /\
    (forall r, r ∈ newBasis ->
       match origin r with
       | None =>
           requested r = mkTightening (_lhs row) (fst (boundsForBasic row st) - rounding)%float LB \/
           requested r = mkTightening (_lhs row) (snd (boundsForBasic row st) + rounding)%float UB
       | Some i =>
           requested r =
             mkTightening (varAt row i) (fst (boundsForNonBasic row sty i) - rounding)%float LB \/
           requested r =
             mkTightening (varAt row i) (snd (boundsForNonBasic row sty i) + rounding)%float UB
       end) /\
    (forall r, r ∈ newMatrix ->
       exists k entry,
         origin r = Some k /\
         getSparseARow constraintRow !! k = Some entry /\
         (requested r =
            mkTightening (_index entry) (fst (boundsForSparseEntry constraintRow st entry)) LB \/
          requested r =
            mkTightening (_index entry) (snd (boundsForSparseEntry constraintRow st entry)) UB)).
Proof.
  cbv zeta.
  destruct (tightenOnSingleInvertedBasisRow_requests row st)
    as (madeB & restB & HitemsB & HreqB & HretB).
  destruct (tightenOnSingleConstraintRow_requests constraintRow st)
    as (madeM & restM & HitemsM & HreqM & HretM).
  eexists _, _. split; [exact HreqB|]. split; [exact HreqM|]. split.
  - intros r [Hr|Hr]%elem_of_app.
    { apply elem_of_requestPair in Hr as [->| ->]; simpl; [by left|by right]. }
    apply elem_of_concat_map in Hr as (j & Hj & Hr).
    unfold requestsForNonBasic in Hr.
    destruct (_ || _); [by apply elem_of_nil in Hr|].
    apply elem_of_requestPair in Hr as [->| ->]; simpl; [by left|by right].
  - intros r Hr.
    apply elem_of_concat_map in Hr as ([j entry] & Hj & Hr).
    assert (Hin : (j, entry) ∈ positioned (getSparseARow constraintRow)).
    { rewrite HitemsM. apply elem_of_app. by left. }
    apply elem_of_positioned in Hin.
    unfold requestsForSparseEntry in Hr. simpl in Hr.
    destruct (lt _ _); [by apply elem_of_nil in Hr|].
    exists j, entry. apply elem_of_requestPair in Hr as [->| ->]; simpl;
      (split; [done|]); (split; [done|]); [by left|by right].
Qed.

(** *** Properties: the bound of the basic variable *)

(** What the entry at position [i] adds to the lower and to the upper bound
    of [y]: nothing when its coefficient is zero under [isZero], and
    otherwise its coefficient times the bound of its variable that the sign
    of the coefficient selects. *)
Definition contributionToBasic (row : TableauRow) (st : State) (i : nat) : double * double :=
  let ci := coefficientAt row i in
  let xi := varAt row i in
  if isZero ci then (0%float, 0%float)
  else if isPositive ci
       then ((ci * getLowerBound st xi)%float, (ci * getUpperBound st xi)%float)
       else ((ci * getUpperBound st xi)%float, (ci * getLowerBound st xi)%float).

(** [b] plus the contribution of every entry of the row, in order. *)
Definition sumForBasic (row : TableauRow) (st : State) : double * double :=
  fold_left
    (fun bounds i =>
       ((fst bounds + fst (contributionToBasic row st i))%float,
        (snd bounds + snd (contributionToBasic row st i))%float))
    (seq 0 (getN - getM)) (_scalar row, _scalar row).

Lemma fold_left_ext_in {A B} (f g : A -> B -> A) (l : list B) :
  (forall a x, x ∈ l -> f a x = g a x) -> forall a, fold_left f l a = fold_left g l a.
Proof.
  induction l as [|x l IH]; intros Hfg a; simpl; [done|].
  rewrite Hfg by (by left). apply IH. intros a' y Hy. apply Hfg. by right.
Qed.

Lemma boundsForBasic_sum (row : TableauRow) (st : State) :
  boundsForBasic row st = sumForBasic row st.
Proof.
  unfold boundsForBasic, sumForBasic. apply fold_left_ext_in.
  intros [lowerBound upperBound] i Hi. apply elem_of_seq in Hi.
  unfold flagged. destruct (flagEntry_fold row st (getN - getM)) as (_ & _ & _ & Hread).
  destruct (Hread i ltac:(lia)) as (Hsign & Hlb & Hub).
  unfold accumulateBasic, contributionToBasic. rewrite Hsign, Hlb, Hub. unfold signOf.
  destruct (isZero (coefficientAt row i)); [done|].
  by destruct (isPositive (coefficientAt row i)).
Qed.

(** *** The explicit inverse is not touched by the passes *)

Lemma registerAndCheck_unreleased (from : option nat) (variable : nat)
  (newLowerBound newUpperBound : double) (result : N) (st : State) :
  _unreleasedInverses (stateOf (registerAndCheck from variable newLowerBound newUpperBound result st))
  = _unreleasedInverses st.
Proof.
  by destruct (registerAndCheck_effect from variable newLowerBound newUpperBound result st)
    as (_ & (_ & _ & _ & _ & Hinv) & _).
Qed.

Lemma forEach_unreleased {A} (body : A -> N -> State -> Result N) (items : list A) :
  (forall x r st, _unreleasedInverses (stateOf (body x r st)) = _unreleasedInverses st) ->
  forall r st, _unreleasedInverses (stateOf (forEach body items r st)) = _unreleasedInverses st.
Proof.
  intros Hbody r st.
  apply (forEach_preserves (fun s => _unreleasedInverses s = _unreleasedInverses st) body items);
    [|done].
  intros x r0 s0 _ H0. by rewrite Hbody.
Qed.

Lemma tightenOnSingleInvertedBasisRow_unreleased (row : TableauRow) (st : State) :
  _unreleasedInverses (stateOf (tightenOnSingleInvertedBasisRow row st)) = _unreleasedInverses st.
Proof.
  rewrite tightenOnSingleInvertedBasisRow_unfold.
  assert (Hy : _unreleasedInverses (stateOf (afterBasic row st)) = _unreleasedInverses st).
  { unfold afterBasic. rewrite registerAndCheck_unreleased. unfold flagged.
    by destruct (flagEntry_fold row st (getN - getM)) as (_ & _ & Hinv & _). }
  destruct (afterBasic row st) as [result sty|e sty]; simpl in *; [|done].
  rewrite forEach_unreleased; [done|].
  intros i r0 s0. unfold tightenNonBasic. destruct (_ || _); [done|].
  destruct (divideByCoefficient _ _ _ _). apply registerAndCheck_unreleased.
Qed.

Lemma tightenOnSingleConstraintRow_unreleased (row : nat) (st : State) :
  _unreleasedInverses (stateOf (tightenOnSingleConstraintRow row st)) = _unreleasedInverses st.
Proof.
  rewrite tightenOnSingleConstraintRow_unfold.
  rewrite forEach_unreleased; [by destruct (flaggedSparse_frame row st) as (_ & _ & Hinv)|].
  intros [position entry] r0 s0. unfold tightenSparseEntry. destruct (lt _ _); [done|].
  destruct (divideByCoefficient _ _ _ _). apply registerAndCheck_unreleased.
Qed.

Lemma accumulateRow_unreleased (tighten : State -> Result N) (newBounds : N) (st : State) :
  _unreleasedInverses (stateOf (tighten st)) = _unreleasedInverses st ->
  _unreleasedInverses (stateOf (accumulateRow tighten newBounds st)) = _unreleasedInverses st.
Proof. unfold accumulateRow. by destruct (tighten st). Qed.

Lemma onePassOverInvertedBasisRows_unreleased (st : State) :
  _unreleasedInverses (stateOf (onePassOverInvertedBasisRows st)) = _unreleasedInverses st.
Proof.
  apply forEach_unreleased. intros i r0 s0. apply accumulateRow_unreleased.
  apply tightenOnSingleInvertedBasisRow_unreleased.
Qed.

(** *** The loop of the examine routines *)

Lemma udec_spec (maxNumberOfIterations : N) :
  maxNumberOfIterations < UINT_RANGE ->
  udec maxNumberOfIterations =
  if maxNumberOfIterations =? 0 then UINT_RANGE - 1 else maxNumberOfIterations - 1.
Proof.
  intros Hlt. unfold udec. destruct (N.eqb_spec maxNumberOfIterations 0) as [->|Hne].
  - by apply N.mod_small.
  - replace (maxNumberOfIterations + (UINT_RANGE - 1))
      with (maxNumberOfIterations - 1 + 1 * UINT_RANGE) by (unfold UINT_RANGE in *; lia).
    rewrite N.Div0.mod_add. apply N.mod_small. lia.
Qed.

Lemma udec_lt (maxNumberOfIterations : N) : udec maxNumberOfIterations < UINT_RANGE.
Proof. unfold udec. by apply N.mod_lt. Qed.

(** The passes of a run of the loop: at least one, not more than the
    counter allows; every pass but the last has learned a bound; a run that
    ends before the counter is used up ends on a pass that learned nothing
    or threw; and the run throws exactly when its last pass threw. *)
Definition passesOfRun (maxNumberOfIterations : N) (passes : list (option N))
  (out : Result unit) : Prop :=
  (1 <= length passes <= N.to_nat (iterationsLeft maxNumberOfIterations))%nat /\
  (forall i pass, passes !! i = Some pass -> (S i < length passes)%nat ->
     exists learned, pass = Some learned /\ 0 < learned) /\
  ((length passes < N.to_nat (iterationsLeft maxNumberOfIterations))%nat ->
     last passes = Some (Some 0) \/ last passes = Some None) /\
  (last passes = Some None <-> isReturned out = false).

Lemma saturate_passes (onePass : State -> Result N) (fuel : nat) :
  forall (maxNumberOfIterations : N) (st : State),
    maxNumberOfIterations < UINT_RANGE ->
    (N.to_nat (iterationsLeft maxNumberOfIterations) <= fuel)%nat ->
    exists passes out,
      saturate onePass fuel maxNumberOfIterations st = Some (passes, out) /\
      passesOfRun maxNumberOfIterations passes out.
Proof.
  induction fuel as [|fuel IH]; intros maxIt st Hmax Hfuel.
  { unfold iterationsLeft, UINT_RANGE in *. destruct (N.eqb_spec maxIt 0); lia. }
  simpl. destruct (onePass st) as [learned st'|e st'].
  - pose proof (udec_spec maxIt Hmax) as Hdec. pose proof (udec_lt maxIt) as Hdeclt.
    assert (Hleft : udec maxIt <> 0 ->
              S (N.to_nat (iterationsLeft (udec maxIt))) = N.to_nat (iterationsLeft maxIt)).
    { intros Hne. unfold iterationsLeft in *. rewrite Hdec in *.
      destruct (N.eqb_spec maxIt 0) as [->|Hz]; simpl in *.
      - unfold UINT_RANGE. lia.
      - destruct (N.eqb_spec (maxIt - 1) 0); lia. }
    destruct (N.eqb_spec (udec maxIt) 0) as [Hzero|Hnonzero]; simpl.
    + exists [Some learned], (Returned tt st'). split; [done|].
      assert (Hone : N.to_nat (iterationsLeft maxIt) = 1%nat).
      { unfold iterationsLeft in *. rewrite Hdec in Hzero.
        destruct (N.eqb_spec maxIt 0) as [->|Hz]; [by unfold UINT_RANGE in Hzero|lia]. }
      unfold passesOfRun. simpl. rewrite Hone.
      repeat split; try lia; try done; try (intros; lia).
    + specialize (Hleft Hnonzero).
      destruct (N.ltb_spec 0 learned) as [Hpos|Hnone].
      * destruct (IH (udec maxIt) st' Hdeclt ltac:(lia)) as (passes & out & -> & Hrun).
        exists (Some learned :: passes), out. split; [done|].
        destruct Hrun as (Hlen & Hmid & Hend & Hthrown).
        assert (Hlast : last (Some learned :: passes) = last passes).
        { destruct passes; [simpl in Hlen; lia|done]. }
        unfold passesOfRun. rewrite Hlast. simpl. repeat split; try lia.
        -- intros [|i] pass Hlook Hi; simpl in *.
           ++ exists learned. by inversion Hlook.
           ++ apply (Hmid i pass Hlook). lia.
        -- intros Hshort. apply Hend. lia.
        -- apply Hthrown.
        -- apply Hthrown.
      * exists [Some learned], (Returned tt st'). split; [done|].
        assert (learned = 0) as -> by lia.
        unfold passesOfRun. simpl.
        repeat split; try lia; try done; try (intros; lia); try (by left).
  - exists [None], (Thrown e st'). split; [done|].
    assert (Hge : (1 <= N.to_nat (iterationsLeft maxIt))%nat).
    { unfold iterationsLeft, UINT_RANGE. destruct (N.eqb_spec maxIt 0); lia. }
    unfold passesOfRun. simpl.
    repeat split; try lia; try done; try (intros; lia); try (by right).
Qed.

Lemma initialIterations_lt (untilSaturation : bool) :
  initialIterations untilSaturation < UINT_RANGE.
Proof.
  unfold initialIterations. destruct untilSaturation; [by apply N.mod_lt|by unfold UINT_RANGE].
Qed.

Lemma saturationLoop_passes (onePass : State -> Result N) (untilSaturation : bool) (st : State) :
  exists passes out,
    saturationLoop onePass untilSaturation st = Some (passes, out) /\
    passesOfRun (initialIterations untilSaturation) passes out.
Proof.
  unfold saturationLoop. apply saturate_passes; [apply initialIterations_lt|done].
Qed.

Lemma onePassOverConstraintMatrix_unreleased (st : State) :
  _unreleasedInverses (stateOf (onePassOverConstraintMatrix st)) = _unreleasedInverses st.
Proof.
  apply forEach_unreleased. intros i r0 s0. apply accumulateRow_unreleased.
  apply tightenOnSingleConstraintRow_unreleased.
Qed.

(** The passes of a run, each made by [onePass] from the state that the
    pass before it has left.  An entry of the list is what that pass
    learned, or [None] when it threw; a pass that throws ends the run with
    its exception and its state, and a run that returns ends with the state
    its last pass has left. *)
Inductive runOfPasses (onePass : State -> Result N)
  : State -> list (option N) -> Result unit -> Prop :=
| run_last_pass st learned st' :
    onePass st = Returned learned st' ->
    runOfPasses onePass st [Some learned] (Returned tt st')
| run_pass_throws st e st' :
    onePass st = Thrown e st' ->
    runOfPasses onePass st [None] (Thrown e st')
| run_next_pass st learned st' passes out :
    onePass st = Returned learned st' ->
    runOfPasses onePass st' passes out ->
    runOfPasses onePass st (Some learned :: passes) out.

Lemma saturate_run (onePass : State -> Result N) (fuel : nat) :
  forall (maxNumberOfIterations : N) (st : State) passes out,
    saturate onePass fuel maxNumberOfIterations st = Some (passes, out) ->
    runOfPasses onePass st passes out.
Proof.
  induction fuel as [|fuel IH]; intros maxIt st passes out Hrun; simpl in Hrun; [done|].
  destruct (onePass st) as [learned st'|e st'] eqn:Hpass.
  - destruct (negb (udec maxIt =? 0) && (0 <? learned)).
    + destruct (saturate onePass fuel (udec maxIt) st') as [[passes' out']|] eqn:Hrec; [|done].
      inversion Hrun; subst. eapply run_next_pass; [exact Hpass|by eapply IH].
    + inversion Hrun; subst. by apply run_last_pass.
  - inversion Hrun; subst. by apply run_pass_throws.
Qed.

Lemma saturate_unreleased (onePass : State -> Result N) (fuel : nat) :
  (forall s, _unreleasedInverses (stateOf (onePass s)) = _unreleasedInverses s) ->
  forall (maxNumberOfIterations : N) (st : State) passes out,
    saturate onePass fuel maxNumberOfIterations st = Some (passes, out) ->
    _unreleasedInverses (stateOf out) = _unreleasedInverses st.
Proof.
  intros Hinv.
  induction fuel as [|fuel IH]; intros maxIt st passes out Hrun; simpl in Hrun; [done|].
  pose proof (Hinv st) as Hinv1.
  destruct (onePass st) as [learned st'|e st']; simpl in Hinv1.
  - destruct (negb (udec maxIt =? 0) && (0 <? learned)).
    + destruct (saturate onePass fuel (udec maxIt) st') as [[passes' out']|] eqn:Hrec; [|done].
      inversion Hrun; subst. rewrite (IH _ _ _ _ Hrec). exact Hinv1.
    + by inversion Hrun; subst.
  - by inversion Hrun; subst.
Qed.

(** [delete[] invB], on either way out of [examineInvertedBasisMatrix]. *)
Definition released (out : Result unit) : Result unit :=
  match out with
  | Returned _ st => Returned tt (with_unreleasedInverses (pred (_unreleasedInverses st)) st)
  | Thrown e st => Thrown e (with_unreleasedInverses (pred (_unreleasedInverses st)) st)
  end.

(** The state in which the passes of [examineImplicitInvertedBasisMatrix]
    and of [examineInvertedBasisMatrix] start. *)
Definition withImplicitRows (st : State) : State :=
  with_rows (map implicitRow (seq 0 getM)) st.

Definition withExplicitRows (st : State) : State :=
  with_rows (map (explicitRow getInverseBasisMatrix) (seq 0 getM))
    (with_unreleasedInverses (S (_unreleasedInverses st)) st).

Lemma examineInvertedBasisMatrix_released (untilSaturation : bool) (st : State) :
  examineInvertedBasisMatrix untilSaturation st =
  match saturationLoop onePassOverInvertedBasisRows untilSaturation (withExplicitRows st) with
  | Some (passes, out) => Some (passes, released out)
  | None => None
  end.
Proof.
  unfold examineInvertedBasisMatrix, withExplicitRows.
  destruct (saturationLoop _ _ _) as [[passes [[] s1|e s1]]|]; done.
Qed.

(** *** Properties: crossing bounds raise InfeasibleQuery *)

(** One tightening: the variable, the two bounds derived for it, and the
    entry of the row they come from ([None] for the basic variable). *)
Record Step : Type := mkStep {
  _from : option nat;
  _subject : nat;
  _lower : double;
  _upper : double;
}.

(** The state once the two bounds of a step are registered, before any
    test. *)
Definition registered (s : Step) (st : State) : State :=
  snd (registerTighterUpperBound (_from s) (_subject s) (_upper s)
         (snd (registerTighterLowerBound (_from s) (_subject s) (_lower s) st))).

(** The state once the first [k] of [steps] are registered. *)
Definition stateAfter (steps : list Step) (k : nat) (start : State) : State :=
  fold_left (fun st s => registered s st) (take k steps) start.

(** What the description asks of the tightenings [steps] made from
    [start]: as soon as the variable of a step has a lower bound above its
    upper bound, right after its two bounds are registered, the outcome is
    the exception, in the state of that moment; and the outcome is a return,
    with every step registered, only when that happened at no step. *)
Definition raisesAtFirstCrossing {A} (steps : list Step) (start : State) (out : Result A)
  : Prop :=
  (forall k s, steps !! k = Some s ->
     crossed (stateAfter steps (S k) start) (_subject s) = true ->
     isReturned out = false) /\
  match out with
  | Thrown InfeasibleQuery st' =>
      exists k s,
        steps !! k = Some s /\
        st' = stateAfter steps (S k) start /\
        crossed st' (_subject s) = true /\
        forall j s', (j < k)%nat -> steps !! j = Some s' ->
          crossed (stateAfter steps (S j) start) (_subject s') = false
  | Returned _ st' =>
      st' = stateAfter steps (length steps) start /\
      forall k s, steps !! k = Some s ->
        crossed (stateAfter steps (S k) start) (_subject s) = false
  end.

(** The tightening of a step as the rows make it: the two registrations
    and the test. *)
Definition registerStep (s : Step) (result : N) (st : State) : Result N :=
  registerAndCheck (_from s) (_subject s) (_lower s) (_upper s) result st.

Lemma registerStep_outcome (s : Step) (result : N) (st : State) :
  stateOf (registerStep s result st) = registered s st /\
  isReturned (registerStep s result st) = negb (crossed (registered s st) (_subject s)).
Proof.
  destruct s as [from variable newLowerBound newUpperBound].
  unfold registerStep, registered, registerAndCheck, registerTighterLowerBound,
    registerTighterUpperBound, tightenLowerBound, tightenUpperBound, crossed,
    getLowerBound, getUpperBound. simpl.
  destruct (gt newLowerBound _); simpl; destruct (lt newUpperBound _); simpl;
    match goal with |- context [if ?c then Thrown _ _ else _] => destruct c end; done.
Qed.

Lemma raisesAtFirstCrossing_cons {A} (s : Step) (steps : list Step) (start : State)
  (out : Result A) :
  crossed (registered s start) (_subject s) = false ->
  raisesAtFirstCrossing steps (registered s start) out ->
  raisesAtFirstCrossing (s :: steps) start out.
Proof.
  intros Hfirst [Hraise Hout]. split.
  - intros [|k] s0 Hk Hcross; simpl in Hk.
    + inversion Hk; subst. unfold stateAfter in Hcross. simpl in Hcross. congruence.
    + by apply (Hraise k s0).
  - destruct out as [r st'|[] st'].
    + destruct Hout as [Hst Hnone]. split; [done|].
      intros [|k] s0 Hk; simpl in Hk.
      * by inversion Hk; subst.
      * by apply (Hnone k s0).
    + destruct Hout as (k & s0 & Hk & Hst & Hcross & Hbefore).
      exists (S k), s0. split; [done|]. split; [done|]. split; [done|].
      intros [|j] s' Hj Hs'; simpl in Hs'.
      * by inversion Hs'; subst.
      * apply (Hbefore j s'); [lia|done].
Qed.

Lemma forEach_registerStep (steps : list Step) :
  forall (result : N) (start : State),
    raisesAtFirstCrossing steps start (forEach registerStep steps result start).
Proof.
  induction steps as [|s steps IH]; intros result start; simpl.
  - split; [by intros k s Hk|]. split; [done|]. by intros k s Hk.
  - destruct (registerStep_outcome s result start) as [Hstate Hret].
    destruct (registerStep s result start) as [r1 s1|[] s1]; simpl in *; subst s1.
    + apply raisesAtFirstCrossing_cons; [by destruct (crossed _ _)|apply IH].
    + assert (Hcross : crossed (registered s start) (_subject s) = true)
        by (by destruct (crossed _ _)).
      split; [done|]. exists O, s. split; [done|]. split; [done|]. split; [done|].
      intros j s' Hj. lia.
Qed.

Lemma raisesAtFirstCrossing_result {A B} (steps : list Step) (start : State)
  (out : Result A) (out' : Result B) :
  stateOf out' = stateOf out -> isReturned out' = isReturned out ->
  raisesAtFirstCrossing steps start out -> raisesAtFirstCrossing steps start out'.
Proof.
  intros Hstate Hret [Hraise Hout]. split.
  - intros k s Hk Hcross. rewrite Hret. by apply (Hraise k s).
  - destruct out as [r st'|[] st'], out' as [r' st''|[] st'']; simpl in *; subst; done.
Qed.

Lemma forEach_app {A} (body : A -> N -> State -> Result N) (l1 l2 : list A)
  (result : N) (st : State) :
  forEach body (l1 ++ l2) result st =
  match forEach body l1 result st with
  | Returned result st => forEach body l2 result st
  | Thrown e st => Thrown e st
  end.
Proof.
  revert result st. induction l1 as [|x l1 IH]; intros result st; simpl; [done|].
  destruct (body x result st) as [r1 s1|e s1]; [apply IH|done].
Qed.

Lemma forEach_registerStep_scratch (steps : list Step) (result : N) (st : State) :
  sameScratch st (stateOf (forEach registerStep steps result st)).
Proof.
  apply (forEach_preserves (sameScratch st)); [|apply sameScratch_refl].
  intros s r s0 _ Hs. eapply sameScratch_trans; [exact Hs|].
  unfold registerStep.
  by destruct (registerAndCheck_effect (_from s) (_subject s) (_lower s) (_upper s) r s0)
    as (_ & Hscr & _).
Qed.

Lemma forEach_steps {A} (body : A -> N -> State -> Result N) (stepsFor : A -> list Step)
  (P : State -> Prop) (items : list A) :
  (forall s steps r, P s -> P (stateOf (forEach registerStep steps r s))) ->
  (forall x r s, x ∈ items -> P s -> body x r s = forEach registerStep (stepsFor x) r s) ->
  forall r s, P s ->
    forEach body items r s = forEach registerStep (concat (map stepsFor items)) r s.
Proof.
  intros HP. induction items as [|x items IH]; intros Hbody r s Hs; simpl; [done|].
  rewrite forEach_app, (Hbody x r s) by (done || by left).
  pose proof (HP s (stepsFor x) r Hs) as Hs'.
  destruct (forEach registerStep (stepsFor x) r s) as [r1 s1|e s1]; simpl in *; [|done].
  apply IH; [|done]. intros y r0 s0 Hy. apply Hbody. by right.
Qed.

(** The tightenings of a row of the constraint matrix: one for every entry
    that is not passed over, with the bounds derived for it. *)
Definition stepsForSparseEntry (row : nat) (st : State) (item : nat * SparseEntry)
  : list Step :=
  if lt (PrimFloat.abs (_value (snd item))) (MINIMAL_COEFFICIENT_FOR_TIGHTENING cfg)
  then []
  else
    [mkStep (Some (fst item)) (_index (snd item))
       (fst (boundsForSparseEntry row st (snd item)))
       (snd (boundsForSparseEntry row st (snd item)))].

Definition stepsOfConstraintRow (row : nat) (st : State) : list Step :=
  concat (map (stepsForSparseEntry row st) (positioned (getSparseARow row))).

Lemma tightenOnSingleConstraintRow_steps (row : nat) (st : State) :
  tightenOnSingleConstraintRow row st =
  forEach registerStep (stepsOfConstraintRow row st) 0 (flaggedSparse row st).
Proof.
  rewrite tightenOnSingleConstraintRow_unfold. unfold stepsOfConstraintRow.
  apply (forEach_steps _ _ (sameScratch (flaggedSparse row st))); [| |apply sameScratch_refl].
  - intros s steps r Hs. eapply sameScratch_trans; [exact Hs|].
    apply forEach_registerStep_scratch.
  - intros [position entry] r s _ (_ & Hlb & Hub & Hsign & _).
    unfold tightenSparseEntry, stepsForSparseEntry, boundsForSparseEntry,
      removeFromAux, divideByCoefficient. simpl.
    rewrite Hlb, Hub, Hsign.
    destruct (lt _ _); simpl; [done|].
    destruct (isNEGATIVE (_ciSign (flaggedSparse row st) (_index entry))); simpl;
      unfold registerStep; simpl;
      by destruct (registerAndCheck _ _ _ _ _ _).
Qed.

(** The tightenings of a row of the inverted basis: the one for the basic
    variable, then one for every entry that is not passed over, with the
    bounds derived once the basic variable is done. *)
Definition stepForBasic (row : TableauRow) (st : State) : Step :=
  mkStep None (_lhs row)
    (fst (boundsForBasic row st) - EXPLICIT_BASIS_BOUND_TIGHTENING_ROUNDING_CONSTANT cfg)%float
    (snd (boundsForBasic row st) + EXPLICIT_BASIS_BOUND_TIGHTENING_ROUNDING_CONSTANT cfg)%float.

Definition stepsForNonBasic (row : TableauRow) (sty : State) (i : nat) : list Step :=
  if isZERO (_ciSign sty i) ||
     lt (PrimFloat.abs (coefficientAt row i)) (MINIMAL_COEFFICIENT_FOR_TIGHTENING cfg)
  then []
  else
    [mkStep (Some i) (varAt row i)
       (fst (boundsForNonBasic row sty i)
        - EXPLICIT_BASIS_BOUND_TIGHTENING_ROUNDING_CONSTANT cfg)%float
       (snd (boundsForNonBasic row sty i)
        + EXPLICIT_BASIS_BOUND_TIGHTENING_ROUNDING_CONSTANT cfg)%float].

Definition stepsOfBasisRow (row : TableauRow) (st : State) : list Step :=
  let first := stepForBasic row st in
  let sty := registered first (flagged row st) in
  first :: concat (map (stepsForNonBasic row sty) (seq 0 (getN - getM))).

Lemma tightenOnSingleInvertedBasisRow_steps (row : TableauRow) (st : State) :
  tightenOnSingleInvertedBasisRow row st =
  forEach registerStep (stepsOfBasisRow row st) 0 (flagged row st).
Proof.
  rewrite tightenOnSingleInvertedBasisRow_unfold. unfold stepsOfBasisRow. cbv zeta. simpl.
  change (afterBasic row st) with (registerStep (stepForBasic row st) 0 (flagged row st)).
  destruct (registerStep_outcome (stepForBasic row st) 0 (flagged row st)) as [Hstate _].
  destruct (registerStep (stepForBasic row st) 0 (flagged row st)) as [result sty|e sty];
    simpl in *; [|done].
  subst sty. set (sty := registered (stepForBasic row st) (flagged row st)).
  apply (forEach_steps _ _ (sameScratch sty)); [| |apply sameScratch_refl].
  - intros s steps r Hs. eapply sameScratch_trans; [exact Hs|].
    apply forEach_registerStep_scratch.
  - intros i r s _ (_ & Hlb & Hub & Hsign & _).
    unfold tightenNonBasic, stepsForNonBasic, boundsForNonBasic,
      removeFromAux, divideByCoefficient.
    rewrite Hlb, Hub, Hsign.
    destruct (isZERO (_ciSign sty i) || lt _ _); simpl; [done|].
    destruct (isNEGATIVE (_ciSign sty i)); simpl;
      unfold registerStep; simpl;
      by destruct (registerAndCheck _ _ _ _ _ _).
Qed.

(** The rows of a pass, each tightened on from the state that the row
    before it has left; the first row that throws ends the pass with its
    exception and its state. *)
Inductive rowsOfPass (tighten : nat -> State -> Result N)
  : list nat -> N -> State -> Result N -> Prop :=
| pass_over result st :
    rowsOfPass tighten [] result st (Returned result st)
| pass_row_throws i rows result st e st' :
    tighten i st = Thrown e st' ->
    rowsOfPass tighten (i :: rows) result st (Thrown e st')
| pass_next_row i rows result st learned st' out :
    tighten i st = Returned learned st' ->
    rowsOfPass tighten rows (uadd result learned) st' out ->
    rowsOfPass tighten (i :: rows) result st out.

Lemma forEach_rowsOfPass (tighten : nat -> State -> Result N) (rows : list nat) :
  forall (result : N) (st : State),
    rowsOfPass tighten rows result st
      (forEach (fun i result st => accumulateRow (tighten i) result st) rows result st).
Proof.
  induction rows as [|i rows IH]; intros result st; simpl; [apply pass_over|].
  unfold accumulateRow at 1.
  destruct (tighten i st) as [learned st'|e st'] eqn:Hrow.
  - eapply pass_next_row; [exact Hrow|apply IH].
  - by apply pass_row_throws.
Qed.

(** C5 (as amended).  The two bounds of a variable are registered and then
    tested: when the lower bound is above the upper bound under
    [FloatUtils::gt], the row throws [InfeasibleQueryException] there and
    then, in both kinds of rows and in the pivot row; it returns, with every
    tightening registered, only when no variable it tightened came out of
    the test crossed.  A row that throws ends its pass with that exception,
    a pass that throws ends the run of every examine routine with it, none
    swallows it, and [examineInvertedBasisMatrix] has released the explicit
    inverse it obtained whether it returns or throws. *)
Theorem crossing_bounds_raise (untilSaturation : bool) (row : TableauRow) (constraintRow : nat)
  (st : State) :
  raisesAtFirstCrossing (stepsOfBasisRow row st) (flagged row st)
    (tightenOnSingleInvertedBasisRow row st) /\
  raisesAtFirstCrossing (stepsOfConstraintRow constraintRow st) (flaggedSparse constraintRow st)
    (tightenOnSingleConstraintRow constraintRow st) /\
  raisesAtFirstCrossing (stepsOfBasisRow getPivotRow st) (flagged getPivotRow st)
    (examinePivotRow st) /\
  rowsOfPass (fun i s => tightenOnSingleInvertedBasisRow (rowAt s i) s) (seq 0 getM) 0 st
    (onePassOverInvertedBasisRows st) /\
  rowsOfPass tightenOnSingleConstraintRow (seq 0 getM) 0 st
    (onePassOverConstraintMatrix st) /\
  (exists passes out,
     examineConstraintMatrix untilSaturation st = Some (passes, out) /\
     runOfPasses onePassOverConstraintMatrix st passes out) /\
  (exists passes out,
     examineImplicitInvertedBasisMatrix untilSaturation st = Some (passes, out) /\
     runOfPasses onePassOverInvertedBasisRows (withImplicitRows st) passes out) /\
  (exists passes out,
     examineInvertedBasisMatrix untilSaturation st = Some (passes, released out) /\
     runOfPasses onePassOverInvertedBasisRows (withExplicitRows st) passes out /\
     _unreleasedInverses (stateOf (released out)) = _unreleasedInverses st).
Proof.
  split.
  { rewrite tightenOnSingleInvertedBasisRow_steps. apply forEach_registerStep. }
  split.
  { rewrite tightenOnSingleConstraintRow_steps. apply forEach_registerStep. }
  split.
  { apply (raisesAtFirstCrossing_result _ _
             (forEach registerStep (stepsOfBasisRow getPivotRow st) 0 (flagged getPivotRow st)));
      [| |apply forEach_registerStep];
      unfold examinePivotRow; rewrite tightenOnSingleInvertedBasisRow_steps;
      by destruct (forEach registerStep _ _ _). }
  split.
  { apply (forEach_rowsOfPass (fun i s => tightenOnSingleInvertedBasisRow (rowAt s i) s)). }
  split.
  { apply (forEach_rowsOfPass tightenOnSingleConstraintRow). }
  split.
  { destruct (saturationLoop_passes onePassOverConstraintMatrix untilSaturation st)
      as (passes & out & Hrun & _).
    exists passes, out. split; [done|]. by eapply saturate_run. }
  split.
  { destruct (saturationLoop_passes onePassOverInvertedBasisRows untilSaturation
                (withImplicitRows st)) as (passes & out & Hrun & _).
    exists passes, out. split; [done|]. by eapply saturate_run. }
  destruct (saturationLoop_passes onePassOverInvertedBasisRows untilSaturation
              (withExplicitRows st)) as (passes & out & Hrun & _).
  exists passes, out. rewrite examineInvertedBasisMatrix_released, Hrun.
  split; [done|]. split; [by eapply saturate_run|].
  pose proof (saturate_unreleased _ _ onePassOverInvertedBasisRows_unreleased _ _ _ _ Hrun)
    as Hinv.
  destruct out as [[] s1|e s1]; simpl in *; by rewrite Hinv.
Qed.

(** *** Properties: the number of passes *)

(** The passes of a run are passes made by [onePass] from [start], one
    after the other, and they are as many as configured: one without
    [untilSaturation], and with it no more than
    [ROW_BOUND_TIGHTENER_SATURATION_ITERATIONS]; every pass but the last has
    learned a bound, so the run stops right after the first pass that learns
    none (or throws); and a run of fewer passes than the cap ends on such a
    pass.  [finish] is what the routine does to the outcome on its way
    out. *)
Definition passesAsConfigured (onePass : State -> Result N) (start : State)
  (finish : Result unit -> Result unit) (untilSaturation : bool)
  (run : option (list (option N) * Result unit)) : Prop :=
  exists passes out,
    run = Some (passes, finish out) /\
    runOfPasses onePass start passes out /\
    (if untilSaturation
     then (1 <= length passes <= N.to_nat (ROW_BOUND_TIGHTENER_SATURATION_ITERATIONS cfg))%nat
     else length passes = 1%nat) /\
    (forall i pass, passes !! i = Some pass -> (S i < length passes)%nat ->
       exists learned, pass = Some learned /\ 0 < learned) /\
    (untilSaturation = true ->
     (length passes < N.to_nat (ROW_BOUND_TIGHTENER_SATURATION_ITERATIONS cfg))%nat ->
     last passes = Some (Some 0) \/ last passes = Some None).

Lemma saturationLoop_asConfigured (onePass : State -> Result N) (untilSaturation : bool)
  (st : State) :
  0 < ROW_BOUND_TIGHTENER_SATURATION_ITERATIONS cfg < UINT_RANGE ->
  exists passes out,
    saturationLoop onePass untilSaturation st = Some (passes, out) /\
    runOfPasses onePass st passes out /\
    (if untilSaturation
     then (1 <= length passes <= N.to_nat (ROW_BOUND_TIGHTENER_SATURATION_ITERATIONS cfg))%nat
     else length passes = 1%nat) /\
    (forall i pass, passes !! i = Some pass -> (S i < length passes)%nat ->
       exists learned, pass = Some learned /\ 0 < learned) /\
    (untilSaturation = true ->
     (length passes < N.to_nat (ROW_BOUND_TIGHTENER_SATURATION_ITERATIONS cfg))%nat ->
     last passes = Some (Some 0) \/ last passes = Some None).
Proof.
  intros Hcap.
  destruct (saturationLoop_passes onePass untilSaturation st)
    as (passes & out & Hrun & (Hlen & Hmid & Hend & _)).
  exists passes, out. split; [done|]. split; [by eapply saturate_run|].
  assert (Hleft : N.to_nat (iterationsLeft (initialIterations untilSaturation)) =
                  if untilSaturation
                  then N.to_nat (ROW_BOUND_TIGHTENER_SATURATION_ITERATIONS cfg) else 1%nat).
  { unfold iterationsLeft, initialIterations. destruct untilSaturation; [|done].
    rewrite N.mod_small by lia.
    destruct (N.eqb_spec (ROW_BOUND_TIGHTENER_SATURATION_ITERATIONS cfg) 0); [lia|done]. }
  rewrite Hleft in Hlen, Hend. split; [|split; [done|]].
  - destruct untilSaturation; [done|lia].
  - intros ->. exact Hend.
Qed.

(** C6.  With a cap [ROW_BOUND_TIGHTENER_SATURATION_ITERATIONS] that is a
    positive [unsigned], each of the three examine routines makes its passes
    over the rows one after the other, each from the state the pass before
    has left: one pass when [untilSaturation] is false, and otherwise at
    most as many passes as the cap, stopping right after the first pass that
    learns no bound. *)
Theorem saturation_passes (untilSaturation : bool) (st : State) :
  0 < ROW_BOUND_TIGHTENER_SATURATION_ITERATIONS cfg < UINT_RANGE ->
  passesAsConfigured onePassOverConstraintMatrix st (fun out => out) untilSaturation
    (examineConstraintMatrix untilSaturation st) /\
  passesAsConfigured onePassOverInvertedBasisRows (withImplicitRows st) (fun out => out)
    untilSaturation (examineImplicitInvertedBasisMatrix untilSaturation st) /\
  passesAsConfigured onePassOverInvertedBasisRows (withExplicitRows st) released
    untilSaturation (examineInvertedBasisMatrix untilSaturation st).
Proof.
  intros Hcap.
  split; [exact (saturationLoop_asConfigured onePassOverConstraintMatrix untilSaturation st Hcap)|].
  split.
  { exact (saturationLoop_asConfigured onePassOverInvertedBasisRows untilSaturation
             (withImplicitRows st) Hcap). }
  destruct (saturationLoop_asConfigured onePassOverInvertedBasisRows untilSaturation
              (withExplicitRows st) Hcap) as (passes & out & Hrun & Hrest).
  exists passes, out. by rewrite examineInvertedBasisMatrix_released, Hrun.
Qed.

(** ** More of the tightener *)

(** *** An exception means crossing bounds *)

(** An outcome that, when it is an exception, comes right after a request
    for an upper bound that left the variable of the request with a lower
    bound above its upper bound. *)
Definition thrownOnCrossing {A} (out : Result A) : Prop :=
  forall e st', out = Thrown e st' ->
    exists r,
      last (requestsOf st') = Some r /\
      _type (requested r) = UB /\
      crossed st' (_variable (requested r)) = true.

Lemma registerAndCheck_thrown (from : option nat) (variable : nat)
  (newLowerBound newUpperBound : double) (result : N) (st : State) :
  thrownOnCrossing (registerAndCheck from variable newLowerBound newUpperBound result st).
Proof.
  intros e st'.
  unfold registerAndCheck, registerTighterLowerBound, registerTighterUpperBound,
    tightenLowerBound, tightenUpperBound, requestsOf, crossed, getLowerBound, getUpperBound.
  destruct (gt newLowerBound _); simpl; destruct (lt newUpperBound _); simpl;
    match goal with |- context [if ?c then Thrown _ _ else _] => destruct c eqn:Hcross end;
    intros Heq; inversion Heq; subst; simpl;
    (eexists; split; [apply last_snoc|by split]).
Qed.

Lemma forEach_thrown {A} (body : A -> N -> State -> Result N) (items : list A) :
  (forall x r st, thrownOnCrossing (body x r st)) ->
  forall r st, thrownOnCrossing (forEach body items r st).
Proof.
  intros Hbody. induction items as [|x items IH]; intros r st; simpl.
  - by intros e st' Heq.
  - pose proof (Hbody x r st) as Hx.
    destruct (body x r st) as [r1 s1|e1 s1]; [apply IH|].
    intros e st' Heq. inversion Heq; subst. exact (Hx _ _ eq_refl).
Qed.

Lemma tightenOnSingleInvertedBasisRow_thrown (row : TableauRow) (st : State) :
  thrownOnCrossing (tightenOnSingleInvertedBasisRow row st).
Proof.
  rewrite tightenOnSingleInvertedBasisRow_unfold. unfold afterBasic.
  match goal with |- context [registerAndCheck ?f ?v ?l ?u ?r ?s] =>
    pose proof (registerAndCheck_thrown f v l u r s) as Hy;
    destruct (registerAndCheck f v l u r s) as [result sty|e sty]
  end.
  - apply forEach_thrown. intros i r0 s0. unfold tightenNonBasic.
    destruct (_ || _); [by intros e st' Heq|].
    destruct (divideByCoefficient _ _ _ _). apply registerAndCheck_thrown.
  - intros e' st' Heq. inversion Heq; subst. exact (Hy _ _ eq_refl).
Qed.

Lemma tightenOnSingleConstraintRow_thrown (row : nat) (st : State) :
  thrownOnCrossing (tightenOnSingleConstraintRow row st).
Proof.
  rewrite tightenOnSingleConstraintRow_unfold.
  apply forEach_thrown. intros [position entry] r0 s0. unfold tightenSparseEntry.
  destruct (lt _ _); [by intros e st' Heq|].
  destruct (divideByCoefficient _ _ _ _). apply registerAndCheck_thrown.
Qed.

Lemma accumulateRow_thrown (tighten : State -> Result N) (newBounds : N) (st : State) :
  thrownOnCrossing (tighten st) -> thrownOnCrossing (accumulateRow tighten newBounds st).
Proof.
  intros Ht. unfold accumulateRow. destruct (tighten st) as [learned s1|e1 s1].
  - by intros e st' Heq.
  - intros e st' Heq. inversion Heq; subst. exact (Ht _ _ eq_refl).
Qed.

Lemma onePassOverInvertedBasisRows_thrown (st : State) :
  thrownOnCrossing (onePassOverInvertedBasisRows st).
Proof.
  apply forEach_thrown. intros i r0 s0. apply accumulateRow_thrown.
  apply tightenOnSingleInvertedBasisRow_thrown.
Qed.

Lemma onePassOverConstraintMatrix_thrown (st : State) :
  thrownOnCrossing (onePassOverConstraintMatrix st).
Proof.
  apply forEach_thrown. intros i r0 s0. apply accumulateRow_thrown.
  apply tightenOnSingleConstraintRow_thrown.
Qed.

Lemma saturate_thrown (onePass : State -> Result N) (fuel : nat) :
  (forall s, thrownOnCrossing (onePass s)) ->
  forall (maxNumberOfIterations : N) (st : State) passes out,
    saturate onePass fuel maxNumberOfIterations st = Some (passes, out) ->
    thrownOnCrossing out.
Proof.
  intros Hpass.
  induction fuel as [|fuel IH]; intros maxIt st passes out Hrun; simpl in Hrun; [done|].
  pose proof (Hpass st) as Hst.
  destruct (onePass st) as [learned s1|e1 s1].
  - destruct (negb (udec maxIt =? 0) && (0 <? learned)).
    + destruct (saturate onePass fuel (udec maxIt) s1) as [[passes' out']|] eqn:Hrec; [|done].
      inversion Hrun; subst. by eapply IH.
    + inversion Hrun; subst. by intros e st' Heq.
  - inversion Hrun; subst. intros e st' Heq. inversion Heq; subst. exact (Hst _ _ eq_refl).
Qed.

(** X13.  [InfeasibleQueryException] is thrown for one reason only: in the
    state at the moment of the exception, the last request made to the bound
    manager was for an upper bound, and the variable of that request has a
    lower bound above its upper bound under [FloatUtils::gt].  This holds
    for a single row of either kind, for the pivot row and for the three
    examine routines. *)
Theorem infeasible_query_means_crossing (untilSaturation : bool) (row : TableauRow)
  (constraintRow : nat) (st : State) :
  thrownOnCrossing (tightenOnSingleInvertedBasisRow row st) /\
  thrownOnCrossing (tightenOnSingleConstraintRow constraintRow st) /\
  thrownOnCrossing (examinePivotRow st) /\
  (forall passes out, examineConstraintMatrix untilSaturation st = Some (passes, out) ->
     thrownOnCrossing out) /\
  (forall passes out, examineImplicitInvertedBasisMatrix untilSaturation st = Some (passes, out) ->
     thrownOnCrossing out) /\
  (forall passes out, examineInvertedBasisMatrix untilSaturation st = Some (passes, out) ->
     thrownOnCrossing out).
Proof.
  split; [apply tightenOnSingleInvertedBasisRow_thrown|].
  split; [apply tightenOnSingleConstraintRow_thrown|].
  split.
  { unfold examinePivotRow.
    pose proof (tightenOnSingleInvertedBasisRow_thrown getPivotRow st) as Hrow.
    destruct (tightenOnSingleInvertedBasisRow getPivotRow st) as [r s1|e1 s1].
    - by intros e st' Heq.
    - intros e st' Heq. inversion Heq; subst. exact (Hrow _ _ eq_refl). }
  split.
  { intros passes out Hrun. unfold examineConstraintMatrix, saturationLoop in Hrun.
    eapply saturate_thrown; [apply onePassOverConstraintMatrix_thrown|exact Hrun]. }
  split.
  { intros passes out Hrun.
    unfold examineImplicitInvertedBasisMatrix, saturationLoop in Hrun.
    eapply saturate_thrown; [apply onePassOverInvertedBasisRows_thrown|exact Hrun]. }
  intros passes out Hrun. unfold examineInvertedBasisMatrix in Hrun.
  destruct (saturationLoop _ _ _) as [[passes' [[] s1|e1 s1]]|] eqn:Hloop; [| |done].
  - inversion Hrun; subst. by intros e st' Heq.
  - inversion Hrun; subst. intros e st' Heq. inversion Heq; subst.
    unfold saturationLoop in Hloop.
    exact (saturate_thrown _ _ onePassOverInvertedBasisRows_thrown _ _ _ _ Hloop e s1 eq_refl).
Qed.

(** *** A cap of zero *)

(** A run of passes made by [onePass] from [start], one after the other,
    that goes on for as long as its passes learn bounds, up to the range of
    the counter.  [finish] is what the routine does to the outcome on its
    way out. *)
Definition passesUntilIdle (onePass : State -> Result N) (start : State)
  (finish : Result unit -> Result unit)
  (run : option (list (option N) * Result unit)) : Prop :=
  exists passes out,
    run = Some (passes, finish out) /\
    runOfPasses onePass start passes out /\
    (1 <= length passes <= N.to_nat UINT_RANGE)%nat /\
    (forall i pass, passes !! i = Some pass -> (S i < length passes)%nat ->
       exists learned, pass = Some learned /\ 0 < learned) /\
    ((length passes < N.to_nat UINT_RANGE)%nat ->
     last passes = Some (Some 0) \/ last passes = Some None).

Lemma saturationLoop_zero_cap (onePass : State -> Result N) (st : State) :
  ROW_BOUND_TIGHTENER_SATURATION_ITERATIONS cfg mod UINT_RANGE = 0 ->
  exists passes out,
    saturationLoop onePass true st = Some (passes, out) /\
    runOfPasses onePass st passes out /\
    (1 <= length passes <= N.to_nat UINT_RANGE)%nat /\
    (forall i pass, passes !! i = Some pass -> (S i < length passes)%nat ->
       exists learned, pass = Some learned /\ 0 < learned) /\
    ((length passes < N.to_nat UINT_RANGE)%nat ->
     last passes = Some (Some 0) \/ last passes = Some None).
Proof.
  intros Hcap.
  destruct (saturationLoop_passes onePass true st)
    as (passes & out & Hrun & (Hlen & Hmid & Hend & _)).
  assert (Hleft : iterationsLeft (initialIterations true) = UINT_RANGE).
  { unfold iterationsLeft, initialIterations. by rewrite Hcap. }
  rewrite Hleft in Hlen, Hend.
  exists passes, out. split; [done|]. split; [by eapply saturate_run|done].
Qed.

(** X14.  A cap [ROW_BOUND_TIGHTENER_SATURATION_ITERATIONS] of zero does
    not mean "no pass" or "one pass": the counter is decremented before it is
    tested, so from zero it wraps around, and with [untilSaturation] each
    examine routine makes pass after pass over the rows, each from the state
    the pass before has left, for as long as the passes learn bounds (up to
    [2^32] passes). *)
Theorem zero_cap_is_no_cap (st : State) :
  ROW_BOUND_TIGHTENER_SATURATION_ITERATIONS cfg mod UINT_RANGE = 0 ->
  passesUntilIdle onePassOverConstraintMatrix st (fun out => out)
    (examineConstraintMatrix true st) /\
  passesUntilIdle onePassOverInvertedBasisRows (withImplicitRows st) (fun out => out)
    (examineImplicitInvertedBasisMatrix true st) /\
  passesUntilIdle onePassOverInvertedBasisRows (withExplicitRows st) released
    (examineInvertedBasisMatrix true st).
Proof.
  intros Hcap.
  split; [exact (saturationLoop_zero_cap onePassOverConstraintMatrix st Hcap)|].
  split; [exact (saturationLoop_zero_cap onePassOverInvertedBasisRows (withImplicitRows st) Hcap)|].
  destruct (saturationLoop_zero_cap onePassOverInvertedBasisRows (withExplicitRows st) Hcap)
    as (passes & out & Hrun & Hrest).
  exists passes, out. by rewrite examineInvertedBasisMatrix_released, Hrun.
Qed.

(** *** Nothing but the bounds is carried from one call to the next *)

(** What a caller sees of an outcome: the result or the exception, and the
    bound manager. *)
Definition verdict {A} (out : Result A) : option A * BoundManager :=
  (match out with Returned r _ => Some r | Thrown _ _ => None end, _boundManager (stateOf out)).

Definition runVerdict (run : option (list (option N) * Result unit))
  : option (list (option N) * (option unit * BoundManager)) :=
  match run with
  | Some (passes, out) => Some (passes, verdict out)
  | None => None
  end.

(** Two states with the same bound manager whose scratch arrays agree on
    the positions in [D]. *)
Definition agreeOn (D : nat -> Prop) (s1 s2 : State) : Prop :=
  _boundManager s1 = _boundManager s2 /\
  forall i, D i ->
    _ciSign s1 i = _ciSign s2 i /\
    _ciTimesLb s1 i = _ciTimesLb s2 i /\
    _ciTimesUb s1 i = _ciTimesUb s2 i.

Lemma agreeOn_weaken (D D' : nat -> Prop) (s1 s2 : State) :
  (forall i, D' i -> D i) -> agreeOn D s1 s2 -> agreeOn D' s1 s2.
Proof. intros Hsub [Hbm Hscr]. split; [done|]. intros i Hi. apply Hscr. by apply Hsub. Qed.

Lemma verdict_boundManager {A} (o1 o2 : Result A) :
  verdict o1 = verdict o2 -> _boundManager (stateOf o1) = _boundManager (stateOf o2).
Proof. unfold verdict. intros Heq. by inversion Heq. Qed.

Lemma registerAndCheck_verdict (from : option nat) (variable : nat)
  (newLowerBound newUpperBound : double) (result : N) (s1 s2 : State) :
  _boundManager s1 = _boundManager s2 ->
  verdict (registerAndCheck from variable newLowerBound newUpperBound result s1) =
  verdict (registerAndCheck from variable newLowerBound newUpperBound result s2).
Proof.
  intros Hbm.
  unfold verdict, registerAndCheck, registerTighterLowerBound, registerTighterUpperBound,
    tightenLowerBound, tightenUpperBound, getLowerBound, getUpperBound.
  rewrite Hbm.
  destruct (gt newLowerBound _); simpl; destruct (lt newUpperBound _); simpl;
    match goal with |- context [if ?c then Thrown _ _ else _] => destruct c end; done.
Qed.

Lemma registerAndCheck_agree (D : nat -> Prop) (from : option nat) (variable : nat)
  (newLowerBound newUpperBound : double) (result : N) (s1 s2 : State) :
  agreeOn D s1 s2 ->
  verdict (registerAndCheck from variable newLowerBound newUpperBound result s1) =
  verdict (registerAndCheck from variable newLowerBound newUpperBound result s2) /\
  agreeOn D (stateOf (registerAndCheck from variable newLowerBound newUpperBound result s1))
    (stateOf (registerAndCheck from variable newLowerBound newUpperBound result s2)).
Proof.
  intros [Hbm Hscr].
  pose proof (registerAndCheck_verdict from variable newLowerBound newUpperBound result s1 s2 Hbm)
    as Hv.
  split; [done|]. split; [by apply verdict_boundManager|].
  destruct (registerAndCheck_effect from variable newLowerBound newUpperBound result s1)
    as (_ & (_ & Hl1 & Hu1 & Hs1 & _) & _).
  destruct (registerAndCheck_effect from variable newLowerBound newUpperBound result s2)
    as (_ & (_ & Hl2 & Hu2 & Hs2 & _) & _).
  cbv zeta in *. rewrite Hl1, Hu1, Hs1, Hl2, Hu2, Hs2. exact Hscr.
Qed.

Lemma forEach_agree {A} (R : State -> State -> Prop) (body : A -> N -> State -> Result N)
  (items : list A) :
  (forall s1 s2, R s1 s2 -> _boundManager s1 = _boundManager s2) ->
  (forall x r s1 s2, x ∈ items -> R s1 s2 ->
     verdict (body x r s1) = verdict (body x r s2) /\
     R (stateOf (body x r s1)) (stateOf (body x r s2))) ->
  forall r s1 s2, R s1 s2 ->
    verdict (forEach body items r s1) = verdict (forEach body items r s2) /\
    R (stateOf (forEach body items r s1)) (stateOf (forEach body items r s2)).
Proof.
  intros HR. induction items as [|x items IH]; intros Hbody r s1 s2 H12; simpl.
  - split; [|done]. unfold verdict. simpl. by rewrite (HR s1 s2 H12).
  - destruct (Hbody x r s1 s2 ltac:(by left) H12) as [Hv Hs].
    destruct (body x r s1) as [r1 t1|e1 t1], (body x r s2) as [r2 t2|e2 t2];
      simpl in *; try (by inversion Hv).
    assert (r1 = r2) as -> by (by inversion Hv).
    apply IH; [|done]. intros y r0 u1 u2 Hy. apply Hbody. by right.
Qed.

Lemma fold_accumulateBasic_agree (k : nat) (t1 t2 : State) (init : double * double) :
  agreeOn (fun i => (i < k)%nat) t1 t2 ->
  fold_left (accumulateBasic t1) (seq 0 k) init = fold_left (accumulateBasic t2) (seq 0 k) init.
Proof.
  intros [_ Hscr]. apply fold_left_ext_in. intros [lowerBound upperBound] i Hi.
  apply elem_of_seq in Hi. destruct (Hscr i ltac:(lia)) as (Hs & Hl & Hu).
  unfold accumulateBasic. by rewrite Hs, Hl, Hu.
Qed.

Lemma fold_accumulateAux_agree (D : nat -> Prop) (k : nat) (t1 t2 : State)
  (init : double * double) :
  (forall i, (i < k)%nat -> D i) ->
  agreeOn D t1 t2 ->
  fold_left (accumulateAux t1) (seq 0 k) init = fold_left (accumulateAux t2) (seq 0 k) init.
Proof.
  intros HD [_ Hscr]. apply fold_left_ext_in. intros [auxLb auxUb] i Hi.
  apply elem_of_seq in Hi. destruct (Hscr i (HD i ltac:(lia))) as (Hs & Hl & Hu).
  unfold accumulateAux. by rewrite Hs, Hl, Hu.
Qed.

Lemma flagged_agree (row : TableauRow) (s1 s2 : State) :
  _boundManager s1 = _boundManager s2 ->
  agreeOn (fun i => (i < getN - getM)%nat) (flagged row s1) (flagged row s2).
Proof.
  intros Hbm. unfold flagged.
  destruct (flagEntry_fold row s1 (getN - getM)) as (Hbm1 & _ & _ & Hread1).
  destruct (flagEntry_fold row s2 (getN - getM)) as (Hbm2 & _ & _ & Hread2).
  cbv zeta in *. split; [congruence|]. intros i Hi.
  destruct (Hread1 i Hi) as (-> & -> & ->). destruct (Hread2 i Hi) as (-> & -> & ->).
  unfold getLowerBound, getUpperBound. by rewrite Hbm.
Qed.

Lemma tightenNonBasic_agree (row : TableauRow) (auxLb auxUb : double) (i : nat) (result : N)
  (s1 s2 : State) :
  (i < getN - getM)%nat ->
  agreeOn (fun i => (i < getN - getM)%nat) s1 s2 ->
  verdict (tightenNonBasic row auxLb auxUb i result s1) =
  verdict (tightenNonBasic row auxLb auxUb i result s2) /\
  agreeOn (fun i => (i < getN - getM)%nat)
    (stateOf (tightenNonBasic row auxLb auxUb i result s1))
    (stateOf (tightenNonBasic row auxLb auxUb i result s2)).
Proof.
  intros Hi H12. pose proof H12 as [Hbm Hscr]. destruct (Hscr i Hi) as (Hs & Hl & Hu).
  unfold tightenNonBasic, removeFromAux, divideByCoefficient. rewrite Hs, Hl, Hu.
  destruct (_ || _).
  { split; [|done]. unfold verdict. simpl. by rewrite Hbm. }
  destruct (isNEGATIVE (_ciSign s2 i)); by apply registerAndCheck_agree.
Qed.

Lemma tightenOnSingleInvertedBasisRow_verdict (row : TableauRow) (s1 s2 : State) :
  _boundManager s1 = _boundManager s2 ->
  verdict (tightenOnSingleInvertedBasisRow row s1) =
  verdict (tightenOnSingleInvertedBasisRow row s2).
Proof.
  intros Hbm. rewrite !tightenOnSingleInvertedBasisRow_unfold.
  pose proof (flagged_agree row s1 s2 Hbm) as Hflag.
  assert (Hbounds : boundsForBasic row s1 = boundsForBasic row s2).
  { unfold boundsForBasic. by apply fold_accumulateBasic_agree. }
  unfold afterBasic. rewrite Hbounds.
  match goal with |- context [registerAndCheck ?f ?v ?l ?u ?r (flagged row s1)] =>
    destruct (registerAndCheck_agree _ f v l u r _ _ Hflag) as [Hv Hy];
    destruct (registerAndCheck f v l u r (flagged row s1)) as [r1 t1|e1 t1],
             (registerAndCheck f v l u r (flagged row s2)) as [r2 t2|e2 t2]
  end; simpl in *; try (by inversion Hv).
  assert (r1 = r2) as -> by (by inversion Hv).
  assert (Haux : auxForNonBasic row t1 = auxForNonBasic row t2).
  { unfold auxForNonBasic, getLowerBound, getUpperBound. destruct Hy as [Hbmy Hscr].
    rewrite Hbmy. by apply (fold_accumulateAux_agree (fun i => (i < getN - getM)%nat)). }
  rewrite Haux.
  apply (forEach_agree (agreeOn (fun i => (i < getN - getM)%nat))); [by intros ? ? [? _]| |done].
  intros i r u1 u2 Hi%elem_of_seq Hu. apply tightenNonBasic_agree; [lia|done].
Qed.

Lemma flagSparseEntry_agree (D : nat -> Prop) (entry : SparseEntry) (s1 s2 : State) :
  agreeOn D s1 s2 ->
  agreeOn (fun j => D j \/ j = _index entry) (flagSparseEntry s1 entry) (flagSparseEntry s2 entry).
Proof.
  intros [Hbm Hscr]. split; [done|]. intros j Hj.
  unfold flagSparseEntry, getLowerBound, getUpperBound. simpl. rewrite Hbm.
  destruct (decide (j = _index entry)) as [->|Hne].
  - by rewrite !assign_same.
  - rewrite !assign_other by done. apply Hscr. by destruct Hj.
Qed.

Lemma fold_flagSparseEntry_agree (entries : list SparseEntry) :
  forall (D : nat -> Prop) (s1 s2 : State),
    agreeOn D s1 s2 ->
    agreeOn (fun j => D j \/ j ∈ map _index entries)
      (fold_left flagSparseEntry entries s1) (fold_left flagSparseEntry entries s2).
Proof.
  induction entries as [|entry entries IH]; intros D s1 s2 H12; simpl.
  - eapply agreeOn_weaken; [|exact H12]. intros j [Hj|Hj]; [done|by apply elem_of_nil in Hj].
  - eapply agreeOn_weaken; [|apply IH, flagSparseEntry_agree, H12].
    intros j [Hj|[->|Hj]%elem_of_cons]; [by left; left|by left; right|by right].
Qed.

Definition touchedByRow (row : nat) (j : nat) : Prop :=
  (j < getN)%nat \/ j ∈ map _index (getSparseARow row).

Lemma flaggedSparse_agree (row : nat) (s1 s2 : State) :
  _boundManager s1 = _boundManager s2 ->
  agreeOn (touchedByRow row) (flaggedSparse row s1) (flaggedSparse row s2).
Proof.
  intros Hbm. unfold flaggedSparse, touchedByRow.
  apply (fold_flagSparseEntry_agree (getSparseARow row) (fun j => (j < getN)%nat)).
  split; [done|]. intros j Hj. simpl. unfold fill_n.
  by destruct (Nat.ltb_spec j getN); [|lia].
Qed.

Lemma tightenSparseEntry_agree (row : nat) (auxLb auxUb : double) (item : nat * SparseEntry)
  (result : N) (s1 s2 : State) :
  touchedByRow row (_index (snd item)) ->
  agreeOn (touchedByRow row) s1 s2 ->
  verdict (tightenSparseEntry auxLb auxUb item result s1) =
  verdict (tightenSparseEntry auxLb auxUb item result s2) /\
  agreeOn (touchedByRow row)
    (stateOf (tightenSparseEntry auxLb auxUb item result s1))
    (stateOf (tightenSparseEntry auxLb auxUb item result s2)).
Proof.
  destruct item as [position entry]. simpl.
  intros Hin H12. pose proof H12 as [Hbm Hscr]. destruct (Hscr _ Hin) as (Hs & Hl & Hu).
  unfold tightenSparseEntry, removeFromAux, divideByCoefficient. rewrite Hs, Hl, Hu.
  destruct (lt _ _).
  { split; [|done]. unfold verdict. simpl. by rewrite Hbm. }
  destruct (isNEGATIVE (_ciSign s2 (_index entry))); by apply registerAndCheck_agree.
Qed.

Lemma tightenOnSingleConstraintRow_verdict (row : nat) (s1 s2 : State) :
  _boundManager s1 = _boundManager s2 ->
  verdict (tightenOnSingleConstraintRow row s1) = verdict (tightenOnSingleConstraintRow row s2).
Proof.
  intros Hbm. rewrite !tightenOnSingleConstraintRow_unfold.
  pose proof (flaggedSparse_agree row s1 s2 Hbm) as Hflag.
  assert (Haux : auxForRow row s1 = auxForRow row s2).
  { unfold auxForRow. apply (fold_accumulateAux_agree (touchedByRow row)); [|done].
    intros i Hi. by left. }
  rewrite Haux.
  apply (forEach_agree (agreeOn (touchedByRow row))); [by intros ? ? [? _]| |done].
  intros [position entry] r u1 u2 Hitem Hu. apply tightenSparseEntry_agree; [|done].
  apply elem_of_positioned in Hitem. simpl. right.
  apply list_elem_of_fmap. exists entry. split; [done|]. by eapply list_elem_of_lookup_2.
Qed.

Lemma accumulateRow_verdict (tighten : State -> Result N) (newBounds : N) (s1 s2 : State) :
  verdict (tighten s1) = verdict (tighten s2) ->
  verdict (accumulateRow tighten newBounds s1) = verdict (accumulateRow tighten newBounds s2).
Proof.
  unfold accumulateRow, verdict.
  destruct (tighten s1) as [r1 t1|e1 t1], (tighten s2) as [r2 t2|e2 t2]; simpl;
    intros Hv; by inversion Hv.
Qed.

Lemma onePassOverConstraintMatrix_verdict (s1 s2 : State) :
  _boundManager s1 = _boundManager s2 ->
  verdict (onePassOverConstraintMatrix s1) = verdict (onePassOverConstraintMatrix s2).
Proof.
  intros Hbm.
  apply (forEach_agree (fun u1 u2 => _boundManager u1 = _boundManager u2)); [done| |done].
  intros i r u1 u2 _ Hu.
  pose proof (accumulateRow_verdict (tightenOnSingleConstraintRow i) r u1 u2
                (tightenOnSingleConstraintRow_verdict i u1 u2 Hu)) as Hv.
  split; [done|]. by apply verdict_boundManager.
Qed.

Lemma tightenOnSingleInvertedBasisRow_rows (row : TableauRow) (st : State) :
  _rows (stateOf (tightenOnSingleInvertedBasisRow row st)) = _rows st.
Proof.
  rewrite tightenOnSingleInvertedBasisRow_unfold.
  assert (Hy : _rows (stateOf (afterBasic row st)) = _rows st).
  { destruct (afterBasic_scratch row st) as (-> & _). unfold flagged.
    by destruct (flagEntry_fold row st (getN - getM)) as (_ & Hrows & _). }
  destruct (afterBasic row st) as [result sty|e sty]; simpl in *; [|done].
  rewrite <- Hy.
  apply (forEach_preserves (fun s => _rows s = _rows sty)); [|done].
  intros i r0 s0 _ H0. unfold tightenNonBasic. destruct (_ || _); [done|].
  destruct (divideByCoefficient _ _ _ _).
  match goal with |- context [registerAndCheck ?f ?v ?l ?u ?r ?s] =>
    by destruct (registerAndCheck_effect f v l u r s) as (_ & (-> & _) & _)
  end.
Qed.

(** Two states with the same bound manager and the same rows. *)
Definition sameBoundsAndRows (s1 s2 : State) : Prop :=
  _boundManager s1 = _boundManager s2 /\ _rows s1 = _rows s2.

Lemma onePassOverInvertedBasisRows_agree (s1 s2 : State) :
  sameBoundsAndRows s1 s2 ->
  verdict (onePassOverInvertedBasisRows s1) = verdict (onePassOverInvertedBasisRows s2) /\
  sameBoundsAndRows (stateOf (onePassOverInvertedBasisRows s1))
    (stateOf (onePassOverInvertedBasisRows s2)).
Proof.
  intros H12.
  apply (forEach_agree sameBoundsAndRows); [by intros ? ? [? _]| |done].
  intros i r u1 u2 _ [Hbm Hrows].
  assert (Hrow : rowAt u1 i = rowAt u2 i) by (unfold rowAt; by rewrite Hrows).
  rewrite Hrow.
  pose proof (accumulateRow_verdict (tightenOnSingleInvertedBasisRow (rowAt u2 i)) r u1 u2
                (tightenOnSingleInvertedBasisRow_verdict (rowAt u2 i) u1 u2 Hbm)) as Hv.
  split; [done|]. split; [by apply verdict_boundManager|].
  pose proof (tightenOnSingleInvertedBasisRow_rows (rowAt u2 i) u1) as R1.
  pose proof (tightenOnSingleInvertedBasisRow_rows (rowAt u2 i) u2) as R2.
  unfold accumulateRow.
  destruct (tightenOnSingleInvertedBasisRow (rowAt u2 i) u1),
           (tightenOnSingleInvertedBasisRow (rowAt u2 i) u2); simpl in *; congruence.
Qed.

Lemma saturate_agree (R : State -> State -> Prop) (onePass : State -> Result N) (fuel : nat) :
  (forall s1 s2, R s1 s2 -> _boundManager s1 = _boundManager s2) ->
  (forall s1 s2, R s1 s2 ->
     verdict (onePass s1) = verdict (onePass s2) /\
     R (stateOf (onePass s1)) (stateOf (onePass s2))) ->
  forall (maxNumberOfIterations : N) (s1 s2 : State),
    R s1 s2 ->
    runVerdict (saturate onePass fuel maxNumberOfIterations s1) =
    runVerdict (saturate onePass fuel maxNumberOfIterations s2).
Proof.
  intros HR Hpass. induction fuel as [|fuel IH]; intros maxIt s1 s2 H12; simpl; [done|].
  destruct (Hpass s1 s2 H12) as [Hv Hs].
  destruct (onePass s1) as [r1 t1|e1 t1], (onePass s2) as [r2 t2|e2 t2];
    simpl in *; try (by inversion Hv).
  - assert (r1 = r2) as -> by (by inversion Hv).
    destruct (negb (udec maxIt =? 0) && (0 <? r2)).
    + specialize (IH (udec maxIt) t1 t2 Hs).
      destruct (saturate onePass fuel (udec maxIt) t1) as [[p1 o1]|],
               (saturate onePass fuel (udec maxIt) t2) as [[p2 o2]|];
        simpl in *; congruence.
    + simpl. unfold verdict. simpl. by rewrite (HR t1 t2 Hs).
  - unfold verdict in *. simpl in *. congruence.
Qed.

(** X15.  The tightener carries nothing but the bounds from one call to the
    next: what is left in the scratch arrays [_ciTimesLb], [_ciTimesUb] and
    [_ciSign] and in [_rows] by earlier work has no influence.  From two
    states with the same bound manager, a row of either kind, the pivot row
    and each of the three examine routines give the same result or
    exception, the same passes and the same bound manager. *)
Theorem passes_depend_on_bounds_only (untilSaturation : bool) (row : TableauRow)
  (constraintRow : nat) (s1 s2 : State) :
  _boundManager s1 = _boundManager s2 ->
  verdict (tightenOnSingleInvertedBasisRow row s1) =
    verdict (tightenOnSingleInvertedBasisRow row s2) /\
  verdict (tightenOnSingleConstraintRow constraintRow s1) =
    verdict (tightenOnSingleConstraintRow constraintRow s2) /\
  verdict (examinePivotRow s1) = verdict (examinePivotRow s2) /\
  runVerdict (examineConstraintMatrix untilSaturation s1) =
    runVerdict (examineConstraintMatrix untilSaturation s2) /\
  runVerdict (examineImplicitInvertedBasisMatrix untilSaturation s1) =
    runVerdict (examineImplicitInvertedBasisMatrix untilSaturation s2) /\
  runVerdict (examineInvertedBasisMatrix untilSaturation s1) =
    runVerdict (examineInvertedBasisMatrix untilSaturation s2).
Proof.
  intros Hbm.
  split; [by apply tightenOnSingleInvertedBasisRow_verdict|].
  split; [by apply tightenOnSingleConstraintRow_verdict|].
  split.
  { unfold examinePivotRow.
    pose proof (tightenOnSingleInvertedBasisRow_verdict getPivotRow s1 s2 Hbm) as Hv.
    destruct (tightenOnSingleInvertedBasisRow getPivotRow s1),
             (tightenOnSingleInvertedBasisRow getPivotRow s2);
      unfold verdict in *; simpl in *; by inversion Hv. }
  split.
  { unfold examineConstraintMatrix, saturationLoop.
    apply (saturate_agree (fun u1 u2 => _boundManager u1 = _boundManager u2)); [done| |done].
    intros u1 u2 Hu. pose proof (onePassOverConstraintMatrix_verdict u1 u2 Hu) as Hv.
    split; [done|]. by apply verdict_boundManager. }
  split.
  { unfold examineImplicitInvertedBasisMatrix, saturationLoop.
    apply (saturate_agree sameBoundsAndRows); [by intros ? ? [? _]| |by split].
    apply onePassOverInvertedBasisRows_agree. }
  unfold examineInvertedBasisMatrix.
  assert (Hrun : runVerdict (saturationLoop onePassOverInvertedBasisRows untilSaturation
                   (with_rows (map (explicitRow getInverseBasisMatrix) (seq 0 getM))
                      (with_unreleasedInverses (S (_unreleasedInverses s1)) s1))) =
                 runVerdict (saturationLoop onePassOverInvertedBasisRows untilSaturation
                   (with_rows (map (explicitRow getInverseBasisMatrix) (seq 0 getM))
                      (with_unreleasedInverses (S (_unreleasedInverses s2)) s2)))).
  { unfold saturationLoop.
    apply (saturate_agree sameBoundsAndRows); [by intros ? ? [? _]| |by split].
    apply onePassOverInvertedBasisRows_agree. }
  destruct (saturationLoop _ _ _) as [[p1 [[] t1|e1 t1]]|],
           (saturationLoop _ _ _) as [[p2 [[] t2|e2 t2]]|];
    unfold runVerdict, verdict in *; simpl in *; by inversion Hrun.
Qed.

End WithTableau.

(** [cfg] with another [MINIMAL_COEFFICIENT_FOR_TIGHTENING]. *)
Definition withThreshold (threshold : double) (cfg : GlobalConfiguration) : GlobalConfiguration :=
  Build_GlobalConfiguration (USE_LEAST_FIX cfg) (ROW_BOUND_TIGHTENER_SATURATION_ITERATIONS cfg)
    threshold (EXPLICIT_BASIS_BOUND_TIGHTENING_ROUNDING_CONSTANT cfg).

(** C10.  In [tightenOnSingleInvertedBasisRow] the two bounds requested for
    the basic variable [y] are [b] plus the contribution of every entry of
    the row, taken in order, minus and plus the rounding constant.  An entry
    contributes nothing only when its coefficient is zero under
    [FloatUtils::isZero]; [MINIMAL_COEFFICIENT_FOR_TIGHTENING] plays no part:
    whatever threshold is configured, the two requests are the same. *)
Theorem basic_bound_uses_every_entry {FU : FloatUtils} {tableau : ITableau}
  (cfg : GlobalConfiguration) (row : TableauRow) (st : State) :
  let rounding := EXPLICIT_BASIS_BOUND_TIGHTENING_ROUNDING_CONSTANT cfg in
  let forBasic :=
    requestPair None (_lhs row)
      (fst (sumForBasic row st) - rounding)%float
      (snd (sumForBasic row st) + rounding)%float in
  (exists rest,
     requestsOf (stateOf (tightenOnSingleInvertedBasisRow cfg row st)) =
     requestsOf st ++ forBasic ++ rest) /\
  (forall threshold : double,
     exists rest,
       requestsOf (stateOf (tightenOnSingleInvertedBasisRow (withThreshold threshold cfg) row st)) =
       requestsOf st ++ forBasic ++ rest).
Proof.
  cbv zeta. split.
  - destruct (tightenOnSingleInvertedBasisRow_requests cfg row st)
      as (made & rest & _ & Hreq & _).
    rewrite boundsForBasic_sum in Hreq.
    eexists. exact Hreq.
  - intros threshold.
    destruct (tightenOnSingleInvertedBasisRow_requests (withThreshold threshold cfg) row st)
      as (made & rest & _ & Hreq & _).
    rewrite boundsForBasic_sum in Hreq.
    eexists. exact Hreq.
Qed.

End RowBoundTightener.

(** ** Concrete runs *)

Module Examples.

#[local] Set Warnings "-inexact-float".
Local Open Scope nat_scope.

(** Modelled from the spec: the fixed tolerance of the comparisons of
    [FloatUtils] ([FloatUtils.h] is not among the sources). *)
Definition tolerance : double := 0.0000000001%float.

Definition tolerantIsZero (x : double) : bool :=
  PrimFloat.leb (- tolerance)%float x && PrimFloat.leb x tolerance.

Definition tolerantIsPositive (x : double) : bool :=
  negb (tolerantIsZero x) && PrimFloat.ltb 0%float x.

(** Modelled from the spec: the comparisons of [FloatUtils] ([FloatUtils.h]
    is not among the sources).  They are strict and use a fixed tolerance:
    a number is zero when it lies within the tolerance of zero, positive
    when it lies above it, and [gt x y], [lt x y] compare the difference
    with the tolerance; numbers that are equal, or equal within the
    tolerance, are neither [gt] nor [lt]. *)
#[local] Instance tolerantFloatUtils : FloatUtils := {|
  isZero := tolerantIsZero;
  isPositive := tolerantIsPositive;
  gt x y := tolerantIsPositive (x - y)%float;
  lt x y := tolerantIsPositive (y - x)%float;
|}.

(** A configuration: a cap of twenty passes, a threshold of 0.01 for the
    coefficients and a rounding constant of 1e-10. *)
Definition sampleConfiguration (leastFix : bool) : GlobalConfiguration := {|
  USE_LEAST_FIX := leastFix;
  ROW_BOUND_TIGHTENER_SATURATION_ITERATIONS := 20%N;
  MINIMAL_COEFFICIENT_FOR_TIGHTENING := 0.01%float;
  EXPLICIT_BASIS_BOUND_TIGHTENING_ROUNDING_CONSTANT := 0.0000000001%float;
|}.

Definition leastFix : GlobalConfiguration := sampleConfiguration true.

(** *** The decision stack *)

Import SmtCore.

(** An engine without proof production, in which the first split applied
    after the last restore is inconsistent when it asks for [x0 >= 0], and
    in which the constraint [7] is the only inactive one. *)
Definition asksForNonNegative (split : PiecewiseLinearCaseSplit) : bool :=
  match getBoundTightenings split with
  | [t] => match _type t with LB => true | UB => false end
  | _ => false
  end.

Definition xNonNegative : PiecewiseLinearCaseSplit := mkSplit [mkTightening 0 0%float LB] [].
Definition xNonPositive : PiecewiseLinearCaseSplit := mkSplit [mkTightening 0 0%float UB] [].

#[local] Instance sampleEngine : IEngine := {|
  consistentBounds calls :=
    match last calls with
    | Some (engine_applySplit split) => negb (asksForNonNegative split)
    | _ => true
    end;
  shouldProduceProofs _ := false;
  hasUNSATCertificateRoot _ := false;
  hasUNSATCertificateCurrentPointer _ := false;
  isActive _ c := negb (Nat.eqb c 7);
  getCaseSplits _ _ := [xNonNegative; xNonPositive];
|}.

Definition initialState (candidate : option ConstraintId) : State := {|
  _stack := [];
  _impliedValidSplitsAtRoot := [];
  _needToSplit := true;
  _constraintForSplitting := candidate;
  _nextStateId := 0%N;
  _constraintToViolationCount := {[ 10 := 3%N; 11 := 1%N; 12 := 5%N ]};
  _numRejectedPhasePatternProposal := 2%N;
  _debuggingSolution := ∅;
  _contextLevel := 0;
  _calls := [];
|}.

(** The state after a split on the constraint [3]: one frame with [x0 >= 0]
    active and [x0 <= 0] left, under one context level. *)
Definition afterSplit : State := {|
  _stack := [mkEntry xNonNegative [] [xNonPositive] (mkEngineState 0%N)];
  _impliedValidSplitsAtRoot := [];
  _needToSplit := false;
  _constraintForSplitting := None;
  _nextStateId := 1%N;
  _constraintToViolationCount := {[ 10 := 3%N; 11 := 1%N; 12 := 5%N ]};
  _numRejectedPhasePatternProposal := 0%N;
  _debuggingSolution := ∅;
  _contextLevel := 1;
  _calls := [constraint_setActiveConstraint 3 false;
             engine_storeState (mkEngineState 0%N) STORE_BOUNDS_ONLY;
             engine_preContextPushHook; context_push; engine_applySplit xNonNegative];
|}.

Example performSplit_active :
  performSplit (initialState (Some 3)) = Some afterSplit.
Proof. reflexivity. Qed.

(** The scenario of the description: the active case [x0 >= 0] has led to
    infeasibility; [popSplit] restores the snapshot and applies [x0 <= 0],
    and [allSplitsSoFar] is then that one split. *)
Example popSplit_next_case :
  exists st',
    popSplit afterSplit = Some (Returned true st') /\
    allSplitsSoFar st' = [xNonPositive] /\
    _contextLevel st' = 1 /\
    _calls st' = _calls afterSplit ++
      [context_pop; engine_postContextPopHook; engine_restoreState (mkEngineState 0%N);
       engine_preContextPushHook; context_push; engine_applySplit xNonPositive].
Proof. eexists. split; [vm_compute; reflexivity|]. by repeat split. Qed.

(** A debugging solution [x0 = 1] is stored, and the stack complies with it:
    the active split [x0 >= 0] allows it. *)
Definition debuggingState : State := {|
  _stack := _stack afterSplit;
  _impliedValidSplitsAtRoot := [];
  _needToSplit := false;
  _constraintForSplitting := None;
  _nextStateId := 1%N;
  _constraintToViolationCount := ∅;
  _numRejectedPhasePatternProposal := 0%N;
  _debuggingSolution := {[ 0 := 1%float ]};
  _contextLevel := 1;
  _calls := _calls afterSplit;
|}.

(** C1, counterexample.  The frame on top has an alternative left, and yet
    [popSplit] returns neither [true] nor [false]: it throws the debugging
    error and leaves frame, context and engine as they were. *)
Lemma popSplit_debugging_error :
  popSplit debuggingState = Some (Thrown DEBUGGING_ERROR debuggingState) /\
  back (_stack debuggingState)
    = Some (mkEntry xNonNegative [] [xNonPositive] (mkEngineState 0%N)).
Proof. split; reflexivity. Qed.

(** C4, at the inactive constraint [7]. *)
Lemma performSplit_inactive_witness :
  _constraintForSplitting (initialState (Some 7)) = Some 7 /\
  isActive (_calls (initialState (Some 7))) 7 = false /\
  exists st',
    performSplit (initialState (Some 7)) = Some st' /\
    _needToSplit st' = false /\
    _constraintForSplitting st' = None /\
    _stack st' = _stack (initialState (Some 7)) /\
    _contextLevel st' = _contextLevel (initialState (Some 7)) /\
    _calls st' = _calls (initialState (Some 7)) /\
    _impliedValidSplitsAtRoot st' = _impliedValidSplitsAtRoot (initialState (Some 7)) /\
    _nextStateId st' = _nextStateId (initialState (Some 7)) /\
    _constraintToViolationCount st'
      = <[7 := 0%N]> (_constraintToViolationCount (initialState (Some 7))) /\
    _numRejectedPhasePatternProposal st' = 0%N.
Proof.
  split; [reflexivity|]. split; [reflexivity|].
  apply (performSplit_inactive (initialState (Some 7)) 7); reflexivity.
Defined.

(** C7, at the state after one split. *)
Lemma stack_depth_is_context_level_witness :
  length (_stack afterSplit) = _contextLevel afterSplit /\
  (forall st', performSplit afterSplit = Some st' ->
     getStackDepth st' = _contextLevel st' /\
     pushes st' + length (_stack afterSplit) = pushes afterSplit + length (_stack st') /\
     pops st' = pops afterSplit /\
     length (_stack afterSplit) <= length (_stack st') <= S (length (_stack afterSplit))) /\
  (forall out, popSplit afterSplit = Some out ->
     let st' := stateOf out in
     getStackDepth st' = _contextLevel st' /\
     pushes st' + applications afterSplit = pushes afterSplit + applications st' /\
     pops st' + length (_stack st') + applications afterSplit =
       pops afterSplit + length (_stack afterSplit) + applications st' /\
     length (_stack st') <= length (_stack afterSplit)) /\
  (forall validSplit,
     let st' := stateOf (recordImpliedValidSplit validSplit afterSplit) in
     getStackDepth st' = _contextLevel st') /\
  getStackDepth (reset afterSplit) = _contextLevel (reset afterSplit).
Proof.
  split; [reflexivity|].
  apply (stack_depth_is_context_level afterSplit). reflexivity.
Defined.

Example popSplit_counts :
  exists st',
    popSplit afterSplit = Some (Returned true st') /\
    (pushes afterSplit, pops afterSplit, applications afterSplit) = (1, 0, 1) /\
    (pushes st', pops st', applications st') = (2, 1, 2) /\
    getStackDepth st' = 1.
Proof. eexists. split; [vm_compute; reflexivity|]. by repeat split. Qed.

(** C8, at three violated constraints with violation counts 3, 1 and 5. *)
Lemma chooseViolatedConstraintForFixing_witness :
  [10; 11; 12] <> [] /\
  exists c,
    chooseViolatedConstraintForFixing leastFix (initialState None) [10; 11; 12]
      = Some c /\
    c ∈ [10; 11; 12] /\
    (USE_LEAST_FIX leastFix = true ->
       (forall c', c' ∈ [10; 11; 12] ->
          (getViolationCounts (initialState None) c <= getViolationCounts (initialState None) c')%N) /\
       exists pre post,
         [10; 11; 12] = pre ++ c :: post /\
         forall c', c' ∈ pre ->
           (getViolationCounts (initialState None) c < getViolationCounts (initialState None) c')%N) /\
    (USE_LEAST_FIX leastFix = false -> head [10; 11; 12] = Some c).
Proof.
  split; [done|].
  apply (chooseViolatedConstraintForFixing_spec leastFix (initialState None)
           [10; 11; 12]).
  done.
Defined.

Example least_fix_picks_count_one :
  map (getViolationCounts (initialState None)) [10; 11; 12] = [3%N; 1%N; 5%N] /\
  chooseViolatedConstraintForFixing leastFix (initialState None) [10; 11; 12]
    = Some 11 /\
  chooseViolatedConstraintForFixing (sampleConfiguration false) (initialState None) [10; 11; 12]
    = Some 10.
Proof. by repeat split. Qed.

(** *** Reports, splits and pops *)

(** A threshold of five violations, and an engine that picks no constraint
    of its own. *)
Definition fiveViolations : N := 5%N.
Definition engineHasNoPreference (calls : list Call) : option ConstraintId := None.

(** X3, at two reports of the constraint [10], counted three times before. *)
Lemma reportViolatedConstraint_repeated_witness :
  _needToSplit afterSplit = false /\
  (getViolationCounts afterSplit 10%nat + N.of_nat 2 < UINT_RANGE)%N /\
  getViolationCounts (reportRepeatedly fiveViolations engineHasNoPreference 2 10 afterSplit) 10
    = (getViolationCounts afterSplit 10%nat + N.of_nat 2)%N /\
  _needToSplit (reportRepeatedly fiveViolations engineHasNoPreference 2 10 afterSplit)
    = negb (Nat.eqb 2 0) &&
      (fiveViolations <=? getViolationCounts afterSplit 10%nat + N.of_nat 2)%N.
Proof.
  split; [reflexivity|]. split; [reflexivity|].
  exact (reportViolatedConstraint_repeated fiveViolations engineHasNoPreference 2 10 afterSplit
           eq_refl eq_refl).
Defined.

Example two_reports_reach_the_threshold :
  map (fun k => (getViolationCounts
                   (reportRepeatedly fiveViolations engineHasNoPreference k 10 afterSplit) 10,
                 _needToSplit
                   (reportRepeatedly fiveViolations engineHasNoPreference k 10 afterSplit),
                 _constraintForSplitting
                   (reportRepeatedly fiveViolations engineHasNoPreference k 10 afterSplit)))
    [0; 1; 2]
  = [(3%N, false, None); (4%N, false, None); (5%N, true, Some 10)].
Proof. reflexivity. Qed.

(** X4, at a report of the constraint [12], counted five times before. *)
Lemma performSplit_after_report_witness :
  (fiveViolations <=? uinc (getViolationCounts afterSplit 12%nat))%N = true /\
  exists candidate,
    _constraintForSplitting
      (reportViolatedConstraint fiveViolations engineHasNoPreference 12 afterSplit)
      = Some candidate /\
    (performSplit
       (reportViolatedConstraint fiveViolations engineHasNoPreference 12 afterSplit) = None ->
     isActive
       (_calls (reportViolatedConstraint fiveViolations engineHasNoPreference 12 afterSplit))
       candidate = true /\
     getCaseSplits
       (_calls (reportViolatedConstraint fiveViolations engineHasNoPreference 12 afterSplit))
       candidate = []).
Proof.
  split; [reflexivity|].
  apply (performSplit_after_report fiveViolations engineHasNoPreference 12 afterSplit).
  apply N.leb_le. reflexivity.
Defined.

(** X5, at the state after one split. *)
Lemma popSplit_progress_witness :
  _stack afterSplit <> [] /\
  exists st',
    popSplit afterSplit = Some (Returned true st') /\
    stackWork (_stack st') < stackWork (_stack afterSplit).
Proof.
  split; [done|]. eexists. split; [vm_compute; reflexivity|].
  apply (popSplit_progress afterSplit true); [done|vm_compute; reflexivity].
Defined.

(** X6, at the state after one split. *)
Lemma popSplit_backtracks_witness :
  exists st',
    popSplit afterSplit = Some (Returned true st') /\
    exists below frame above tried split remaining,
      _stack afterSplit = below ++ frame :: above /\
      _alternativeSplits frame = tried ++ split :: remaining /\
      _stack st' = below ++ [mkEntry split [] remaining (_engineState frame)] /\
      (exists before certificate,
         _calls st' =
           before ++
           [context_pop; engine_postContextPopHook; engine_restoreState (_engineState frame)] ++
           certificate ++
           [engine_preContextPushHook; context_push; engine_applySplit split] /\
         forallb isCertificateCall certificate = true) /\
      consistentBounds (_calls st') = true.
Proof.
  eexists. split; [vm_compute; reflexivity|].
  apply (popSplit_backtracks afterSplit). vm_compute. reflexivity.
Defined.

(** X7, at the state after one split, where no debugging solution is
    stored. *)
Lemma no_debugging_error_without_solution_witness :
  _debuggingSolution afterSplit = ∅ /\
  (exists b st', popSplit afterSplit = Some (Returned b st')) /\
  (forall validSplit,
     exists st', recordImpliedValidSplit validSplit afterSplit = Returned tt st').
Proof.
  split; [reflexivity|].
  apply (no_debugging_error_without_solution afterSplit). reflexivity.
Defined.

(** Two frames, neither with an alternative left, under two context
    levels. *)
Definition exhaustedState : State := {|
  _stack := [mkEntry xNonPositive [] [] (mkEngineState 0%N);
             mkEntry xNonNegative [] [] (mkEngineState 1%N)];
  _impliedValidSplitsAtRoot := [];
  _needToSplit := false;
  _constraintForSplitting := None;
  _nextStateId := 2%N;
  _constraintToViolationCount := ∅;
  _numRejectedPhasePatternProposal := 0%N;
  _debuggingSolution := ∅;
  _contextLevel := 2;
  _calls := [context_push; engine_applySplit xNonPositive;
             context_push; engine_applySplit xNonNegative];
|}.

(** X8, at a stack of two exhausted frames. *)
Lemma popSplit_exhausted_stack_witness :
  _debuggingSolution exhaustedState = ∅ /\
  map _alternativeSplits (_stack exhaustedState) = [[]; []] /\
  exists st',
    popSplit exhaustedState = Some (Returned false st') /\
    _stack st' = [] /\
    applications st' = applications exhaustedState /\
    pushes st' = pushes exhaustedState /\
    restores st' = restores exhaustedState /\
    pops st' = pops exhaustedState + length (_stack exhaustedState) /\
    _contextLevel st' = _contextLevel exhaustedState - length (_stack exhaustedState).
Proof.
  split; [reflexivity|]. split; [reflexivity|].
  apply (popSplit_exhausted_stack exhaustedState); [reflexivity|].
  intros frame Hin. simpl in Hin.
  apply elem_of_cons in Hin as [->|Hin]; [reflexivity|].
  apply elem_of_cons in Hin as [->|Hin]; [reflexivity|].
  by apply elem_of_nil in Hin.
Defined.

Example replay_rebuilds_first_case :
  allSplitsSoFar (replayEntries (_stack afterSplit) (initialState None)) = [xNonNegative] /\
  appliedSplits (_calls (replayEntries (_stack afterSplit) (initialState None)))
    = [xNonNegative] /\
  getStackDepth (replayEntries (_stack afterSplit) (initialState None)) = 1 /\
  _contextLevel (replayEntries (_stack afterSplit) (initialState None)) = 0.
Proof. by repeat split. Qed.

(** X11, at the stack that complies with the stored solution [x0 = 1]. *)
Lemma popSplit_refuses_compliant_stack_witness :
  _stack debuggingState <> [] /\
  _debuggingSolution debuggingState !! 0 = Some 1%float /\
  forallb (splitAllowsStoredSolution debuggingState) (allSplitsSoFar debuggingState) = true /\
  popSplit debuggingState = Some (Thrown DEBUGGING_ERROR debuggingState).
Proof.
  split; [done|]. split; [reflexivity|]. split; [reflexivity|].
  apply (popSplit_refuses_compliant_stack debuggingState); [done| |reflexivity].
  intros Hnone. apply (f_equal (fun solution => solution !! 0)) in Hnone. discriminate Hnone.
Defined.

(** A debugging solution [x0 = 1] is stored, and the frame on top excludes
    it by its active split [x0 <= 0], with [x0 >= 0] left to try. *)
Definition skewedState : State := {|
  _stack := [mkEntry xNonPositive [] [xNonNegative] (mkEngineState 0%N)];
  _impliedValidSplitsAtRoot := [];
  _needToSplit := false;
  _constraintForSplitting := None;
  _nextStateId := 1%N;
  _constraintToViolationCount := ∅;
  _numRejectedPhasePatternProposal := 0%N;
  _debuggingSolution := {[ 0 := 1%float ]};
  _contextLevel := 1;
  _calls := [context_push; engine_applySplit xNonPositive];
|}.

(** X17, at a stack whose top frame excludes the stored solution and has an
    alternative left. *)
Lemma checkSkewFromDebuggingSolution_outcomes_witness :
  _debuggingSolution skewedState !! 0 = Some 1%float /\
  checkSkewFromDebuggingSolution skewedState = inr false /\
  match checkSkewFromDebuggingSolution skewedState with
  | inr true =>
      forallb (splitAllowsStoredSolution skewedState) (_impliedValidSplitsAtRoot skewedState)
        = true /\
      forallb (frameAllowsStoredSolution skewedState) (_stack skewedState) = true
  | inr false =>
      forallb (splitAllowsStoredSolution skewedState) (_impliedValidSplitsAtRoot skewedState)
        = true /\
      firstOffender skewedState (_stack skewedState) true
  | inl _ =>
      forallb (splitAllowsStoredSolution skewedState) (_impliedValidSplitsAtRoot skewedState)
        = false \/
      (forallb (splitAllowsStoredSolution skewedState) (_impliedValidSplitsAtRoot skewedState)
         = true /\
       firstOffender skewedState (_stack skewedState) false)
  end.
Proof.
  split; [reflexivity|]. split; [reflexivity|].
  apply (checkSkewFromDebuggingSolution_outcomes skewedState).
  intros Hnone. apply (f_equal (fun solution => solution !! 0)) in Hnone. discriminate Hnone.
Defined.

(** X12, at a split on the active constraint [3]. *)
Lemma performSplit_active_spec_witness :
  _constraintForSplitting (initialState (Some 3)) = Some 3 /\
  isActive (_calls (initialState (Some 3))) 3 = true /\
  getCaseSplits (_calls (initialState (Some 3))) 3 = [xNonNegative; xNonPositive] /\
  exists st',
    performSplit (initialState (Some 3)) = Some st' /\
    _stack st' = _stack (initialState (Some 3)) ++
                 [mkEntry xNonNegative [] [xNonPositive]
                    (mkEngineState (_nextStateId (initialState (Some 3))))] /\
    _nextStateId st' = uinc (_nextStateId (initialState (Some 3))) /\
    engine_storeState (mkEngineState (_nextStateId (initialState (Some 3)))) STORE_BOUNDS_ONLY
      ∈ _calls st' /\
    last (_calls st') = Some (engine_applySplit xNonNegative) /\
    appliedSplits (_calls st') = appliedSplits (_calls (initialState (Some 3))) ++ [xNonNegative] /\
    allSplitsSoFar st' = allSplitsSoFar (initialState (Some 3)) ++ [xNonNegative] /\
    _contextLevel st' = S (_contextLevel (initialState (Some 3))) /\
    pushes st' = S (pushes (initialState (Some 3))) /\
    pops st' = pops (initialState (Some 3)) /\
    _needToSplit st' = false /\
    _constraintForSplitting st' = None /\
    _constraintToViolationCount st' = _constraintToViolationCount (initialState (Some 3)).
Proof.
  split; [reflexivity|]. split; [reflexivity|]. split; [reflexivity|].
  apply (performSplit_active_spec (initialState (Some 3)) 3 xNonNegative [xNonPositive]);
    reflexivity.
Defined.

(** *** The row bound tightener *)

Import RowBoundTightener.

(** One row, [x0 + x1 + x2 = rhs], with [x0] basic: the row of the inverted
    basis is [x0 = rhs - x1 - x2]. *)
Definition unitSum (rhs : double) : ITableau := {|
  getN := 3;
  getM := 1;
  getRightHandSide _ := rhs;
  getSparseARow _ := [mkSparse 0 1%float; mkSparse 1 1%float; mkSparse 2 1%float];
  getSparseAColumn _ := [mkSparse 0 1%float];
  getAColumn _ _ := 1%float;
  getInverseBasisMatrix _ := 1%float;
  forwardTransformation y := y;
  basicIndexToVariable _ := 0;
  nonBasicIndexToVariable i := S i;
  getPivotRow := mkRow [mkEntry 1 (-1)%float; mkEntry 2 (-1)%float] rhs 0;
|}.

(** One row, [0.01 x0 + x1 = 1], with [x1] basic: the row of the inverted
    basis is [x1 = 1 - 0.01 x0].  The coefficient of [x0] has the magnitude
    of the threshold of [sampleConfiguration]. *)
Definition thresholdRow : ITableau := {|
  getN := 2;
  getM := 1;
  getRightHandSide _ := 1%float;
  getSparseARow _ := [mkSparse 0 0.01%float; mkSparse 1 1%float];
  getSparseAColumn v := match v with O => [mkSparse 0 0.01%float] | _ => [mkSparse 0 1%float] end;
  getAColumn v _ := match v with O => 0.01%float | _ => 1%float end;
  getInverseBasisMatrix _ := 1%float;
  forwardTransformation y := y;
  basicIndexToVariable _ := 1;
  nonBasicIndexToVariable _ := 0;
  getPivotRow := mkRow [mkEntry 0 (-0.01)%float] 1%float 1;
|}.

Definition tightenerWith (lower upper : nat -> double) : RowBoundTightener.State := {|
  _boundManager := mkBoundManager lower upper [] [];
  _rows := [];
  _ciTimesLb _ := 0%float;
  _ciTimesUb _ := 0%float;
  _ciSign _ := ZERO;
  _unreleasedInverses := 0;
|}.

(** Every variable in [0, 1]. *)
Definition unitBox : RowBoundTightener.State :=
  tightenerWith (fun _ => 0%float) (fun _ => 1%float).

(** [x0] in [0, 10], the others in [0, 1]. *)
Definition wideBox : RowBoundTightener.State :=
  tightenerWith (fun _ => 0%float) (fun v => match v with O => 10%float | _ => 1%float end).

(** Where a request comes from, and what it asks for. *)
Definition summary (r : Request) : option nat * nat * BoundType :=
  (origin r, _variable (requested r), _type (requested r)).

(** C2, counterexample.  The coefficient of [x0] is exactly at the
    threshold, in the row of the constraint matrix and (negated) in the row
    of the inverted basis; it is not less than the threshold under
    [FloatUtils::lt], and both passes request a lower and an upper bound for
    [x0] from that entry, at position 0. *)
Lemma entry_at_threshold_is_tightened :
  PrimFloat.eqb (PrimFloat.abs 0.01%float) (MINIMAL_COEFFICIENT_FOR_TIGHTENING leastFix) = true /\
  PrimFloat.eqb (PrimFloat.abs (-0.01)%float) (MINIMAL_COEFFICIENT_FOR_TIGHTENING leastFix) = true /\
  getSparseARow (ITableau := thresholdRow) 0 !! 0 = Some (mkSparse 0 0.01%float) /\
  _row (getPivotRow (ITableau := thresholdRow)) !! 0 = Some (mkEntry 0 (-0.01)%float) /\
  map summary (requestsOf (stateOf
    (tightenOnSingleConstraintRow (tableau := thresholdRow) leastFix 0 wideBox)))
    = [(Some 0, 0, LB); (Some 0, 0, UB); (Some 1, 1, LB); (Some 1, 1, UB)] /\
  map summary (requestsOf (stateOf
    (tightenOnSingleInvertedBasisRow (tableau := thresholdRow) leastFix
       (getPivotRow (ITableau := thresholdRow)) wideBox)))
    = [(None, 1, LB); (None, 1, UB); (Some 0, 0, LB); (Some 0, 0, UB)].
Proof. vm_compute. by repeat split. Qed.

(** C3, counterexample.  On the row [x0 + x1 + x2 = 3] of the constraint
    matrix, with every variable in [0, 1], the bounds derived for [x0] are
    1 and 3, and the values handed over are 1 and 3 as well: not 1 minus
    the rounding constant, nor 3 plus it. *)
Lemma constraint_row_registers_unrounded :
  boundsForSparseEntry (tableau := unitSum 3%float) 0 unitBox (mkSparse 0 1%float)
    = (1%float, 3%float) /\
  map requested (requestsOf (stateOf
    (tightenOnSingleConstraintRow (tableau := unitSum 3%float) leastFix 0 unitBox)))
    = [mkTightening 0 1%float LB; mkTightening 0 3%float UB;
       mkTightening 1 1%float LB; mkTightening 1 3%float UB;
       mkTightening 2 1%float LB; mkTightening 2 3%float UB] /\
  PrimFloat.eqb (1 - EXPLICIT_BASIS_BOUND_TIGHTENING_ROUNDING_CONSTANT leastFix)%float 1%float = false /\
  PrimFloat.eqb (3 + EXPLICIT_BASIS_BOUND_TIGHTENING_ROUNDING_CONSTANT leastFix)%float 3%float = false.
Proof. vm_compute. by repeat split. Qed.

(** The row [x0 + x1 + x2 = 3.5] cannot be met in the unit box: the first
    pass throws, in both kinds of passes, and the explicit inverse has been
    released when the exception leaves [examineInvertedBasisMatrix]. *)
Example infeasible_row_raises :
  (exists st',
     examineInvertedBasisMatrix (tableau := unitSum 3.5%float) leastFix true unitBox
       = Some ([None], Thrown InfeasibleQuery st') /\
     _unreleasedInverses st' = 0 /\
     crossed st' 0 = true) /\
  (exists st',
     examineConstraintMatrix (tableau := unitSum 3.5%float) leastFix true unitBox
       = Some ([None], Thrown InfeasibleQuery st') /\
     crossed st' 0 = true).
Proof. vm_compute. split; eexists; by repeat split. Qed.

(** The row [x0 + x1 + x2 = 3.5] again: the first tightening, of [x0],
    leaves [x0] with crossing bounds, and the row throws in the state of
    that moment, with the tightenings of [x1] and [x2] not made. *)
Example first_crossing_raises :
  tightenOnSingleConstraintRow (tableau := unitSum 3.5%float) leastFix 0 unitBox
  = Thrown InfeasibleQuery
      (stateAfter (stepsOfConstraintRow (tableau := unitSum 3.5%float) leastFix 0 unitBox) 1
         (flaggedSparse (tableau := unitSum 3.5%float) 0 unitBox)) /\
  map _subject (stepsOfConstraintRow (tableau := unitSum 3.5%float) leastFix 0 unitBox)
    = [0; 1; 2] /\
  crossed (stateAfter (stepsOfConstraintRow (tableau := unitSum 3.5%float) leastFix 0 unitBox) 1
             (flaggedSparse (tableau := unitSum 3.5%float) 0 unitBox)) 0 = true.
Proof. vm_compute. by repeat split. Qed.

(** C5, counterexample.  On the row [x0 + x1 + x2 = 3.00000000005] in the
    unit box every variable gets the lower bound 1.00000000005, above its
    upper bound 1, but by less than the tolerance of [FloatUtils::gt]: no
    exception is raised, the run returns after its second pass and leaves
    every lower bound above the upper bound. *)
Lemma crossing_within_tolerance_returns :
  exists st',
    examineConstraintMatrix (tableau := unitSum 3.00000000005%float) leastFix true unitBox
      = Some ([Some 3%N; Some 0%N], Returned tt st') /\
    map (getLowerBound st') [0; 1; 2]
      = [1.00000000005%float; 1.00000000005%float; 1.00000000005%float] /\
    map (getUpperBound st') [0; 1; 2] = [1%float; 1%float; 1%float] /\
    map (fun v => PrimFloat.ltb (getUpperBound st' v) (getLowerBound st' v)) [0; 1; 2]
      = [true; true; true] /\
    map (crossed st') [0; 1; 2] = [false; false; false].
Proof. eexists. split; [vm_compute; reflexivity|]. vm_compute. by repeat split. Qed.

(** The row [x0 + x1 + x2 = 3] forces every variable to 1: the first pass
    learns three bounds, the second none, and the run stops there, well
    before the cap of twenty passes.  Without [untilSaturation] there is
    one pass. *)
Example saturation_stops_after_idle_pass :
  (exists out, examineConstraintMatrix (tableau := unitSum 3%float) leastFix true unitBox
               = Some ([Some 3%N; Some 0%N], out)) /\
  (exists out, examineConstraintMatrix (tableau := unitSum 3%float) leastFix false unitBox
               = Some ([Some 3%N], out)).
Proof. vm_compute. split; by eexists. Qed.

(** C6, at the cap of twenty passes. *)
Lemma saturation_passes_witness :
  (0 < ROW_BOUND_TIGHTENER_SATURATION_ITERATIONS leastFix < UINT_RANGE)%N /\
  passesAsConfigured leastFix
    (onePassOverConstraintMatrix (tableau := unitSum 3%float) leastFix) unitBox
    (fun out => out) true
    (examineConstraintMatrix (tableau := unitSum 3%float) leastFix true unitBox) /\
  passesAsConfigured leastFix
    (onePassOverInvertedBasisRows (tableau := unitSum 3%float) leastFix)
    (withImplicitRows (tableau := unitSum 3%float) unitBox) (fun out => out) true
    (examineImplicitInvertedBasisMatrix (tableau := unitSum 3%float) leastFix true unitBox) /\
  passesAsConfigured leastFix
    (onePassOverInvertedBasisRows (tableau := unitSum 3%float) leastFix)
    (withExplicitRows (tableau := unitSum 3%float) unitBox) released true
    (examineInvertedBasisMatrix (tableau := unitSum 3%float) leastFix true unitBox).
Proof.
  assert (Hcap : (0 < ROW_BOUND_TIGHTENER_SATURATION_ITERATIONS leastFix
                  < UINT_RANGE)%N) by (vm_compute; split; reflexivity).
  split; [exact Hcap|].
  exact (saturation_passes (tableau := unitSum 3%float) leastFix
           true unitBox Hcap).
Defined.

(** One row, [-0.001 x0 + x1 = 1], with [x1] basic: the row of the inverted
    basis is [x1 = 1 + 0.001 x0], with a coefficient well below the
    threshold. *)
Definition smallCoefficientRow : ITableau := {|
  getN := 2;
  getM := 1;
  getRightHandSide _ := 1%float;
  getSparseARow _ := [mkSparse 0 (-0.001)%float; mkSparse 1 1%float];
  getSparseAColumn v :=
    match v with O => [mkSparse 0 (-0.001)%float] | _ => [mkSparse 0 1%float] end;
  getAColumn v _ := match v with O => (-0.001)%float | _ => 1%float end;
  getInverseBasisMatrix _ := 1%float;
  forwardTransformation y := y;
  basicIndexToVariable _ := 1;
  nonBasicIndexToVariable _ := 0;
  getPivotRow := mkRow [mkEntry 0 0.001%float] 1%float 1;
|}.

(** With [x0] in [0, 10], the entry of [x0] moves the upper bound derived
    for the basic variable from 1 to 1.01, and is then passed over when it
    comes to tightening [x0] itself: the two requests are those for the
    basic variable. *)
Example small_coefficient_counts_for_basic :
  lt (PrimFloat.abs 0.001%float) (MINIMAL_COEFFICIENT_FOR_TIGHTENING leastFix) = true /\
  sumForBasic (tableau := smallCoefficientRow) (getPivotRow (ITableau := smallCoefficientRow))
    wideBox = (1%float, 1.01%float) /\
  map summary (requestsOf (stateOf
    (tightenOnSingleInvertedBasisRow (tableau := smallCoefficientRow) leastFix
       (getPivotRow (ITableau := smallCoefficientRow)) wideBox)))
    = [(None, 1, LB); (None, 1, UB)].
Proof. vm_compute. by repeat split. Qed.

(** *** Caps and leftovers *)

(** The configuration above with a cap of zero passes. *)
Definition uncapped : GlobalConfiguration := {|
  USE_LEAST_FIX := true;
  ROW_BOUND_TIGHTENER_SATURATION_ITERATIONS := 0%N;
  MINIMAL_COEFFICIENT_FOR_TIGHTENING := 0.01%float;
  EXPLICIT_BASIS_BOUND_TIGHTENING_ROUNDING_CONSTANT := 0.0000000001%float;
|}.

(** X14, at the row [x0 + x1 + x2 = 3] in the unit box. *)
Lemma zero_cap_is_no_cap_witness :
  (ROW_BOUND_TIGHTENER_SATURATION_ITERATIONS uncapped mod UINT_RANGE = 0)%N /\
  passesUntilIdle
    (onePassOverConstraintMatrix (tableau := unitSum 3%float) uncapped) unitBox
    (fun out => out)
    (examineConstraintMatrix (tableau := unitSum 3%float) uncapped true unitBox) /\
  passesUntilIdle
    (onePassOverInvertedBasisRows (tableau := unitSum 3%float) uncapped)
    (withImplicitRows (tableau := unitSum 3%float) unitBox) (fun out => out)
    (examineImplicitInvertedBasisMatrix (tableau := unitSum 3%float) uncapped true unitBox) /\
  passesUntilIdle
    (onePassOverInvertedBasisRows (tableau := unitSum 3%float) uncapped)
    (withExplicitRows (tableau := unitSum 3%float) unitBox) released
    (examineInvertedBasisMatrix (tableau := unitSum 3%float) uncapped true unitBox).
Proof.
  split; [reflexivity|].
  exact (zero_cap_is_no_cap (tableau := unitSum 3%float) uncapped unitBox eq_refl).
Defined.

(** With the cap of zero the run does not stop after its first pass: the
    second pass is made, and the run ends because that pass learns nothing. *)
Example zero_cap_keeps_going :
  exists out, examineConstraintMatrix (tableau := unitSum 3%float) uncapped true unitBox
              = Some ([Some 3%N; Some 0%N], out).
Proof. eexists. lazy. reflexivity. Qed.

(** The unit box, with leftovers of earlier work in the rows and in the
    scratch arrays. *)
Definition staleBox : RowBoundTightener.State := {|
  _boundManager := _boundManager unitBox;
  _rows := [mkRow [mkEntry 5 7%float] 2%float 4];
  _ciTimesLb _ := 7%float;
  _ciTimesUb _ := (-9)%float;
  _ciSign _ := NEGATIVE;
  _unreleasedInverses := 0;
|}.

(** X15, at the unit box with and without leftovers. *)
Lemma passes_depend_on_bounds_only_witness :
  _boundManager unitBox = _boundManager staleBox /\
  verdict (tightenOnSingleInvertedBasisRow (tableau := unitSum 3%float) leastFix
             (getPivotRow (ITableau := unitSum 3%float)) unitBox) =
    verdict (tightenOnSingleInvertedBasisRow (tableau := unitSum 3%float) leastFix
               (getPivotRow (ITableau := unitSum 3%float)) staleBox) /\
  verdict (tightenOnSingleConstraintRow (tableau := unitSum 3%float) leastFix 0 unitBox) =
    verdict (tightenOnSingleConstraintRow (tableau := unitSum 3%float) leastFix 0 staleBox) /\
  verdict (examinePivotRow (tableau := unitSum 3%float) leastFix unitBox) =
    verdict (examinePivotRow (tableau := unitSum 3%float) leastFix staleBox) /\
  runVerdict (examineConstraintMatrix (tableau := unitSum 3%float) leastFix true unitBox) =
    runVerdict (examineConstraintMatrix (tableau := unitSum 3%float) leastFix true staleBox) /\
  runVerdict
    (examineImplicitInvertedBasisMatrix (tableau := unitSum 3%float) leastFix true unitBox) =
    runVerdict
      (examineImplicitInvertedBasisMatrix (tableau := unitSum 3%float) leastFix true staleBox) /\
  runVerdict (examineInvertedBasisMatrix (tableau := unitSum 3%float) leastFix true unitBox) =
    runVerdict (examineInvertedBasisMatrix (tableau := unitSum 3%float) leastFix true staleBox).
Proof.
  split; [reflexivity|].
  exact (passes_depend_on_bounds_only (tableau := unitSum 3%float) leastFix true
           (getPivotRow (ITableau := unitSum 3%float)) 0 unitBox staleBox eq_refl).
Defined.

(** The leftovers make no difference to the requests either. *)
Example leftovers_are_overwritten :
  map summary (requestsOf (stateOf
    (tightenOnSingleConstraintRow (tableau := unitSum 3%float) leastFix 0 staleBox)))
  = map summary (requestsOf (stateOf
    (tightenOnSingleConstraintRow (tableau := unitSum 3%float) leastFix 0 unitBox))) /\
  map summary (requestsOf (stateOf
    (tightenOnSingleInvertedBasisRow (tableau := unitSum 3%float) leastFix
       (getPivotRow (ITableau := unitSum 3%float)) staleBox)))
  = map summary (requestsOf (stateOf
    (tightenOnSingleInvertedBasisRow (tableau := unitSum 3%float) leastFix
       (getPivotRow (ITableau := unitSum 3%float)) unitBox))).
Proof. vm_compute. by split. Qed.

End Examples.
